(** * Azure cost aggregation: a shallow embedding of
      [cost_analysis/aggregate_azure_cost.py]

    The development follows the source file top to bottom: the Python
    values the script handles (strings, floats, JSON documents, paths), the
    two regular expressions, the file system it scans, the
    [AzureCostAggregator] methods as computations over the aggregator's
    state, and [main].  The theorems come after all the definitions. *)

From Stdlib Require Import ZArith NArith Ascii String Floats Lia.
From stdpp Require Import base option list sorting strings.

Set Default Proof Using "Type".
Local Open Scope Z_scope.

(** ** Characters and strings

    A Python [str] is modelled by [string]; a character stands for the code
    point with the same number, so the model covers the code points below
    256.  The proofs work on the list of characters. *)

Definition chars := list ascii.

Definition code (c : ascii) : N := N_of_ascii c.

Definition in_range (lo hi : N) (c : ascii) : bool :=
  ((lo <=? code c) && (code c <=? hi))%N.

(** [str.isspace] and the class [\s] on the code points below 256. *)
Definition is_space (c : ascii) : bool :=
  in_range 9 13 c || in_range 28 32 c || (code c =? 133)%N || (code c =? 160)%N.

(** The class [\d]: the only decimal digits below 256 are [0]..[9]. *)
Definition is_digit (c : ascii) : bool := in_range 48 57 c.

(** [str.lower], one character at a time: [A]..[Z] and the capital letters
    of the Latin-1 block (without the multiplication sign) move up by 32. *)
Definition lower_char (c : ascii) : ascii :=
  if in_range 65 90 c || (in_range 192 222 c && negb (code c =? 215)%N)
  then ascii_of_N (code c + 32)
  else c.

Definition lower (s : chars) : chars := map lower_char s.

Definition eqb_chars (s t : chars) : bool :=
  bool_decide (s = t).

(** [t in s] for two strings: [t] occurs in [s] as a contiguous block. *)
Fixpoint strip_prefix (t s : chars) : option chars :=
  match t, s with
  | [], _ => Some s
  | a :: t', b :: s' => if Ascii.eqb a b then strip_prefix t' s' else None
  | _ :: _, [] => None
  end.

Fixpoint contains (t s : chars) : bool :=
  match strip_prefix t s with
  | Some _ => true
  | None => match s with
            | [] => false
            | _ :: s' => contains t s'
            end
  end.

Definition str (s : string) : chars := list_ascii_of_string s.
Definition of_chars (s : chars) : string := string_of_list_ascii s.

(** ** Floats

    A Python [float] is an IEEE 754 binary64 value, which is what [float]
    of the kernel is.  [float(...)] of a decimal numeral rounds the exact
    rational to the nearest float, ties to even. *)

Definition round_ratio (neg : bool) (num den : Z) : float :=
  match num, den with
  | Zpos _, Zpos _ =>
      let '(q, e, l) := SFdiv_core_binary prec emax num 0 den 0 in
      SF2Prim (binary_round_aux prec emax neg q e l)
  | _, _ => if neg then neg_zero else zero
  end.

(** The float nearest to [m * 10 ^ e]. *)
Definition round_decimal (neg : bool) (m e : Z) : float :=
  if 0 <=? e then round_ratio neg (m * 10 ^ e) 1
  else round_ratio neg m (10 ^ (- e)).

Definition digit_val (c : ascii) : Z := Z.of_N (code c) - 48.

Definition Z_of_digits (ds : chars) : Z :=
  fold_left (fun acc c => 10 * acc + digit_val c) ds 0.

Fixpoint span (p : ascii -> bool) (s : chars) : chars * chars :=
  match s with
  | c :: s' => if p c then let '(a, b) := span p s' in (c :: a, b) else ([], s)
  | [] => ([], [])
  end.

(** The blanks [float] accepts around a numeral: the space and the
    characters tab to carriage return, and on the code points from 128 on
    what [str.isspace] holds of, which are 133 and 160 (these two [float]
    first turns into a space).  The separators 28 to 31 are not among
    them, although [str.isspace] and [\s] hold of them. *)
Definition is_float_space (c : ascii) : bool :=
  in_range 9 13 c || (code c =? 32)%N || (code c =? 133)%N || (code c =? 160)%N.

(** What [float] leaves of a string after it has removed the blanks at
    both ends. *)
Definition strip (s : chars) : chars :=
  rev (snd (span is_float_space (rev (snd (span is_float_space s))))).

(** Underscores inside a numeral: each one must stand between two digits;
    they are then dropped.  [prev] is the character before [s]. *)
Fixpoint drop_underscores (prev : option ascii) (s : chars) : option chars :=
  match s with
  | [] => if bool_decide (prev = Some "_"%char) then None else Some []
  | c :: s' =>
      if Ascii.eqb c "_"
      then match prev with
           | Some d => if is_digit d then drop_underscores (Some c) s' else None
           | None => None
           end
      else if bool_decide (prev = Some "_"%char) && negb (is_digit c) then None
      else option_map (cons c) (drop_underscores (Some c) s')
  end.

Definition take_sign (s : chars) : bool * chars :=
  match s with
  | "-"%char :: r => (true, r)
  | "+"%char :: r => (false, r)
  | _ => (false, s)
  end.

(** The exponent part [e±ddd]; without a digit after the [e] there is no
    exponent and the [e] stays unread. *)
Definition take_exponent (s : chars) : Z * chars :=
  match s with
  | c :: r =>
      if Ascii.eqb (lower_char c) "e" then
        let '(neg, r1) := take_sign r in
        match span is_digit r1 with
        | ([], _) => (0, s)
        | (ds, r2) => ((if neg then - Z_of_digits ds else Z_of_digits ds), r2)
        end
      else (0, s)
  | [] => (0, s)
  end.

(** A decimal numeral: sign, digits, optional point and digits (at least one
    digit in all), optional exponent, and nothing after it. *)
Definition parse_decimal (s : chars) : option float :=
  let '(neg, s1) := take_sign s in
  let '(ip, s2) := span is_digit s1 in
  let '(fp, s3) := match s2 with
                   | "."%char :: r => span is_digit r
                   | _ => ([], s2)
                   end in
  match ip ++ fp with
  | [] => None
  | ds =>
      match take_exponent s3 with
      | (ex, []) => Some (round_decimal neg (Z_of_digits ds) (ex - Z.of_nat (length fp)))
      | _ => None
      end
  end.

(** [inf], [infinity] and [nan], in any letter case, with an optional sign. *)
Definition parse_inf_nan (s : chars) : option float :=
  let '(neg, r) := take_sign s in
  let w := lower r in
  if eqb_chars w (str "inf") || eqb_chars w (str "infinity")
  then Some (if neg then neg_infinity else infinity)
  else if eqb_chars w (str "nan") then Some nan
  else None.

(** [float(s)] for a string [s]; [None] stands for [ValueError]. *)
Definition float_of_str (s : chars) : option float :=
  match drop_underscores None s with
  | None => None
  | Some t =>
      match parse_inf_nan (strip t) with
      | Some f => Some f
      | None => parse_decimal (strip t)
      end
  end.

(** [float(n)] for an integer [n]; [None] stands for [OverflowError], which
    Python raises when [n] rounds beyond the largest finite float. *)
Definition float_of_int (n : Z) : option float :=
  let f := round_ratio (n <? 0) (Z.abs n) 1 in
  if is_infinity f then None else Some f.

(** ** Regular expressions

    The two patterns of the script use literals, character classes under
    the greedy repetitions [*], [+] and [{n}], and capturing groups that
    are never nested.  [re.search] is a backtracking matcher: it tries the
    start positions from the left and, at each one, the longest repetition
    first. *)

Inductive atom :=
| Lit (t : chars)                       (* literal text *)
| Many (p : ascii -> bool)              (* p*  *)
| Many1 (p : ascii -> bool)             (* p+  *)
| Exactly (n : nat) (p : ascii -> bool). (* p{n} *)

Inductive item :=
| Plain (a : atom)
| Group (body : list atom).             (* ( ... ) *)

Definition regex := list item.

Section Matcher.
Context {R : Type}.

(** [p*], longest first, then giving characters back one by one. *)
Fixpoint greedy (p : ascii -> bool) (s : chars) (k : chars -> option R) : option R :=
  match s with
  | c :: s' =>
      if p c then
        match greedy p s' k with
        | Some r => Some r
        | None => k s
        end
      else k s
  | [] => k s
  end.

Fixpoint exactly (n : nat) (p : ascii -> bool) (s : chars) (k : chars -> option R) : option R :=
  match n with
  | O => k s
  | S n' =>
      match s with
      | c :: s' => if p c then exactly n' p s' k else None
      | [] => None
      end
  end.

(** Match one atom at the head of [s]; [k] is the rest of the match. *)
Definition match_atom (a : atom) (s : chars) (k : chars -> option R) : option R :=
  match a with
  | Lit t =>
      match strip_prefix t s with
      | Some s' => k s'
      | None => None
      end
  | Many p => greedy p s k
  | Many1 p =>
      match s with
      | c :: s' => if p c then greedy p s' k else None
      | [] => None
      end
  | Exactly n p => exactly n p s k
  end.

Fixpoint match_atoms (l : list atom) (s : chars) (k : chars -> option R) : option R :=
  match l with
  | [] => k s
  | a :: rest => match_atom a s (fun s1 => match_atoms rest s1 k)
  end.

(** [caps] are the groups closed so far; a group records the text its
    body consumed. *)
Fixpoint match_seq (r : regex) (s : chars) (caps : list chars)
         (k : chars -> list chars -> option R) : option R :=
  match r with
  | [] => k s caps
  | Plain a :: rest => match_atom a s (fun s1 => match_seq rest s1 caps k)
  | Group body :: rest =>
      match_atoms body s
        (fun s1 => match_seq rest s1 (caps ++ [take (length s - length s1) s]) k)
  end.
End Matcher.

(** [re.match(r, s)]: the groups of the match of [r] at the head of [s]. *)
Definition match_here (r : regex) (s : chars) : option (list chars) :=
  match_seq r s [] (fun _ caps => Some caps).

(** [re.search(r, s)]: the groups of the leftmost match. *)
Fixpoint search (r : regex) (s : chars) : option (list chars) :=
  match match_here r s with
  | Some caps => Some caps
  | None =>
      match s with
      | [] => None
      | _ :: s' => search r s'
      end
  end.

(** The class [[0-9a-f]]. *)
Definition is_hex (c : ascii) : bool := in_range 48 57 c || in_range 97 102 c.

(** The class [[\d,]]. *)
Definition is_digit_or_comma (c : ascii) : bool := is_digit c || Ascii.eqb c ",".

(** The pattern of [extract_subscription_id]:
    [([0-9a-f]{8}-[0-9a-f]{4}-[0-9a-f]{4}-[0-9a-f]{4}-[0-9a-f]{12})] *)
Definition uuid_atoms : list atom :=
  [Exactly 8 is_hex; Lit (str "-"); Exactly 4 is_hex; Lit (str "-");
   Exactly 4 is_hex; Lit (str "-"); Exactly 4 is_hex; Lit (str "-");
   Exactly 12 is_hex].

Definition uuid_pattern : regex := [Group uuid_atoms].

(** The pattern of [parse_diff_text_file]:
    [\|\s*TOTAL COSTS\s*\|\s*([\d,]+\.\d+)\s*EUR\s*\|\s*([\d,]+\.\d+)\s*EUR] *)
Definition figure_atoms : list atom :=
  [Many1 is_digit_or_comma; Lit (str "."); Many1 is_digit].

Definition total_costs_pattern : regex :=
  [Plain (Lit (str "|")); Plain (Many is_space); Plain (Lit (str "TOTAL COSTS"));
   Plain (Many is_space); Plain (Lit (str "|")); Plain (Many is_space);
   Group figure_atoms;
   Plain (Many is_space); Plain (Lit (str "EUR")); Plain (Many is_space);
   Plain (Lit (str "|")); Plain (Many is_space);
   Group figure_atoms;
   Plain (Many is_space); Plain (Lit (str "EUR"))].

(** [s.replace(',', '')] *)
Definition remove_commas (s : chars) : chars :=
  List.filter (fun c => negb (Ascii.eqb c ",")) s.

(** ** Exceptions

    The exceptions the script can meet.  An [except] clause catches an
    exception of the named class or of a subclass: [UnicodeDecodeError] and
    [json.JSONDecodeError] are subclasses of [ValueError]. *)

Inductive exn :=
| FileNotFoundError | NotADirectoryError | IsADirectoryError | PermissionError
| UnicodeDecodeError | JSONDecodeError | ValueError
| KeyError | TypeError | OverflowError | ZeroDivisionError.

Global Instance exn_eq_dec : EqDecision exn.
Proof. solve_decision. Defined.

Definition subclass (e c : exn) : bool :=
  bool_decide (e = c)
  || (bool_decide (c = ValueError)
      && (bool_decide (e = UnicodeDecodeError) || bool_decide (e = JSONDecodeError))).

Definition caught_by (classes : list exn) (e : exn) : bool :=
  existsb (subclass e) classes.

(** Computations that return or raise, without touching the aggregator. *)
Definition result (A : Type) : Type := exn + A.

Definition ok {A} (a : A) : result A := inr a.
Definition fail {A} (e : exn) : result A := inl e.

Definition result_bind {A B} (c : result A) (k : A -> result B) : result B :=
  match c with
  | inl e => inl e
  | inr a => k a
  end.

Notation "'let?' x ':=' c 'in' k" := (result_bind c (fun x => k))
  (at level 10, x name, c at level 100, k at level 200, only parsing).

(** ** JSON documents

    The value [json.load] returns: [dict] for an object (one entry per key),
    [list] for an array, [str], [int] or [float] for a number, [bool],
    [None]. *)

#[warnings="-register-all"]
Inductive json :=
| JNull
| JBool (b : bool)
| JInt (n : Z)
| JFloat (f : float)
| JStr (s : string)
| JList (l : list json)
| JDict (d : list (string * json)).

Fixpoint assoc {A} (key : string) (d : list (string * A)) : option A :=
  match d with
  | [] => None
  | (k, v) :: rest => if String.eqb k key then Some v else assoc key rest
  end.

(** [key in v] for a string [key]: a key of a dict, an element of a list, a
    substring of a string; the other values are not iterable. *)
Definition py_in (key : string) (v : json) : result bool :=
  match v with
  | JDict d => ok (bool_decide (is_Some (assoc key d)))
  | JList l =>
      ok (existsb (fun x => match x with JStr s => String.eqb s key | _ => false end) l)
  | JStr s => ok (contains (str key) (str s))
  | JNull | JBool _ | JInt _ | JFloat _ => fail TypeError
  end.

(** [v[key]] for a string [key]. *)
Definition py_getitem (v : json) (key : string) : result json :=
  match v with
  | JDict d =>
      match assoc key d with
      | Some x => ok x
      | None => fail KeyError
      end
  | _ => fail TypeError
  end.

(** [float(v)] *)
Definition py_float (v : json) : result float :=
  match v with
  | JFloat f => ok f
  | JInt n =>
      match float_of_int n with
      | Some f => ok f
      | None => fail OverflowError
      end
  | JBool b => ok (if b then one else zero)
  | JStr s =>
      match float_of_str (str s) with
      | Some f => ok f
      | None => fail ValueError
      end
  | JNull | JList _ | JDict _ => fail TypeError
  end.

(** ** Paths and the file system

    A path is the list of its components below the root.  A regular file
    that can be read is given with what reading it produces: bytes that do
    not decode as UTF-8, or a text together with the value [json.load]
    makes of that text ([None] when the text is not JSON). *)

Definition path := list string.

Inductive content :=
| Binary
| Utf8 (text : string) (doc : option json).

#[warnings="-register-all"]
Inductive node :=
| Dir (entries : list (string * node))
| File (c : content)
| Locked                 (* a file that the process may not read *)
| Dangling.              (* a symbolic link whose target is missing *)

Inductive found :=
| Here (n : node)
| Missing
| Blocked.               (* a component on the way is not a directory *)

Fixpoint resolve (n : node) (p : path) : found :=
  match p with
  | [] => Here n
  | name :: rest =>
      match n with
      | Dir entries =>
          match assoc name entries with
          | Some child => resolve child rest
          | None => Missing
          end
      | Dangling => Missing
      | File _ | Locked => Blocked
      end
  end.

(** [Path.exists()] *)
Definition path_exists (fs : node) (p : path) : bool :=
  match resolve fs p with
  | Here Dangling | Missing | Blocked => false
  | Here _ => true
  end.

(** [open(p, 'r', encoding='utf-8')] followed by reading the file. *)
Definition open_read (fs : node) (p : path) : result content :=
  match resolve fs p with
  | Here (File c) => ok c
  | Here (Dir _) => fail IsADirectoryError
  | Here Locked => fail PermissionError
  | Here Dangling | Missing => fail FileNotFoundError
  | Blocked => fail NotADirectoryError
  end.

(** [f.read()] *)
Definition read_text (fs : node) (p : path) : result string :=
  let? c := open_read fs p in
  match c with
  | Binary => fail UnicodeDecodeError
  | Utf8 text _ => ok text
  end.

(** [json.load(f)] *)
Definition json_load (fs : node) (p : path) : result json :=
  let? c := open_read fs p in
  match c with
  | Binary => fail UnicodeDecodeError
  | Utf8 _ None => fail JSONDecodeError
  | Utf8 _ (Some v) => ok v
  end.

Definition is_dir (n : node) : bool :=
  match n with
  | Dir _ => true
  | _ => false
  end.

(** [os.walk(top)], top down: the directory itself, then each of its
    subdirectories in listing order.  Every entry that is not a directory
    counts as a file. *)
Fixpoint os_walk (here : path) (n : node) : list (path * list string * list string) :=
  match n with
  | Dir entries =>
      (here,
       map fst (List.filter (fun e => is_dir (snd e)) entries),
       map fst (List.filter (fun e => negb (is_dir (snd e))) entries))
      :: flat_map (fun e => os_walk (here ++ [fst e]) (snd e)) entries
  | _ => []
  end.

Definition walk_from (fs : node) (top : path) : list (path * list string * list string) :=
  match resolve fs top with
  | Here n => os_walk top n
  | _ => []
  end.

(** [Path.name] and [Path.parent] *)
Definition name (p : path) : string := List.last p ""%string.
Definition parent (p : path) : path := removelast p.

(** [str(p)] for an absolute path. *)
Definition path_str (p : path) : string :=
  match p with
  | [] => "/"
  | _ => String.concat "" (map (fun c => "/" +:+ c) p)
  end.

(** Paths compare component by component, components character by
    character by code point, a proper prefix first. *)
Section Lexicographic.
Context {A : Type} (cmp : A -> A -> comparison).

Fixpoint lex_compare (l1 l2 : list A) : comparison :=
  match l1, l2 with
  | [], [] => Eq
  | [], _ :: _ => Lt
  | _ :: _, [] => Gt
  | x :: l1', y :: l2' =>
      match cmp x y with
      | Eq => lex_compare l1' l2'
      | c => c
      end
  end.
End Lexicographic.

Definition char_compare (a b : ascii) : comparison := N.compare (code a) (code b).
Definition str_compare (s t : string) : comparison :=
  lex_compare char_compare (str s) (str t).
Definition path_compare (p q : path) : comparison := lex_compare str_compare p q.

Definition path_le (p q : path) : Prop := path_compare p q <> Gt.

Global Instance path_le_dec p q : Decision (path_le p q).
Proof. unfold path_le. destruct (path_compare p q); [left | left | right]; congruence. Defined.

(** [sorted(paths)] *)
Definition sorted_paths (l : list path) : list path := merge_sort path_le l.

(** ** The aggregator's state

    [subscription_data] is a [defaultdict]: reading a key that is absent
    first stores the default record under it.  A dict keeps its keys in
    insertion order, and the loops of the script follow that order, so the
    mapping is a list of entries. *)

Inductive month := November | December.

Record period_data := {
  total : float;
  currency : string;
  file : option string
}.

Record subscription := {
  november : period_data;
  december : period_data;
  diff_file : option string
}.

Definition default_period : period_data :=
  {| total := 0; currency := "EUR"; file := None |}.

Definition default_subscription : subscription :=
  {| november := default_period; december := default_period; diff_file := None |}.

Definition mapping := list (string * subscription).

(** [d[sub_id]] on the defaultdict, as far as the keys go. *)
Definition touch (sub_id : string) (d : mapping) : mapping :=
  match assoc sub_id d with
  | Some _ => d
  | None => d ++ [(sub_id, default_subscription)]
  end.

Definition alter_entry (f : subscription -> subscription) (sub_id : string)
    (d : mapping) : mapping :=
  map (fun e => if String.eqb (fst e) sub_id then (fst e, f (snd e)) else e) d.

(** [d[sub_id][...] = ...]: fetch (or create) the record, then change it in
    place. *)
Definition update (f : subscription -> subscription) (sub_id : string)
    (d : mapping) : mapping :=
  alter_entry f sub_id (touch sub_id d).

Definition period (m : month) (r : subscription) : period_data :=
  match m with
  | November => november r
  | December => december r
  end.

Definition set_period (m : month) (f : period_data -> period_data)
    (r : subscription) : subscription :=
  match m with
  | November => {| november := f (november r); december := december r;
                   diff_file := diff_file r |}
  | December => {| november := november r; december := f (december r);
                   diff_file := diff_file r |}
  end.

Definition set_total (c : float) (p : period_data) : period_data :=
  {| total := c; currency := currency p; file := file p |}.

Definition set_file (f : string) (p : period_data) : period_data :=
  {| total := total p; currency := currency p; file := Some f |}.

Definition set_diff_file (f : string) (r : subscription) : subscription :=
  {| november := november r; december := december r; diff_file := Some f |}.

(** What [calculate_aggregates] returns. *)
Record aggregates := {
  total_november : float;
  total_december : float;
  total_change : float;
  percent_change : float;
  subscription_count : nat
}.

(** What the report shows, before it is laid out as text (the time stamp
    of the header is left out). *)
Record report := {
  rep_source_directory : path;
  rep_aggregates : aggregates;
  rep_breakdown : list (string * subscription);
  rep_increases : nat;
  rep_decreases : nat;
  rep_unchanged : nat;
  rep_average_november : float;
  rep_average_december : float
}.

(** The lines the script prints. *)
Inductive event :=
| Warning_could_not_parse (p : path) (e : exn)
| Found_files (n : nat)
| Skipping_no_subscription_id (file_name : string)
| Processing_subscription (sub_id : string)
| Diff_file_line (file_name : string)
| Cost_from_json (m : month) (file_name : string) (cost : float)
| Cost_from_diff (m : month) (cost : float)
| Blank_line
| Banner
| Error_directory_not_found (p : path)
| Scanning_directory (p : path)
| Warning_no_subscription_data
| Report_generated (output : string) (a : aggregates).

Record state := {
  subscription_data : mapping;
  stdout : list event;
  written : list (string * report)
}.

Definition initial_state : state :=
  {| subscription_data := []; stdout := []; written := [] |}.

(** A method either returns a value or raises, and leaves a state behind in
    both cases. *)
Inductive outcome (A : Type) :=
| Returned (a : A) (st : state)
| Raised (e : exn) (st : state).
Arguments Returned {A} a st.
Arguments Raised {A} e st.

Definition M (A : Type) : Type := state -> outcome A.

Definition ret {A} (a : A) : M A := fun st => Returned a st.

Definition bind {A B} (c : M A) (k : A -> M B) : M B :=
  fun st =>
    match c st with
    | Returned a st' => k a st'
    | Raised e st' => Raised e st'
    end.

Notation "'let*' x ':=' c 'in' k" := (bind c (fun x => k))
  (at level 10, x name, c at level 100, k at level 200, only parsing).
Notation "c '>>' k" := (bind c (fun _ => k))
  (at level 90, right associativity, only parsing).

Definition lift {A} (c : result A) : M A :=
  fun st =>
    match c with
    | inr a => Returned a st
    | inl e => Raised e st
    end.

(** [try: body  except classes as e: handler e] *)
Definition try_except {A} (body : M A) (classes : list exn) (handler : exn -> M A) : M A :=
  fun st =>
    match body st with
    | Returned a st' => Returned a st'
    | Raised e st' => if caught_by classes e then handler e st' else Raised e st'
    end.

Definition log (e : event) (st : state) : state :=
  {| subscription_data := subscription_data st;
     stdout := stdout st ++ [e];
     written := written st |}.

Definition with_data (f : mapping -> mapping) (st : state) : state :=
  {| subscription_data := f (subscription_data st);
     stdout := stdout st;
     written := written st |}.

Definition with_file (output : string) (r : report) (st : state) : state :=
  {| subscription_data := subscription_data st;
     stdout := stdout st;
     written := written st ++ [(output, r)] |}.

Definition print (e : event) : M unit := fun st => Returned tt (log e st).

Definition modify_data (f : mapping -> mapping) : M unit :=
  fun st => Returned tt (with_data f st).

Definition get_data : M mapping := fun st => Returned (subscription_data st) st.

Definition write_file (output : string) (r : report) : M unit :=
  fun st => Returned tt (with_file output r st).

(** [for x in l: body x] *)
Fixpoint for_each {A} (l : list A) (body : A -> M unit) : M unit :=
  match l with
  | [] => ret tt
  | x :: rest => body x >> for_each rest body
  end.

(** ** The methods of [AzureCostAggregator]

    [fs] is the file system the run sees and [base_dir] the aggregator's
    [self.base_dir]. *)

Definition diff_marker : chars := str "diff".

(** [find_diff_files] *)
Definition find_diff_files (fs : node) (base_dir : path) : list path :=
  sorted_paths
    (flat_map
       (fun w =>
          let '(root, _, files) := w in
          map (fun file => root ++ [file])
              (List.filter (fun file => contains diff_marker (lower (str file))) files))
       (walk_from fs base_dir)).

(** [extract_subscription_id] *)
Definition extract_subscription_id (filename : string) : option string :=
  match search uuid_pattern (lower (str filename)) with
  | Some (g1 :: _) => Some (of_chars g1)
  | _ => None
  end.

(** The body of the [with] block of [parse_json_cost_file]: [Some] is the
    [return float(...)], [None] is falling out of the [if]. *)
Definition read_total (data : json) : result (option float) :=
  let? has_totals := py_in "totals" data in
  if has_totals then
    let? totals := py_getitem data "totals" in
    let? has_cost := py_in "totalCostInTimeframe" totals in
    if has_cost then
      let? totals' := py_getitem data "totals" in
      let? cost := py_getitem totals' "totalCostInTimeframe" in
      let? f := py_float cost in
      ok (Some f)
    else ok None
  else ok None.

(** The [try] block of [parse_json_cost_file]. *)
Definition json_cost (fs : node) (json_path : path) : result (option float) :=
  let? data := json_load fs json_path in
  read_total data.

(** [parse_json_cost_file] *)
Definition parse_json_cost_file (fs : node) (json_path : path) : M (option float) :=
  try_except
    (lift (json_cost fs json_path))
    [JSONDecodeError; FileNotFoundError; KeyError]
    (fun e => print (Warning_could_not_parse json_path e) >> ret None).

(** [float(match.group(i).replace(',', ''))] *)
Definition figure_value (g : chars) : result float :=
  match float_of_str (remove_commas g) with
  | Some f => ok f
  | None => fail ValueError
  end.

(** What [parse_diff_text_file] does with the content it has read. *)
Definition read_totals (content : string) : result (option float * option float) :=
  match search total_costs_pattern (str content) with
  | Some (g1 :: g2 :: _) =>
      let? source_cost := figure_value g1 in
      let? target_cost := figure_value g2 in
      ok (Some source_cost, Some target_cost)
  | _ => ok (None, None)
  end.

(** The [try] block of [parse_diff_text_file]. *)
Definition diff_costs (fs : node) (diff_path : path)
    : result (option float * option float) :=
  let? content := read_text fs diff_path in
  read_totals content.

(** [parse_diff_text_file] *)
Definition parse_diff_text_file (fs : node) (diff_path : path)
    : M (option float * option float) :=
  try_except
    (lift (diff_costs fs diff_path))
    [FileNotFoundError; ValueError]
    (fun e => print (Warning_could_not_parse diff_path e) >> ret (None, None)).

Definition json_name (prefix sub_id : string) : string :=
  prefix +:+ "-" +:+ sub_id +:+ ".json".

Definition nov_prefixes : list string := ["november"; "nov"; "september"; "sept"].
Definition dec_prefixes : list string := ["december"; "dec"; "october"; "oct"].

Definition prefixes (m : month) : list string :=
  match m with
  | November => nov_prefixes
  | December => dec_prefixes
  end.

(** [next((p for p in patterns if p.exists()), None)] for one month. *)
Definition find_related_json_file (fs : node) (m : month) (diff_file : path)
    (sub_id : string) : option path :=
  List.find (path_exists fs)
            (map (fun prefix => parent diff_file ++ [json_name prefix sub_id]) (prefixes m)).

(** [find_related_json_files] *)
Definition find_related_json_files (fs : node) (diff_file : path) (sub_id : string)
    : option path * option path :=
  (find_related_json_file fs November diff_file sub_id,
   find_related_json_file fs December diff_file sub_id).

(** One of the two [if nov_file: ... elif source_cost is not None: ...]
    blocks of the loop body; they differ in the month only. *)
Definition record_period (fs : node) (m : month) (sub_id : string)
    (json_file : option path) (fallback : option float) : M unit :=
  match json_file with
  | Some f =>
      let* cost := parse_json_cost_file fs f in
      match cost with
      | Some c =>
          modify_data (update (set_period m (set_total c)) sub_id) >>
          modify_data (update (set_period m (set_file (path_str f))) sub_id) >>
          print (Cost_from_json m (name f) c)
      | None => ret tt
      end
  | None =>
      match fallback with
      | Some c =>
          modify_data (update (set_period m (set_total c)) sub_id) >>
          print (Cost_from_diff m c)
      | None => ret tt
      end
  end.

(** The body of the loop of [process_all_files]. *)
Definition process_file (fs : node) (diff_file : path) : M unit :=
  match extract_subscription_id (name diff_file) with
  | None => print (Skipping_no_subscription_id (name diff_file))
  | Some sub_id =>
      print (Processing_subscription sub_id) >>
      print (Diff_file_line (name diff_file)) >>
      modify_data (update (set_diff_file (path_str diff_file)) sub_id) >>
      let* costs := parse_diff_text_file fs diff_file in
      let related := find_related_json_files fs diff_file sub_id in
      record_period fs November sub_id (fst related) (fst costs) >>
      record_period fs December sub_id (snd related) (snd costs) >>
      print Blank_line
  end.

(** [process_all_files] *)
Definition process_all_files (fs : node) (base_dir : path) : M unit :=
  let diff_files := find_diff_files fs base_dir in
  print (Found_files (length diff_files)) >>
  for_each diff_files (process_file fs).

(** The loop of [calculate_aggregates]: both running totals at once. *)
Definition add_totals (acc : float * float) (e : string * subscription) : float * float :=
  (fst acc + total (november (snd e)), snd acc + total (december (snd e)))%float.

(** [calculate_aggregates] *)
Definition calculate_aggregates (d : mapping) : aggregates :=
  let totals := fold_left add_totals d (0%float, 0%float) in
  let total_nov := fst totals in
  let total_dec := snd totals in
  let change := (total_dec - total_nov)%float in
  let percent := if negb (total_nov =? 0)%float
                 then (change / total_nov * 100)%float
                 else 0%float in
  {| total_november := total_nov;
     total_december := total_dec;
     total_change := change;
     percent_change := percent;
     subscription_count := length d |}.

(** [x / n] for a float [x] and the length [n] of a dict.  The length is
    below [2 ^ 63], so its conversion to a float cannot overflow, and the
    result of the conversion is zero for [n = 0] only. *)
Definition div_by_count (x : float) (n : nat) : result float :=
  match n with
  | O => fail ZeroDivisionError
  | S _ => ok (x / round_ratio false (Z.of_nat n) 1)%float
  end.

(** [sorted(items, key=december total, reverse=True)]: a stable sort, the
    larger key first.  (With a NaN among the keys Python fixes no order.) *)
Fixpoint insert_by_december (x : string * subscription) (l : mapping) : mapping :=
  match l with
  | [] => [x]
  | y :: l' =>
      if (total (december (snd x)) <? total (december (snd y)))%float
      then y :: insert_by_december x l'
      else x :: l
  end.

Definition sorted_by_december (d : mapping) : mapping :=
  foldr insert_by_december [] d.

Definition count_where (p : subscription -> bool) (d : mapping) : nat :=
  length (List.filter (fun e => p (snd e)) d).

(** [generate_report] *)
Definition generate_report (base_dir : path) (output_file : string) : M string :=
  let* d := get_data in
  let aggregates := calculate_aggregates d in
  let sorted_subs := sorted_by_december d in
  let increases :=
    count_where (fun r => total (november r) <? total (december r))%float d in
  let decreases :=
    count_where (fun r => total (december r) <? total (november r))%float d in
  let unchanged :=
    count_where (fun r => total (december r) =? total (november r))%float d in
  let* avg_nov := lift (div_by_count (total_november aggregates)
                                     (subscription_count aggregates)) in
  let* avg_dec := lift (div_by_count (total_december aggregates)
                                     (subscription_count aggregates)) in
  write_file output_file
    {| rep_source_directory := base_dir;
       rep_aggregates := aggregates;
       rep_breakdown := sorted_subs;
       rep_increases := increases;
       rep_decreases := decreases;
       rep_unchanged := unchanged;
       rep_average_november := avg_nov;
       rep_average_december := avg_dec |} >>
  print (Report_generated output_file aggregates) >>
  ret output_file.

(** ** [main]

    [home] is what ["~"] expands to. *)

Definition finops_dir (home : path) : path := home ++ ["Downloads"; "finops"]%string.

Definition report_name : string := "total_amortized_costs_summary.txt".

Definition main (fs : node) (home : path) : M Z :=
  print Banner >>
  let base_dir := finops_dir home in
  if negb (path_exists fs base_dir) then
    print (Error_directory_not_found base_dir) >>
    ret 1
  else
    print (Scanning_directory base_dir) >>
    process_all_files fs base_dir >>
    let* d := get_data in
    match d with
    | [] =>
        print Warning_no_subscription_data >>
        ret 1
    | _ :: _ =>
        generate_report base_dir report_name >>
        ret 0
    end.

(** [exit(main())]: the exit status of the process and the state it leaves.
    An exception that nothing catches ends the process with status 1. *)
Definition run (fs : node) (home : path) : Z * state :=
  match main fs home initial_state with
  | Returned status st => (status, st)
  | Raised _ st => (1, st)
  end.

(** ** Vocabulary of the statements *)

(** Every character of [u] is in the class [p]. *)
Definition all (p : ascii -> bool) (u : chars) : Prop :=
  Forall (fun c => p c = true) u.

(** The block [u] stands in [s] at offset [i]. *)
Definition occurs_at (u s : chars) (i : nat) : Prop :=
  exists pre post, s = pre ++ u ++ post /\ length pre = i.

(** The texts an atom, a group body and a pattern match; for a pattern,
    together with the texts of its groups. *)
Definition atom_lang (a : atom) (u : chars) : Prop :=
  match a with
  | Lit t => u = t
  | Many p => all p u
  | Many1 p => u <> [] /\ all p u
  | Exactly n p => length u = n /\ all p u
  end.

Fixpoint atoms_lang (l : list atom) (u : chars) : Prop :=
  match l with
  | [] => u = []
  | a :: rest => exists u1 u2, u = u1 ++ u2 /\ atom_lang a u1 /\ atoms_lang rest u2
  end.

Fixpoint seq_lang (r : regex) (u : chars) (caps : list chars) : Prop :=
  match r with
  | [] => u = [] /\ caps = []
  | Plain a :: rest =>
      exists u1 u2, u = u1 ++ u2 /\ atom_lang a u1 /\ seq_lang rest u2 caps
  | Group body :: rest =>
      exists u1 u2 caps', u = u1 ++ u2 /\ atoms_lang body u1 /\
                          seq_lang rest u2 caps' /\ caps = u1 :: caps'
  end.

(** The sum of a list of floats, added from left to right starting from
    [0.0]. *)
Definition float_sum (l : list float) : float := fold_left PrimFloat.add l 0%float.

Definition november_totals (d : mapping) : list float :=
  map (fun e => total (november (snd e))) d.
Definition december_totals (d : mapping) : list float :=
  map (fun e => total (december (snd e))) d.

(** The record stored under [sub_id], or the default one a first access
    would create. *)
Definition entry (sub_id : string) (d : mapping) : subscription :=
  default default_subscription (assoc sub_id d).

(** The value [parse_json_cost_file] returns for [f] when it returns one
    that is not [None]. *)
Definition returned_cost (fs : node) (f : path) : option float :=
  match json_cost fs f with
  | inr (Some c) => Some c
  | _ => None
  end.

(** The pair [parse_diff_text_file] returns for [d] when it returns. *)
Definition returned_costs (fs : node) (d : path) : option float * option float :=
  match diff_costs fs d with
  | inr costs => costs
  | inl _ => (None, None)
  end.

Definition month_cost (m : month) (costs : option float * option float) : option float :=
  match m with
  | November => fst costs
  | December => snd costs
  end.

(** What one pass of the loop body does to the record of its subscription,
    when the pass completes: first the path of the comparison document,
    then November, then December. *)
Definition period_step (fs : node) (m : month) (d : path) (sub_id : string)
    (fallback : option float) (r : subscription) : subscription :=
  match find_related_json_file fs m d sub_id with
  | Some f =>
      match returned_cost fs f with
      | Some c => set_period m (set_file (path_str f)) (set_period m (set_total c) r)
      | None => r
      end
  | None =>
      match fallback with
      | Some c => set_period m (set_total c) r
      | None => r
      end
  end.

Definition record_step (fs : node) (d : path) (sub_id : string)
    (r : subscription) : subscription :=
  let costs := returned_costs fs d in
  period_step fs December d sub_id (snd costs)
    (period_step fs November d sub_id (fst costs)
       (set_diff_file (path_str d) r)).

(** The record of [sub_id] after the documents [l] were processed in
    order, starting from [start]. *)
Definition record_after (fs : node) (sub_id : string) (l : list path)
    (start : option subscription) : option subscription :=
  fold_left
    (fun acc d =>
       if bool_decide (extract_subscription_id (name d) = Some sub_id)
       then Some (record_step fs d sub_id (default default_subscription acc))
       else acc)
    l start.

Definition period_data_step (fs : node) (m : month) (d : path) (sub_id : string)
    (fallback : option float) (p : period_data) : period_data :=
  match find_related_json_file fs m d sub_id with
  | Some f =>
      match returned_cost fs f with
      | Some c => set_file (path_str f) (set_total c p)
      | None => p
      end
  | None =>
      match fallback with
      | Some c => set_total c p
      | None => p
      end
  end.

(** The structured document [f] yields the usable total [c]. *)
Definition usable_total (fs : node) (f : path) (c : float) : Prop :=
  exists st st', parse_json_cost_file fs f st = Returned (Some c) st'.

(** The extraction from the structured document [f] is unavailable. *)
Definition unavailable_total (fs : node) (f : path) : Prop :=
  exists st st', parse_json_cost_file fs f st = Returned None st'.

(** The fallback pair of the comparison document [d] has the usable value
    [c] for the month [m]. *)
Definition usable_fallback (fs : node) (d : path) (m : month) (c : float) : Prop :=
  exists st st' costs,
    parse_diff_text_file fs d st = Returned costs st' /\ month_cost m costs = Some c.

(** [d] is a discovered comparison document of the subscription [sub_id],
    and the last one: [l1] are the documents before it, [l2] after it. *)
Definition last_document_of (fs : node) (base : path) (sub_id : string)
    (l1 : list path) (d : path) (l2 : list path) : Prop :=
  find_diff_files fs base = l1 ++ d :: l2
  /\ extract_subscription_id (name d) = Some sub_id
  /\ forall d', In d' l2 -> extract_subscription_id (name d') <> Some sub_id.

(** The record of [sub_id] just before the last of its documents is
    processed, in a run that starts in [st]. *)
Definition record_before (fs : node) (sub_id : string) (l1 : list path)
    (st : state) : subscription :=
  default default_subscription
    (record_after fs sub_id l1 (assoc sub_id (subscription_data st))).

(** The fallback law the way the specification words it: whenever the
    sibling document gives no usable total, because there is none or because
    its extraction is unavailable, a usable fallback value is what gets
    recorded. *)
Definition fallback_law_as_stated : Prop :=
  forall fs base st st' sub_id l1 d l2 m c,
    last_document_of fs base sub_id l1 d l2 ->
    (find_related_json_file fs m d sub_id = None
     \/ exists f, find_related_json_file fs m d sub_id = Some f
                  /\ unavailable_total fs f) ->
    usable_fallback fs d m c ->
    process_all_files fs base st = Returned tt st' ->
    exists r, assoc sub_id (subscription_data st') = Some r
              /\ total (period m r) = c.

(** ** Scenarios

    The directory of section 8 of the specification: one comparison
    document whose table has the row [1,000.00 EUR | 800.00 EUR], alone, or
    next to a November export of 950.5, or next to a November export
    without the [totals] field, or next to one whose total is [null]. *)

Definition scenario_id : string := "1111aaaa-2222-bbbb-3333-ccccdddd4444".

Definition scenario_diff_name : string :=
  "nov-vs-dec-1111aaaa-2222-bbbb-3333-ccccdddd4444-diff.txt".

Definition scenario_november_name : string :=
  "november-1111aaaa-2222-bbbb-3333-ccccdddd4444.json".

Definition scenario_home : path := ["home"; "ops"]%string.

Definition scenario_base : path := finops_dir scenario_home.

Definition scenario_diff : path := scenario_base ++ [scenario_diff_name].

Definition scenario_november : path := scenario_base ++ [scenario_november_name].

Definition scenario_table : content :=
  Utf8 "| TOTAL COSTS | 1,000.00 EUR | 800.00 EUR |" None.

Definition under_home (entries : list (string * node)) : node :=
  Dir [("home", Dir [("ops", Dir [("Downloads", Dir [("finops", Dir entries)])])])]%string.

Definition fs_fallback_only : node :=
  under_home [(scenario_diff_name, File scenario_table)].

(** The text of an export with the given total, and the same in quotes. *)
Definition quoted (s : string) : string :=
  String (ascii_of_nat 34) s +:+ String (ascii_of_nat 34) "".

Definition export_text (cost : string) : string :=
  "{" +:+ quoted "totals" +:+ ": {" +:+ quoted "totalCostInTimeframe" +:+ ": "
      +:+ cost +:+ "}}".

Definition export_950 : json :=
  JDict [("totals", JDict [("totalCostInTimeframe", JFloat 950.5)])]%string.

Definition fs_with_november : node :=
  under_home [(scenario_diff_name, File scenario_table);
              (scenario_november_name,
               File (Utf8 (export_text "950.5") (Some export_950)))].

Definition fs_november_without_totals : node :=
  under_home [(scenario_diff_name, File scenario_table);
              (scenario_november_name, File (Utf8 "{}" (Some (JDict []))))].

Definition export_null : json :=
  JDict [("totals", JDict [("totalCostInTimeframe", JNull)])]%string.

Definition fs_november_null : node :=
  under_home [(scenario_diff_name, File scenario_table);
              (scenario_november_name,
               File (Utf8 (export_text "null") (Some export_null)))].

Definition fs_garbled : node :=
  under_home [(scenario_diff_name, File (Utf8 "no table here" None))].

Definition fs_without_identifier : node :=
  under_home [("costs-diff.txt"%string, File scenario_table)].

Definition fs_empty : node := Dir [].

(** The state a computation leaves behind. *)
Definition final_state {A} (o : outcome A) : state :=
  match o with
  | Returned _ st => st
  | Raised _ st => st
  end.

(** The state at the end of a scan of the scenario directory. *)
Definition scanned (fs : node) : state :=
  final_state (process_all_files fs scenario_base initial_state).

(** Nothing gets recorded for the month [m] of [sub_id] from the document
    [d]: its sibling, if there is one, yields no usable total, and without a
    sibling its fallback pair has no usable value for [m]. *)
Definition nothing_recorded (fs : node) (sub_id : string) (m : month) (d : path) : Prop :=
  (forall f c, find_related_json_file fs m d sub_id = Some f -> ~ usable_total fs f c)
  /\ (find_related_json_file fs m d sub_id = None ->
      forall c, ~ usable_fallback fs d m c).

Definition fs_totals_not_a_mapping : node :=
  under_home [(scenario_diff_name, File scenario_table);
              (scenario_november_name,
               File (Utf8 ("{" +:+ quoted "totals" +:+ ": 5}")
                          (Some (JDict [("totals"%string, JInt 5)]))))].

Definition fs_total_not_a_number : node :=
  under_home [(scenario_diff_name, File scenario_table);
              (scenario_november_name,
               File (Utf8 (export_text (quoted "N/A"))
                          (Some (JDict [("totals"%string,
                                         JDict [("totalCostInTimeframe"%string,
                                                 JStr "N/A")])]))))].

Definition fs_november_locked : node :=
  under_home [(scenario_diff_name, File scenario_table);
              (scenario_november_name, Locked)].

(** A computation that writes no file, whether it returns or raises. *)
Definition keeps_written {A} (c : M A) : Prop :=
  forall st, written (final_state (c st)) = written st.

(** The contents of the comparison document [d] give no figure at all. *)
Definition unparseable (fs : node) (d : path) : Prop :=
  exists st st', parse_diff_text_file fs d st = Returned (None, None) st'.

(** No structured document stands next to [d] for either month. *)
Definition without_siblings (fs : node) (d : path) (sub_id : string) : Prop :=
  find_related_json_files fs d sub_id = (None, None).

(** Following the names [rel] down from the node [n] leads to the node
    [target]; every node passed on the way is a directory. *)
Inductive reaches : node -> path -> node -> Prop :=
| reaches_here n : reaches n [] n
| reaches_step entries nm child rest target :
    In (nm, child) entries ->
    reaches child rest target ->
    reaches (Dir entries) (nm :: rest) target.

(** [p] is the path of a file somewhere below the directory [base]: an
    entry that is not a directory, at any depth. *)
Definition file_below (fs : node) (base p : path) : Prop :=
  exists top rel nm target,
    resolve fs base = Here top
    /\ reaches top (rel ++ [nm]) target
    /\ is_dir target = false
    /\ p = base ++ rel ++ [nm].

(** The file name carries the marker [diff], in any letter case. *)
Definition has_marker (file_name : string) : bool :=
  contains diff_marker (lower (str file_name)).

(** In a well-formed tree no directory lists a name twice. *)
#[warnings="-register-all"]
Inductive well_formed : node -> Prop :=
| wf_dir entries :
    NoDup (map fst entries) ->
    Forall (fun e => well_formed (snd e)) entries ->
    well_formed (Dir entries)
| wf_file c : well_formed (File c)
| wf_locked : well_formed Locked
| wf_dangling : well_formed Dangling.

(** The marked files the walk from [n] collects, in walk order. *)
Definition collect (here : path) (n : node) : list path :=
  flat_map
    (fun w =>
       let '(root, _, files) := w in
       map (fun file => root ++ [file])
           (List.filter (fun file => contains diff_marker (lower (str file))) files))
    (os_walk here n).

(** Two comparison documents and a note, listed in two different orders. *)
Definition other_diff_name : string :=
  "aug-vs-sep-9999ffff-0000-eeee-1111-aaaabbbb2222-DIFF.md".

Definition listing : list (string * node) :=
  [(scenario_diff_name, File scenario_table);
   ("notes.txt"%string, File (Utf8 "nothing to compare" None));
   (other_diff_name, File (Utf8 "no table here" None))].

Definition fs_listed : node := under_home listing.
Definition fs_listed_backwards : node := under_home (rev listing).

(** A hexadecimal digit in either letter case. *)
Definition is_hex_any_case (c : ascii) : bool :=
  in_range 48 57 c || in_range 97 102 c || in_range 65 70 c.

Definition hex_block (n : nat) (u : chars) : Prop :=
  length u = n /\ all is_hex_any_case u.

Definition hyphen : chars := str "-".

(** The UUID shape: 32 hexadecimal digits in groups of 8, 4, 4, 4 and 12
    with hyphens between the groups. *)
Definition uuid_shaped (u : chars) : Prop :=
  exists a b c d e,
    u = a ++ hyphen ++ b ++ hyphen ++ c ++ hyphen ++ d ++ hyphen ++ e
    /\ hex_block 8 a /\ hex_block 4 b /\ hex_block 4 c /\ hex_block 4 d
    /\ hex_block 12 e.

(** The file name contains a block that reads [diff] once lower-cased. *)
Definition carries_marker (file_name : string) : Prop :=
  exists pre u post, str file_name = pre ++ u ++ post /\ lower u = diff_marker.

(** A monetary figure: digits and commas, a point, and decimals.  The
    pattern of the script takes one or more decimals; the specification
    speaks of two. *)
Definition some_decimals (e : chars) : Prop := e <> [] /\ all is_digit e.
Definition two_decimals (e : chars) : Prop := length e = 2%nat /\ all is_digit e.

Definition figure (decimals : chars -> Prop) (g : chars) : Prop :=
  exists d e,
    g = d ++ str "." ++ e /\ d <> [] /\ all is_digit_or_comma d /\ decimals e.

(** A table row labelled [TOTAL COSTS] with the two figures [f1] and [f2],
    each followed by [EUR], whitespace being free around the cells. *)
Definition total_costs_row (decimals : chars -> Prop) (u f1 f2 : chars) : Prop :=
  exists w1 w2 w3 w4 w5 w6 w7,
    u = str "|" ++ w1 ++ str "TOTAL COSTS" ++ w2 ++ str "|" ++ w3
        ++ f1 ++ w4 ++ str "EUR" ++ w5 ++ str "|" ++ w6
        ++ f2 ++ w7 ++ str "EUR"
    /\ figure decimals f1 /\ figure decimals f2
    /\ all is_space w1 /\ all is_space w2 /\ all is_space w3 /\ all is_space w4
    /\ all is_space w5 /\ all is_space w6 /\ all is_space w7.

(** The pattern of the script with the decimals as a parameter. *)
Definition row_pattern (decimals : atom) : regex :=
  let fig := Group [Many1 is_digit_or_comma; Lit (str "."); decimals] in
  [Plain (Lit (str "|")); Plain (Many is_space); Plain (Lit (str "TOTAL COSTS"));
   Plain (Many is_space); Plain (Lit (str "|")); Plain (Many is_space);
   fig;
   Plain (Many is_space); Plain (Lit (str "EUR")); Plain (Many is_space);
   Plain (Lit (str "|")); Plain (Many is_space);
   fig;
   Plain (Many is_space); Plain (Lit (str "EUR"))].

(** The first-row law the way the specification words it, with figures of
    two decimals: the pair returned is that of the first such row. *)
Definition first_row_law_as_stated : Prop :=
  forall fs p st content i u f1 f2,
    read_text fs p = ok content ->
    occurs_at u (str content) i ->
    total_costs_row two_decimals u f1 f2 ->
    (forall j v g1 g2, occurs_at v (str content) j ->
                       total_costs_row two_decimals v g1 g2 -> (i <= j)%nat) ->
    exists a b,
      float_of_str (remove_commas f1) = Some a
      /\ float_of_str (remove_commas f2) = Some b
      /\ parse_diff_text_file fs p st = Returned (Some a, Some b) st.

(** A comparison document whose first [TOTAL COSTS] row has figures of one
    decimal and whose second row has figures of two. *)
Definition one_decimal_row : string := "| TOTAL COSTS | 1.5 EUR | 2.5 EUR |".
Definition two_decimal_row : string := "| TOTAL COSTS | 1,000.00 EUR | 800.00 EUR |".
Definition newline : string := String (ascii_of_nat 10) "".

Definition two_rows : string := one_decimal_row +:+ newline +:+ two_decimal_row.

Definition fs_two_rows : node :=
  under_home [(scenario_diff_name, File (Utf8 two_rows None))].

(** No match of the pattern [r] starts at any of the first [n] offsets of
    [s]. *)
Definition no_match_before (r : regex) (s : chars) (n : nat) : bool :=
  forallb (fun j => bool_decide (match_here r (drop j s) = None)) (seq 0 n).

(** The text [r] does not begin with a character of the class [p]. *)
Definition stops (p : ascii -> bool) (r : chars) : Prop :=
  match r with
  | [] => True
  | c :: _ => p c = false
  end.

(** A digit or the decimal point. *)
Definition is_numeral_char (c : ascii) : bool := is_digit c || Ascii.eqb c ".".

(** The row of the scenario table, up to its second [EUR]. *)
Definition scenario_row : chars := str "| TOTAL COSTS | 1,000.00 EUR | 800.00 EUR".

(** ** Further vocabulary *)

(** The candidate paths of a month, in the order in which
    [find_related_json_files] probes them. *)
Definition candidate (d : path) (sub_id prefix : string) : path :=
  parent d ++ [json_name prefix sub_id].

(** The file called [prefix-sub_id.json] in the directory of the document
    [d]. *)
Definition sibling_named (d : path) (prefix sub_id : string) : path :=
  parent d ++ [prefix +:+ "-" +:+ sub_id +:+ ".json"].

(** [r] is the first existing one among the files that the prefixes
    [names] give next to [d], in the order of [names]; it is [None] when
    none of them exists. *)
Definition first_existing (fs : node) (d : path) (sub_id : string)
    (names : list string) (r : option path) : Prop :=
  match r with
  | Some f =>
      exists before prefix after,
        names = before ++ prefix :: after
        /\ f = sibling_named d prefix sub_id
        /\ path_exists fs f = true
        /\ forall q, In q before -> path_exists fs (sibling_named d q sub_id) = false
  | None =>
      forall q, In q names -> path_exists fs (sibling_named d q sub_id) = false
  end.

(** The identifiers in the order in which they are first seen. *)
Definition add_key (keys : list string) (sub_id : string) : list string :=
  if existsb (String.eqb sub_id) keys then keys else keys ++ [sub_id].

Definition first_seen (keys : list string) (ids : list string) : list string :=
  fold_left add_key ids keys.

(** The identifiers of a list of documents, one per document that has
    one. *)
Definition identifiers (l : list path) : list string :=
  omap (fun d => extract_subscription_id (name d)) l.

Definition keys (st : state) : list string := map fst (subscription_data st).

(** The three comparisons [generate_report] counts. *)
Definition increased (r : subscription) : bool :=
  (total (november r) <? total (december r))%float.
Definition decreased (r : subscription) : bool :=
  (total (december r) <? total (november r))%float.
Definition unchanged (r : subscription) : bool :=
  (total (december r) =? total (november r))%float.

(** One of the two totals of the record is a NaN. *)
Definition incomparable (r : subscription) : bool :=
  is_nan (total (november r)) || is_nan (total (december r)).

(** The key by which [generate_report] sorts the breakdown. *)
Definition december_total (e : string * subscription) : float :=
  total (december (snd e)).

(** [a] may stand before [b] in the breakdown: its December total is not
    the smaller one. *)
Definition not_below (a b : string * subscription) : Prop :=
  (december_total a <? december_total b)%float = false.

(** The entries whose December total equals [v]. *)
Definition with_december_total (v : float) (d : mapping) : mapping :=
  List.filter (fun e => (december_total e =? v)%float) d.

(** Two directories hold a comparison document of the same subscription;
    only the first one has a November export next to it. *)
Definition fs_two_directories : node :=
  under_home
    [("a"%string, Dir [(scenario_diff_name, File scenario_table);
                       (scenario_november_name,
                        File (Utf8 (export_text "950.5") (Some export_950)))]);
     ("b"%string, Dir [(scenario_diff_name, File scenario_table)])].

Definition first_directory_diff : path := scenario_base ++ ["a"%string; scenario_diff_name].
Definition second_directory_diff : path := scenario_base ++ ["b"%string; scenario_diff_name].

(** The precedence law the way the specification words it, for every
    discovered document of a subscription: whenever the sibling document of
    a period yields a usable total and the fallback pair has a usable value
    too, the record ends up with the total and the path of the sibling
    document. *)
Definition precedence_law_as_stated : Prop :=
  forall fs base st st' sub_id d m f c c',
    In d (find_diff_files fs base) ->
    extract_subscription_id (name d) = Some sub_id ->
    find_related_json_file fs m d sub_id = Some f ->
    usable_total fs f c ->
    usable_fallback fs d m c' ->
    process_all_files fs base st = Returned tt st' ->
    exists r, assoc sub_id (subscription_data st') = Some r
              /\ total (period m r) = c
              /\ file (period m r) = Some (path_str f).

(** An export whose total is a string with the separators 28 and 31
    around the numeral, and one with blanks around it. *)
Definition separated_numeral : string :=
  String (ascii_of_nat 28) ("7.25" +:+ String (ascii_of_nat 31) "").

Definition fs_total_with_separators : node :=
  under_home [(scenario_diff_name, File scenario_table);
              (scenario_november_name,
               File (Utf8 (export_text (quoted "\u001c7.25\u001f"))
                          (Some (JDict [("totals"%string,
                                         JDict [("totalCostInTimeframe"%string,
                                                 JStr separated_numeral)])]))))].

Definition fs_total_with_blanks : node :=
  under_home [(scenario_diff_name, File scenario_table);
              (scenario_november_name,
               File (Utf8 (export_text (quoted " 7.25 "))
                          (Some (JDict [("totals"%string,
                                         JDict [("totalCostInTimeframe"%string,
                                                 JStr " 7.25 ")])]))))].

(** An export whose total is the JSON literal [NaN]. *)
Definition fs_november_nan : node :=
  under_home [(scenario_diff_name, File scenario_table);
              (scenario_november_name,
               File (Utf8 (export_text "NaN")
                          (Some (JDict [("totals"%string,
                                         JDict [("totalCostInTimeframe"%string,
                                                 JFloat nan)])]))))].

(** The comparison documents of two subscriptions in one directory; the
    one listed first has the smaller December total. *)
Definition second_id : string := "5555eeee-6666-ffff-7777-000011112222".

Definition second_diff_name : string :=
  "nov-vs-dec-5555eeee-6666-ffff-7777-000011112222-diff.txt".

Definition second_table : content :=
  Utf8 "| TOTAL COSTS | 700.00 EUR | 900.00 EUR |" None.

Definition fs_two_subscriptions : node :=
  under_home [(scenario_diff_name, File scenario_table);
              (second_diff_name, File second_table)].

(** The same two documents with equal December totals. *)
Definition fs_equal_totals : node :=
  under_home [(scenario_diff_name, File scenario_table);
              (second_diff_name,
               File (Utf8 "| TOTAL COSTS | 700.00 EUR | 800.00 EUR |" None))].



(** * Properties *)

(** ** The aggregator ([calculate_aggregates]) *)

Lemma fold_add_totals (d : mapping) (a b : float) :
  fold_left add_totals d (a, b)
  = (fold_left PrimFloat.add (november_totals d) a,
     fold_left PrimFloat.add (december_totals d) b).
Proof.
  revert a b. induction d as [|e d IH]; intros a b; [reflexivity|].
  cbn [fold_left november_totals december_totals map].
  unfold add_totals at 2. cbn [fst snd]. apply IH.
Qed.

(** C4.  [calculate_aggregates] returns the sum of the November totals, the
    sum of the December totals (both added in the order of the mapping),
    their difference, the percentage [change / total_nov * 100], which is
    [0.0] when the November sum compares equal to zero, and the number of
    records.  It is a function of the mapping alone. *)
Theorem calculate_aggregates_spec (d : mapping) :
  let a := calculate_aggregates d in
  total_november a = float_sum (november_totals d)
  /\ total_december a = float_sum (december_totals d)
  /\ total_change a = (total_december a - total_november a)%float
  /\ percent_change a
     = (if (total_november a =? 0)%float then 0%float
        else (total_change a / total_november a * 100)%float)
  /\ subscription_count a = length d.
Proof.
  unfold calculate_aggregates, float_sum. rewrite fold_add_totals.
  cbn [fst snd total_november total_december total_change percent_change
       subscription_count].
  repeat split.
  destruct (fold_left PrimFloat.add (november_totals d) 0 =? 0)%float; reflexivity.
Qed.

(** The first scenario of the specification: 1000.00 against 800.00 gives a
    change of -200.00, that is -20 percent. *)
Example aggregates_of_fallback_only :
  calculate_aggregates (subscription_data (scanned fs_fallback_only))
  = {| total_november := 1000; total_december := 800; total_change := -200;
       percent_change := -20; subscription_count := 1 |}.
Proof. vm_compute. reflexivity. Qed.

(** The second scenario: the November export of 950.5 takes the place of
    the figure of the comparison document. *)
Example aggregates_with_november :
  total_november (calculate_aggregates (subscription_data (scanned fs_with_november)))
  = 950.5%float
  /\ total_december (calculate_aggregates (subscription_data (scanned fs_with_november)))
     = 800%float.
Proof. split; vm_compute; reflexivity. Qed.

(** ** The mapping and the state *)

Lemma assoc_app {A} (k : string) (d1 d2 : list (string * A)) :
  assoc k (d1 ++ d2)
  = match assoc k d1 with
    | Some v => Some v
    | None => assoc k d2
    end.
Proof.
  induction d1 as [|[k' v] d1 IH]; [reflexivity|].
  cbn [app assoc]. destruct (String.eqb k' k); [reflexivity | apply IH].
Qed.

Lemma assoc_In {A} (k : string) (d : list (string * A)) (v : A) :
  assoc k d = Some v -> In (k, v) d.
Proof.
  induction d as [|[k' v'] d IH]; [discriminate|].
  cbn [assoc]. destruct (String.eqb_spec k' k) as [->|Hne].
  - intros [= ->]. now left.
  - intros H. right. auto.
Qed.

Lemma In_assoc {A} (k : string) (d : list (string * A)) (v : A) :
  In (k, v) d -> is_Some (assoc k d).
Proof.
  induction d as [|[k' v'] d IH]; [intros []|].
  intros [[= -> ->]|H]; cbn [assoc].
  - rewrite String.eqb_refl. eauto.
  - destruct (String.eqb k' k); eauto.
Qed.

Lemma assoc_alter_same f id d :
  assoc id (alter_entry f id d) = f <$> assoc id d.
Proof.
  induction d as [|[k v] d IH]; [reflexivity|].
  cbn [alter_entry map fst snd assoc] in *.
  destruct (String.eqb k id) eqn:E; cbn [assoc]; rewrite E; [reflexivity | apply IH].
Qed.

Lemma assoc_alter_other f id id' d :
  id' <> id -> assoc id' (alter_entry f id d) = assoc id' d.
Proof.
  intros Hne. induction d as [|[k v] d IH]; [reflexivity|].
  cbn [alter_entry map fst snd assoc] in *.
  destruct (String.eqb_spec k id) as [->|Hk]; cbn [assoc].
  - destruct (String.eqb_spec id id'); [congruence | apply IH].
  - destruct (String.eqb k id'); [reflexivity | apply IH].
Qed.

Lemma assoc_touch_same id d :
  assoc id (touch id d) = Some (entry id d).
Proof.
  unfold touch, entry. destruct (assoc id d) as [r|] eqn:E; [exact E|].
  rewrite assoc_app, E. cbn [assoc]. now rewrite String.eqb_refl.
Qed.

Lemma assoc_touch_other id id' d :
  id' <> id -> assoc id' (touch id d) = assoc id' d.
Proof.
  intros Hne. unfold touch. destruct (assoc id d); [reflexivity|].
  rewrite assoc_app. destruct (assoc id' d); [reflexivity|].
  cbn [assoc]. destruct (String.eqb_spec id id'); congruence.
Qed.

Lemma assoc_update_same f id d :
  assoc id (update f id d) = Some (f (entry id d)).
Proof. unfold update. now rewrite assoc_alter_same, assoc_touch_same. Qed.

Lemma assoc_update_other f id id' d :
  id' <> id -> assoc id' (update f id d) = assoc id' d.
Proof.
  intros Hne. unfold update. now rewrite assoc_alter_other, assoc_touch_other.
Qed.

Lemma entry_update_same f id d : entry id (update f id d) = f (entry id d).
Proof. unfold entry at 1. now rewrite assoc_update_same. Qed.

Lemma period_set_period m g r : period m (set_period m g r) = g (period m r).
Proof. now destruct m. Qed.

Lemma period_set_period_other m m' g r :
  m <> m' -> period m (set_period m' g r) = period m r.
Proof. destruct m, m'; intros H; congruence || reflexivity. Qed.

Lemma period_set_diff_file m f r : period m (set_diff_file f r) = period m r.
Proof. now destruct m. Qed.

(** ** The two extractors, by cases *)

Lemma parse_json_cost_file_eq fs f st :
  parse_json_cost_file fs f st
  = match json_cost fs f with
    | inr v => Returned v st
    | inl e =>
        if caught_by [JSONDecodeError; FileNotFoundError; KeyError] e
        then Returned None (log (Warning_could_not_parse f e) st)
        else Raised e st
    end.
Proof.
  unfold parse_json_cost_file, try_except, lift.
  destruct (json_cost fs f) as [e|v]; [|reflexivity].
  destruct (caught_by _ e); reflexivity.
Qed.

Lemma parse_diff_text_file_eq fs d st :
  parse_diff_text_file fs d st
  = match diff_costs fs d with
    | inr v => Returned v st
    | inl e =>
        if caught_by [FileNotFoundError; ValueError] e
        then Returned (None, None) (log (Warning_could_not_parse d e) st)
        else Raised e st
    end.
Proof.
  unfold parse_diff_text_file, try_except, lift.
  destruct (diff_costs fs d) as [e|v]; [|reflexivity].
  destruct (caught_by _ e); reflexivity.
Qed.

Lemma parse_json_cost_file_returned fs f st v st' :
  parse_json_cost_file fs f st = Returned v st' -> v = returned_cost fs f.
Proof.
  rewrite parse_json_cost_file_eq. unfold returned_cost.
  destruct (json_cost fs f) as [e|[c|]].
  - destruct (caught_by _ e); congruence.
  - congruence.
  - congruence.
Qed.

Lemma parse_diff_text_file_returned fs d st v st' :
  parse_diff_text_file fs d st = Returned v st' -> v = returned_costs fs d.
Proof.
  rewrite parse_diff_text_file_eq. unfold returned_costs.
  destruct (diff_costs fs d) as [e|c].
  - destruct (caught_by _ e); congruence.
  - congruence.
Qed.

(** Both extractors leave the mapping and the written files alone. *)
Lemma parse_json_cost_file_data fs f st v st' :
  parse_json_cost_file fs f st = Returned v st' ->
  subscription_data st' = subscription_data st.
Proof.
  rewrite parse_json_cost_file_eq.
  destruct (json_cost fs f) as [e|c].
  - destruct (caught_by _ e); intros [= <- <-]; reflexivity.
  - intros [= <- <-]; reflexivity.
Qed.

Lemma parse_diff_text_file_data fs d st v st' :
  parse_diff_text_file fs d st = Returned v st' ->
  subscription_data st' = subscription_data st.
Proof.
  rewrite parse_diff_text_file_eq.
  destruct (diff_costs fs d) as [e|c].
  - destruct (caught_by _ e); intros [= <- <-]; reflexivity.
  - intros [= <- <-]; reflexivity.
Qed.

(** ** The loop body of [process_all_files] *)

Lemma record_period_record fs m d id fb st st' r :
  record_period fs m id (find_related_json_file fs m d id) fb st = Returned tt st' ->
  assoc id (subscription_data st) = Some r ->
  assoc id (subscription_data st') = Some (period_step fs m d id fb r).
Proof.
  unfold record_period, period_step, returned_cost.
  destruct (find_related_json_file fs m d id) as [f|].
  - unfold bind. rewrite parse_json_cost_file_eq.
    destruct (json_cost fs f) as [e|[c|]].
    + destruct (caught_by _ e); [|discriminate].
      unfold ret. intros [= <-] Hr. exact Hr.
    + unfold modify_data, print. intros [= <-] Hr.
      cbn [log with_data subscription_data].
      rewrite assoc_update_same. unfold entry.
      rewrite assoc_update_same. unfold entry. now rewrite Hr.
    + unfold ret. intros [= <-] Hr. exact Hr.
  - destruct fb as [c|].
    + unfold bind, modify_data, print. intros [= <-] Hr.
      cbn [log with_data subscription_data].
      rewrite assoc_update_same. unfold entry. now rewrite Hr.
    + unfold ret. intros [= <-] Hr. exact Hr.
Qed.

Lemma record_period_other fs m id jf fb st st' id' :
  record_period fs m id jf fb st = Returned tt st' ->
  id' <> id ->
  assoc id' (subscription_data st') = assoc id' (subscription_data st).
Proof.
  unfold record_period. intros H Hne.
  destruct jf as [f|].
  - unfold bind in H. rewrite parse_json_cost_file_eq in H.
    destruct (json_cost fs f) as [e|[c|]].
    + destruct (caught_by _ e); [|discriminate].
      unfold ret in H. now injection H as <-.
    + unfold modify_data, print in H. injection H as <-.
      cbn [log with_data subscription_data].
      now rewrite !assoc_update_other.
    + unfold ret in H. now injection H as <-.
  - destruct fb as [c|].
    + unfold bind, modify_data, print in H. injection H as <-.
      cbn [log with_data subscription_data].
      now rewrite assoc_update_other.
    + unfold ret in H. now injection H as <-.
Qed.

(** A pass over a document without an identifier changes no record. *)
Lemma process_file_skip fs d st :
  extract_subscription_id (name d) = None ->
  process_file fs d st = Returned tt (log (Skipping_no_subscription_id (name d)) st).
Proof. intros H. unfold process_file. now rewrite H. Qed.

(** A pass that completes leaves the record of its subscription as
    [record_step] says, and the other records as they were. *)
Lemma process_file_record fs d id st st' :
  extract_subscription_id (name d) = Some id ->
  process_file fs d st = Returned tt st' ->
  assoc id (subscription_data st')
  = Some (record_step fs d id (entry id (subscription_data st))).
Proof.
  intros Hid. unfold process_file. rewrite Hid.
  unfold bind at 1 2 3 4. unfold print at 1 2. unfold modify_data at 1.
  destruct (parse_diff_text_file fs d _) as [costs st1|e st1] eqn:Hp; [|discriminate].
  pose proof (parse_diff_text_file_returned _ _ _ _ _ Hp) as ->.
  apply parse_diff_text_file_data in Hp.
  cbn [log with_data subscription_data] in Hp.
  unfold find_related_json_files. cbn [fst snd].
  unfold bind at 1.
  destruct (record_period fs November _ _ _ st1) as [[] st2|e st2] eqn:Hn; [|discriminate].
  unfold bind at 1.
  destruct (record_period fs December _ _ _ st2) as [[] st3|e st3] eqn:Hd; [|discriminate].
  unfold print. intros [= <-]. cbn [log subscription_data].
  unfold record_step.
  eapply record_period_record; [exact Hd|].
  eapply record_period_record; [exact Hn|].
  rewrite Hp. apply assoc_update_same.
Qed.

Lemma process_file_other fs d st st' id' :
  process_file fs d st = Returned tt st' ->
  extract_subscription_id (name d) <> Some id' ->
  assoc id' (subscription_data st') = assoc id' (subscription_data st).
Proof.
  unfold process_file.
  destruct (extract_subscription_id (name d)) as [id|].
  2:{ unfold print. now intros [= <-] _. }
  intros H Hne. assert (id' <> id) as Hne' by congruence. clear Hne.
  revert H.
  unfold bind at 1 2 3 4. unfold print at 1 2. unfold modify_data at 1.
  destruct (parse_diff_text_file fs d _) as [costs st1|e st1] eqn:Hp; [|discriminate].
  apply parse_diff_text_file_data in Hp.
  cbn [log with_data subscription_data] in Hp.
  unfold bind at 1.
  destruct (record_period fs November _ _ _ st1) as [[] st2|e st2] eqn:Hn; [|discriminate].
  unfold bind at 1.
  destruct (record_period fs December _ _ _ st2) as [[] st3|e st3] eqn:Hd; [|discriminate].
  unfold print. intros [= <-]. cbn [log subscription_data].
  rewrite (record_period_other _ _ _ _ _ _ _ _ Hd Hne').
  rewrite (record_period_other _ _ _ _ _ _ _ _ Hn Hne').
  rewrite Hp. now apply assoc_update_other.
Qed.

Lemma for_each_app {A} (l1 l2 : list A) body st :
  for_each (l1 ++ l2) body st
  = match for_each l1 body st with
    | Returned _ st1 => for_each l2 body st1
    | Raised e st1 => Raised e st1
    end.
Proof.
  revert st. induction l1 as [|x l1 IH]; intros st; [reflexivity|].
  cbn [app for_each]. unfold bind.
  destruct (body x st) as [[] st1|e st1]; [apply IH | reflexivity].
Qed.

(** The record of a subscription after the whole loop is the result of the
    passes over its documents, in order. *)
Lemma for_each_record fs id l st st' :
  for_each l (process_file fs) st = Returned tt st' ->
  assoc id (subscription_data st')
  = record_after fs id l (assoc id (subscription_data st)).
Proof.
  revert st. induction l as [|d l IH]; intros st.
  - unfold for_each, ret. now intros [= <-].
  - cbn [for_each]. unfold bind.
    destruct (process_file fs d st) as [[] st1|e st1] eqn:Hd; [|discriminate].
    intros H. rewrite (IH _ H). unfold record_after. cbn [fold_left]. f_equal.
    case_bool_decide as Hid.
    + apply (process_file_record _ _ _ _ _ Hid Hd).
    + apply (process_file_other _ _ _ _ _ Hd Hid).
Qed.

Lemma process_all_files_record fs base id st st' :
  process_all_files fs base st = Returned tt st' ->
  assoc id (subscription_data st')
  = record_after fs id (find_diff_files fs base) (assoc id (subscription_data st)).
Proof.
  unfold process_all_files, bind, print. intros H.
  now rewrite (for_each_record _ _ _ _ _ H).
Qed.

Lemma record_after_app fs id l1 l2 start :
  record_after fs id (l1 ++ l2) start
  = record_after fs id l2 (record_after fs id l1 start).
Proof. unfold record_after. apply fold_left_app. Qed.

Lemma record_after_none fs id l start :
  (forall d, In d l -> extract_subscription_id (name d) <> Some id) ->
  record_after fs id l start = start.
Proof.
  revert start. induction l as [|d l IH]; intros start H; [reflexivity|].
  unfold record_after. cbn [fold_left].
  rewrite bool_decide_eq_false_2 by (apply H; now left).
  apply IH. intros d' Hd'. apply H. now right.
Qed.

Lemma record_after_last fs id l1 d l2 start :
  extract_subscription_id (name d) = Some id ->
  (forall d', In d' l2 -> extract_subscription_id (name d') <> Some id) ->
  record_after fs id (l1 ++ d :: l2) start
  = Some (record_step fs d id
            (default default_subscription (record_after fs id l1 start))).
Proof.
  intros Hid Hl2. rewrite record_after_app.
  change (d :: l2) with ([d] ++ l2). rewrite record_after_app.
  rewrite (record_after_none _ _ l2) by exact Hl2.
  unfold record_after at 1. cbn [fold_left].
  now rewrite bool_decide_eq_true_2 by exact Hid.
Qed.

(** ** The reconciliation engine ([process_all_files]) *)

Lemma period_period_step fs m d id fb r :
  period m (period_step fs m d id fb r)
  = period_data_step fs m d id fb (period m r).
Proof.
  unfold period_step, period_data_step.
  destruct (find_related_json_file fs m d id) as [f|].
  - destruct (returned_cost fs f); [|reflexivity].
    now rewrite !period_set_period.
  - destruct fb; [|reflexivity]. now rewrite period_set_period.
Qed.

Lemma period_period_step_other fs m m' d id fb r :
  m <> m' -> period m (period_step fs m' d id fb r) = period m r.
Proof.
  intros Hne. unfold period_step.
  destruct (find_related_json_file fs m' d id) as [f|].
  - destruct (returned_cost fs f); [|reflexivity].
    now rewrite !period_set_period_other.
  - destruct fb; [|reflexivity]. now rewrite period_set_period_other.
Qed.

Lemma period_record_step fs m d id r :
  period m (record_step fs d id r)
  = period_data_step fs m d id (month_cost m (returned_costs fs d)) (period m r).
Proof.
  unfold record_step. destruct m.
  - rewrite period_period_step_other by discriminate.
    now rewrite period_period_step, period_set_diff_file.
  - rewrite period_period_step.
    rewrite period_period_step_other by discriminate.
    now rewrite period_set_diff_file.
Qed.

Lemma usable_total_returned fs f c :
  usable_total fs f c <-> returned_cost fs f = Some c.
Proof.
  split.
  - intros (st & st' & H). now apply parse_json_cost_file_returned in H.
  - intros H. exists initial_state, initial_state.
    rewrite parse_json_cost_file_eq. unfold returned_cost in H.
    destruct (json_cost fs f) as [e|[c'|]]; congruence.
Qed.

Lemma unavailable_total_returned fs f :
  unavailable_total fs f -> returned_cost fs f = None.
Proof. intros (st & st' & H). now apply parse_json_cost_file_returned in H. Qed.

Lemma usable_fallback_returned fs d m c :
  usable_fallback fs d m c -> month_cost m (returned_costs fs d) = Some c.
Proof.
  intros (st & st' & costs & H & Hc).
  apply parse_diff_text_file_returned in H. now subst costs.
Qed.

Lemma returned_usable_fallback fs d m c :
  month_cost m (returned_costs fs d) = Some c -> usable_fallback fs d m c.
Proof.
  intros H. unfold returned_costs in H.
  destruct (diff_costs fs d) as [e|costs] eqn:E.
  - destruct m; discriminate.
  - exists initial_state, initial_state, costs. split; [|exact H].
    rewrite parse_diff_text_file_eq. now rewrite E.
Qed.

(** The record of a subscription at the end of a completed scan, from its
    last document. *)
Lemma last_document_record fs base id l1 d l2 st st' :
  last_document_of fs base id l1 d l2 ->
  process_all_files fs base st = Returned tt st' ->
  assoc id (subscription_data st')
  = Some (record_step fs d id (record_before fs id l1 st)).
Proof.
  intros (Hl & Hid & Hl2) Hrun.
  rewrite (process_all_files_record _ _ id _ _ Hrun), Hl.
  now apply record_after_last.
Qed.

(** C3, amended.  For the last discovered document of a subscription:
    when its sibling structured document of a period exists and yields a
    usable total, the record holds that total and the path of that document
    for the period at the end of the scan, whatever the fallback pair of the
    comparison document contains; nothing is assumed about the other
    period, which resolves on its own. *)
Theorem structured_document_outranks_fallback
    fs base st st' sub_id l1 d l2 m f c :
  last_document_of fs base sub_id l1 d l2 ->
  find_related_json_file fs m d sub_id = Some f ->
  usable_total fs f c ->
  process_all_files fs base st = Returned tt st' ->
  exists r, assoc sub_id (subscription_data st') = Some r
            /\ total (period m r) = c
            /\ file (period m r) = Some (path_str f).
Proof.
  intros Hlast Hf Hc Hrun.
  apply usable_total_returned in Hc.
  eexists. split; [exact (last_document_record _ _ _ _ _ _ _ _ Hlast Hrun)|].
  rewrite period_record_step. unfold period_data_step. rewrite Hf, Hc.
  split; reflexivity.
Qed.

(** C1, amended.  At the end of the scan, for the last document of a
    subscription and each period: without a sibling file a usable fallback
    value is the recorded total, and the pass attaches no path (the path
    stays what it was, which is none when the record is new); with a sibling
    file whose extraction is unavailable the fallback is not used and the
    period stays what it was, total [0.0] and no path when the record is
    new. *)
Theorem fallback_recorded_without_sibling
    fs base st st' sub_id l1 d l2 m :
  last_document_of fs base sub_id l1 d l2 ->
  process_all_files fs base st = Returned tt st' ->
  exists r,
    assoc sub_id (subscription_data st') = Some r
    /\ (forall c,
          find_related_json_file fs m d sub_id = None ->
          usable_fallback fs d m c ->
          total (period m r) = c
          /\ file (period m r) = file (period m (record_before fs sub_id l1 st)))
    /\ (forall f,
          find_related_json_file fs m d sub_id = Some f ->
          unavailable_total fs f ->
          period m r = period m (record_before fs sub_id l1 st))
    /\ ((forall d', In d' l1 -> extract_subscription_id (name d') <> Some sub_id) ->
        assoc sub_id (subscription_data st) = None ->
        period m (record_before fs sub_id l1 st) = default_period).
Proof.
  intros Hlast Hrun.
  eexists. split; [exact (last_document_record _ _ _ _ _ _ _ _ Hlast Hrun)|].
  rewrite period_record_step. unfold period_data_step.
  split; [|split].
  - intros c Hnone Hfb. apply usable_fallback_returned in Hfb.
    rewrite Hnone, Hfb. split; reflexivity.
  - intros f Hf Hun. apply unavailable_total_returned in Hun.
    now rewrite Hf, Hun.
  - intros Hl1 Hnew. unfold record_before.
    rewrite record_after_none by exact Hl1. rewrite Hnew.
    now destruct m.
Qed.

Lemma scenario_last_document fs :
  find_diff_files fs scenario_base = [scenario_diff] ->
  last_document_of fs scenario_base scenario_id [] scenario_diff [].
Proof.
  intros H. split; [exact H|]. split; [vm_compute; reflexivity|].
  intros d' [].
Qed.

Lemma structured_document_outranks_fallback_witness :
  exists r, assoc scenario_id (subscription_data (scanned fs_with_november)) = Some r
            /\ total (period November r) = 950.5%float
            /\ file (period November r) = Some (path_str scenario_november).
Proof.
  apply (structured_document_outranks_fallback
           fs_with_november scenario_base initial_state (scanned fs_with_november)
           scenario_id [] scenario_diff [] November scenario_november 950.5%float).
  - apply scenario_last_document. vm_compute. reflexivity.
  - vm_compute. reflexivity.
  - exists initial_state, initial_state. vm_compute. reflexivity.
  - vm_compute. reflexivity.
Defined.

Lemma fallback_recorded_without_sibling_witness :
  (exists r,
      assoc scenario_id (subscription_data (scanned fs_with_november)) = Some r
      /\ total (period December r) = 800%float
      /\ file (period December r) = None)
  /\ (exists r,
        assoc scenario_id (subscription_data (scanned fs_november_without_totals)) = Some r
        /\ period November r = default_period).
Proof.
  split.
  2:{ destruct (fallback_recorded_without_sibling
                  fs_november_without_totals scenario_base initial_state
                  (scanned fs_november_without_totals)
                  scenario_id [] scenario_diff [] November)
        as (r & Hr & _ & Hsib & Hnew).
      - apply scenario_last_document. vm_compute. reflexivity.
      - vm_compute. reflexivity.
      - exists r. split; [exact Hr|].
        rewrite (Hsib scenario_november).
        + apply Hnew; [intros d' [] | reflexivity].
        + vm_compute. reflexivity.
        + exists initial_state, initial_state. vm_compute. reflexivity. }
  destruct (fallback_recorded_without_sibling
              fs_with_november scenario_base initial_state (scanned fs_with_november)
              scenario_id [] scenario_diff [] December) as (r & Hr & Hfb & _ & Hnew).
  - apply scenario_last_document. vm_compute. reflexivity.
  - vm_compute. reflexivity.
  - exists r. split; [exact Hr|].
    destruct (Hfb 800%float) as [Ht Hf].
    + vm_compute. reflexivity.
    + exists initial_state, initial_state, (Some 1000%float, Some 800%float).
      split; vm_compute; reflexivity.
    + split; [exact Ht|]. rewrite Hf, Hnew; [reflexivity | intros d' [] | reflexivity].
Defined.

Lemma float_1000_not_950_5 : 1000%float <> 950.5%float.
Proof.
  intros H. apply (f_equal (fun x => PrimFloat.ltb x 960)) in H.
  vm_compute in H. discriminate.
Qed.

(** C3, as stated, fails: the documents of one subscription stand in two
    directories, and only the first directory holds a November export.  The
    first document has a usable export (950.5) and a usable fallback value,
    yet the scan ends with the November total 1000.0, the fallback figure
    that the pass for the second document recorded over it. *)
Lemma precedence_law_as_stated_fails : ~ precedence_law_as_stated.
Proof.
  intros H.
  destruct (H fs_two_directories scenario_base initial_state
              (scanned fs_two_directories) scenario_id first_directory_diff
              November (scenario_base ++ ["a"%string; scenario_november_name])
              950.5%float 1000%float)
    as (r & Hr & Ht & _).
  - vm_compute. left. reflexivity.
  - vm_compute. reflexivity.
  - vm_compute. reflexivity.
  - exists initial_state, initial_state. vm_compute. reflexivity.
  - exists initial_state, initial_state, (Some 1000%float, Some 800%float).
    split; vm_compute; reflexivity.
  - vm_compute. reflexivity.
  - vm_compute in Hr. injection Hr as <-. cbn in Ht.
    exact (float_1000_not_950_5 Ht).
Qed.

Lemma float_zero_not_1000 : 0%float <> 1000%float.
Proof.
  intros H. apply (f_equal is_zero) in H. vm_compute in H. discriminate.
Qed.

(** C1, as stated, fails: next to a November export without the [totals]
    field the comparison document's usable source figure 1000.0 is not
    recorded; the November total stays [0.0]. *)
Lemma fallback_law_as_stated_fails : ~ fallback_law_as_stated.
Proof.
  intros H.
  destruct (H fs_november_without_totals scenario_base initial_state
              (scanned fs_november_without_totals)
              scenario_id [] scenario_diff [] November 1000%float)
    as (r & Hr & Ht).
  - apply scenario_last_document. vm_compute. reflexivity.
  - right. exists scenario_november. split; [vm_compute; reflexivity|].
    exists initial_state, initial_state. vm_compute. reflexivity.
  - exists initial_state, initial_state, (Some 1000%float, Some 800%float).
    split; vm_compute; reflexivity.
  - vm_compute. reflexivity.
  - vm_compute in Hr. injection Hr as <-. cbn in Ht.
    exact (float_zero_not_1000 Ht).
Qed.

Lemma period_data_step_nothing fs m d id p :
  nothing_recorded fs id m d ->
  period_data_step fs m d id (month_cost m (returned_costs fs d)) p = p.
Proof.
  intros [Hs Hf]. unfold period_data_step.
  destruct (find_related_json_file fs m d id) as [f|].
  - destruct (returned_cost fs f) as [c|] eqn:E; [|reflexivity].
    exfalso. apply (Hs f c eq_refl). now apply usable_total_returned.
  - destruct (month_cost m (returned_costs fs d)) as [c|] eqn:E; [|reflexivity].
    exfalso. apply (Hf eq_refl c). now apply returned_usable_fallback.
Qed.

Lemma record_after_default_period fs id m l start :
  (forall d, In d l -> extract_subscription_id (name d) = Some id ->
             nothing_recorded fs id m d) ->
  period m (default default_subscription start) = default_period ->
  period m (default default_subscription (record_after fs id l start)) = default_period.
Proof.
  revert start. induction l as [|d l IH]; intros start Hl Hstart; [exact Hstart|].
  unfold record_after. cbn [fold_left]. apply IH.
  - intros d' Hd'. apply Hl. now right.
  - case_bool_decide as Hid; [|exact Hstart].
    cbn [from_option Datatypes.id]. rewrite period_record_step.
    rewrite period_data_step_nothing; [exact Hstart|].
    apply Hl; [now left | exact Hid].
Qed.

(** C8.  In a scan that starts from the empty mapping and completes, a
    period of a record for which nothing was recorded, neither a usable
    total of a structured document nor a usable fallback value, has the
    total [0.0] and no source file. *)
Theorem zero_default fs base st st' sub_id r m :
  subscription_data st = [] ->
  process_all_files fs base st = Returned tt st' ->
  assoc sub_id (subscription_data st') = Some r ->
  (forall d, In d (find_diff_files fs base) ->
             extract_subscription_id (name d) = Some sub_id ->
             nothing_recorded fs sub_id m d) ->
  total (period m r) = 0%float /\ file (period m r) = None.
Proof.
  intros Hempty Hrun Hr Hnothing.
  rewrite (process_all_files_record _ _ sub_id _ _ Hrun), Hempty in Hr.
  pose proof (record_after_default_period fs sub_id m _ (assoc sub_id [])
                Hnothing) as H.
  rewrite Hr in H. cbn [from_option Datatypes.id] in H.
  rewrite H; [split; reflexivity | now destruct m].
Qed.

Lemma zero_default_witness :
  exists r, assoc scenario_id (subscription_data (scanned fs_garbled)) = Some r
            /\ total (period November r) = 0%float
            /\ file (period November r) = None.
Proof.
  eexists. split; [vm_compute; reflexivity|].
  apply (zero_default fs_garbled scenario_base initial_state (scanned fs_garbled)
           scenario_id _ November).
  - reflexivity.
  - vm_compute. reflexivity.
  - vm_compute. reflexivity.
  - intros d Hd _.
    assert (d = scenario_diff) as ->.
    { vm_compute in Hd. destruct Hd as [<-|[]]. reflexivity. }
    split.
    + intros f c Hf. vm_compute in Hf. discriminate.
    + intros _ c Hu. apply usable_fallback_returned in Hu.
      vm_compute in Hu. discriminate.
Defined.

(** ** The structured extractor ([parse_json_cost_file]) *)

(** What the extractor does right: a missing file and a text that is not
    JSON give [None] after a warning that names the path; a document
    without the nested field gives [None]; a float in the nested field is
    returned. *)
Lemma parse_json_cost_file_recovers fs f st :
  (json_load fs f = fail FileNotFoundError ->
   parse_json_cost_file fs f st
   = Returned None (log (Warning_could_not_parse f FileNotFoundError) st))
  /\ (json_load fs f = fail JSONDecodeError ->
      parse_json_cost_file fs f st
      = Returned None (log (Warning_could_not_parse f JSONDecodeError) st))
  /\ (forall d, json_load fs f = ok (JDict d) -> assoc "totals" d = None ->
                parse_json_cost_file fs f st = Returned None st)
  /\ (forall d t, json_load fs f = ok (JDict d) -> assoc "totals" d = Some (JDict t) ->
                  assoc "totalCostInTimeframe" t = None ->
                  parse_json_cost_file fs f st = Returned None st)
  /\ (forall d t c, json_load fs f = ok (JDict d) -> assoc "totals" d = Some (JDict t) ->
                    assoc "totalCostInTimeframe" t = Some (JFloat c) ->
                    parse_json_cost_file fs f st = Returned (Some c) st).
Proof.
  rewrite parse_json_cost_file_eq. unfold json_cost.
  repeat split.
  - intros ->. reflexivity.
  - intros ->. reflexivity.
  - intros d -> Hd. cbn. now rewrite Hd.
  - intros d t -> Hd Ht. cbn. rewrite Hd. cbn. now rewrite Ht.
  - intros d t c -> Hd Ht. cbn. rewrite Hd. cbn. rewrite Ht. reflexivity.
Qed.

(** C2, the code's behaviour where it departs from the claim: the
    extractor raises instead of returning [None] for an export whose total
    is [null] ([TypeError]), whose [totals] field is a number
    ([TypeError]), whose total is the text [N/A] ([ValueError]), and for a
    file it may not read ([PermissionError]). *)
Theorem parse_json_cost_file_raises :
  parse_json_cost_file fs_november_null scenario_november initial_state
  = Raised TypeError initial_state
  /\ parse_json_cost_file fs_totals_not_a_mapping scenario_november initial_state
     = Raised TypeError initial_state
  /\ parse_json_cost_file fs_total_not_a_number scenario_november initial_state
     = Raised ValueError initial_state
  /\ parse_json_cost_file fs_november_locked scenario_november initial_state
     = Raised PermissionError initial_state.
Proof. repeat split; vm_compute; reflexivity. Qed.

(** ** Files written *)

Lemma keeps_written_ret {A} (a : A) : keeps_written (ret a).
Proof. intros st. reflexivity. Qed.

Lemma keeps_written_print e : keeps_written (print e).
Proof. intros st. reflexivity. Qed.

Lemma keeps_written_modify_data f : keeps_written (modify_data f).
Proof. intros st. reflexivity. Qed.

Lemma keeps_written_lift {A} (c : result A) : keeps_written (lift c).
Proof. intros st. unfold lift. destruct c; reflexivity. Qed.

Lemma keeps_written_bind {A B} (c : M A) (k : A -> M B) :
  keeps_written c -> (forall a, keeps_written (k a)) -> keeps_written (bind c k).
Proof.
  intros Hc Hk st. unfold bind. specialize (Hc st).
  destruct (c st) as [a st1|e st1]; cbn [final_state] in *.
  - now rewrite Hk.
  - exact Hc.
Qed.

Lemma keeps_written_try_except {A} (body : M A) classes handler :
  keeps_written body -> (forall e, keeps_written (handler e)) ->
  keeps_written (try_except body classes handler).
Proof.
  intros Hb Hh st. unfold try_except. specialize (Hb st).
  destruct (body st) as [a st1|e st1]; cbn [final_state] in *; [exact Hb|].
  destruct (caught_by classes e); [now rewrite Hh | exact Hb].
Qed.

Lemma keeps_written_for_each {A} (l : list A) body :
  (forall x, keeps_written (body x)) -> keeps_written (for_each l body).
Proof.
  intros Hb. induction l as [|x l IH]; [apply keeps_written_ret|].
  cbn [for_each]. apply keeps_written_bind; [apply Hb | intros _; exact IH].
Qed.

Create HintDb written discriminated.
#[export] Hint Resolve keeps_written_ret keeps_written_print keeps_written_modify_data
  keeps_written_lift keeps_written_bind keeps_written_try_except
  keeps_written_for_each : written.

Lemma keeps_written_parse_json_cost_file fs f :
  keeps_written (parse_json_cost_file fs f).
Proof. unfold parse_json_cost_file. auto 6 with written. Qed.

Lemma keeps_written_parse_diff_text_file fs d :
  keeps_written (parse_diff_text_file fs d).
Proof. unfold parse_diff_text_file. auto 6 with written. Qed.

Lemma keeps_written_record_period fs m id jf fb :
  keeps_written (record_period fs m id jf fb).
Proof.
  unfold record_period. destruct jf as [f|].
  - apply keeps_written_bind; [apply keeps_written_parse_json_cost_file|].
    intros [c|]; auto 6 with written.
  - destruct fb; auto 6 with written.
Qed.

Lemma keeps_written_process_file fs d : keeps_written (process_file fs d).
Proof.
  unfold process_file. destruct (extract_subscription_id (name d)) as [id|];
    [|apply keeps_written_print].
  do 3 (apply keeps_written_bind; [auto with written|]; intros _).
  apply keeps_written_bind; [apply keeps_written_parse_diff_text_file|]. intros costs.
  apply keeps_written_bind; [apply keeps_written_record_period|]. intros _.
  apply keeps_written_bind; [apply keeps_written_record_period|]. intros _.
  apply keeps_written_print.
Qed.

Lemma keeps_written_process_all_files fs base :
  keeps_written (process_all_files fs base).
Proof.
  unfold process_all_files.
  apply keeps_written_bind; [apply keeps_written_print|]. intros _.
  apply keeps_written_for_each, keeps_written_process_file.
Qed.

(** ** [generate_report] and [main] *)

Lemma insert_by_december_Permutation x l : insert_by_december x l ≡ₚ x :: l.
Proof.
  induction l as [|y l IH]; [reflexivity|].
  cbn [insert_by_december].
  destruct (total (december (snd x)) <? total (december (snd y)))%float; [|reflexivity].
  rewrite IH. apply perm_swap.
Qed.

Lemma sorted_by_december_Permutation d : sorted_by_december d ≡ₚ d.
Proof.
  induction d as [|x d IH]; [reflexivity|].
  unfold sorted_by_december. cbn [foldr].
  rewrite insert_by_december_Permutation. now apply perm_skip.
Qed.

(** With at least one record the report is written, and it shows the
    aggregates and every record. *)
Lemma generate_report_returns base out st :
  subscription_data st <> [] ->
  exists rep st',
    generate_report base out st = Returned out st'
    /\ written st' = written st ++ [(out, rep)]
    /\ subscription_data st' = subscription_data st
    /\ rep_aggregates rep = calculate_aggregates (subscription_data st)
    /\ rep_breakdown rep = sorted_by_december (subscription_data st).
Proof.
  intros Hne. unfold generate_report, bind, get_data.
  cbn [calculate_aggregates subscription_count].
  destruct (subscription_data st) as [|x l] eqn:Hd; [congruence|].
  cbn [length div_by_count lift].
  eexists _, _. split; [reflexivity|].
  cbn [log with_file written subscription_data rep_aggregates rep_breakdown].
  rewrite Hd. repeat split.
Qed.

Lemma main_eq fs home :
  main fs home initial_state
  = let base := finops_dir home in
    let st0 := log Banner initial_state in
    if negb (path_exists fs base)
    then Returned 1 (log (Error_directory_not_found base) st0)
    else
      match process_all_files fs base (log (Scanning_directory base) st0) with
      | Raised e st1 => Raised e st1
      | Returned _ st1 =>
          match subscription_data st1 with
          | [] => Returned 1 (log Warning_no_subscription_data st1)
          | _ :: _ =>
              match generate_report base report_name st1 with
              | Returned _ st2 => Returned 0 st2
              | Raised e st2 => Raised e st2
              end
          end
      end.
Proof.
  unfold main. unfold bind at 1. unfold print at 1.
  cbv zeta. destruct (negb (path_exists fs (finops_dir home))); [reflexivity|].
  unfold bind at 1. unfold print at 1. unfold bind at 1.
  destruct (process_all_files fs _ _) as [[] st1|e st1]; [|reflexivity].
  unfold bind at 1. unfold get_data at 1.
  destruct (subscription_data st1); reflexivity.
Qed.

Lemma written_after_scan fs base st0 :
  written st0 = [] ->
  written (final_state (process_all_files fs base st0)) = [].
Proof. intros H. now rewrite keeps_written_process_all_files. Qed.

(** What [main] does once the scan has completed: status 1 and no report
    without a record, status 0 and the report otherwise; and status 1
    without a report when the directory is missing. *)
Lemma main_exit_status fs home :
  (path_exists fs (finops_dir home) = false ->
   exists st, run fs home = (1, st) /\ written st = [])
  /\ (forall st1,
        path_exists fs (finops_dir home) = true ->
        process_all_files fs (finops_dir home)
          (log (Scanning_directory (finops_dir home)) (log Banner initial_state))
        = Returned tt st1 ->
        (subscription_data st1 = [] ->
         exists st, run fs home = (1, st) /\ written st = [])
        /\ (subscription_data st1 <> [] ->
            exists st rep,
              run fs home = (0, st) /\ written st = [(report_name, rep)]
              /\ subscription_data st = subscription_data st1
              /\ rep_aggregates rep = calculate_aggregates (subscription_data st1)
              /\ rep_breakdown rep = sorted_by_december (subscription_data st1))).
Proof.
  unfold run. rewrite main_eq. cbv zeta. split.
  - intros ->. cbn [negb]. eexists. split; reflexivity.
  - intros st1 -> Hscan. cbn [negb]. rewrite Hscan.
    pose proof (written_after_scan fs (finops_dir home)
                  (log (Scanning_directory (finops_dir home)) (log Banner initial_state))
                  eq_refl) as Hw.
    rewrite Hscan in Hw. cbn [final_state] in Hw.
    split.
    + intros ->. eexists. split; [reflexivity|]. exact Hw.
    + intros Hne.
      destruct (generate_report_returns (finops_dir home) report_name st1 Hne)
        as (rep & st2 & Hg & Hw2 & Hd2 & Ha & Hb).
      destruct (subscription_data st1) as [|x l] eqn:Hd; [congruence|].
      rewrite Hg. exists st2, rep. rewrite Hw in Hw2.
      repeat split; assumption.
Qed.

(** C7, the code's behaviour where it departs from the claim: the input
    directory exists and the scan has already created the record of a
    subscription, yet the run ends with status 1 and writes no report,
    because the [TypeError] of the structured extractor is caught
    nowhere. *)
Theorem run_aborts_on_null_total :
  path_exists fs_november_null (finops_dir scenario_home) = true
  /\ fst (run fs_november_null scenario_home) = 1
  /\ written (snd (run fs_november_null scenario_home)) = []
  /\ is_Some (assoc scenario_id
                (subscription_data (snd (run fs_november_null scenario_home))))
  /\ main fs_november_null scenario_home initial_state
     = Raised TypeError (snd (run fs_november_null scenario_home)).
Proof.
  repeat split; try (vm_compute; reflexivity).
  vm_compute. eexists. reflexivity.
Qed.

(** ** Records without costs *)

Lemma record_after_Some fs id l start :
  is_Some start -> is_Some (record_after fs id l start).
Proof.
  revert start. induction l as [|d l IH]; intros start H; [exact H|].
  unfold record_after. cbn [fold_left]. apply IH.
  case_bool_decide; [eauto | exact H].
Qed.

Lemma record_after_created fs id l d start :
  In d l -> extract_subscription_id (name d) = Some id ->
  is_Some (record_after fs id l start).
Proof.
  intros Hin Hid. apply in_split in Hin as (l1 & l2 & ->).
  rewrite record_after_app. unfold record_after at 1. cbn [fold_left].
  rewrite bool_decide_eq_true_2 by exact Hid.
  apply (record_after_Some fs id l2). eauto.
Qed.

Lemma for_each_skips fs l st :
  (forall d, In d l -> extract_subscription_id (name d) = None) ->
  exists st', for_each l (process_file fs) st = Returned tt st'
              /\ subscription_data st' = subscription_data st.
Proof.
  revert st. induction l as [|d l IH]; intros st H.
  - exists st. split; reflexivity.
  - cbn [for_each]. unfold bind.
    rewrite process_file_skip by (apply H; now left).
    destruct (IH (log (Skipping_no_subscription_id (name d)) st)) as (st' & Hr & Hd).
    { intros d' Hd'. apply H. now right. }
    exists st'. split; [exact Hr|]. rewrite Hd. reflexivity.
Qed.

Lemma unparseable_returns fs d st :
  unparseable fs d ->
  exists st', parse_diff_text_file fs d st = Returned (None, None) st'.
Proof.
  intros (s & s' & H). rewrite parse_diff_text_file_eq in *.
  destruct (diff_costs fs d) as [e|costs].
  - destruct (caught_by _ e); [|discriminate]. eauto.
  - injection H as -> _. eauto.
Qed.

Lemma process_file_returns fs d st :
  (forall id, extract_subscription_id (name d) = Some id ->
              unparseable fs d /\ without_siblings fs d id) ->
  exists st', process_file fs d st = Returned tt st'.
Proof.
  intros H. unfold process_file.
  destruct (extract_subscription_id (name d)) as [id|]; [|unfold print; eauto].
  destruct (H id eq_refl) as [Hu Hs]. unfold without_siblings in Hs.
  unfold bind at 1 2 3 4. unfold print at 1 2. unfold modify_data at 1.
  destruct (unparseable_returns fs d
              (with_data (update (set_diff_file (path_str d)) id)
                 (log (Diff_file_line (name d))
                    (log (Processing_subscription id) st))) Hu) as (st1 & ->).
  rewrite Hs. cbn [fst snd record_period]. unfold bind, ret, print. eauto.
Qed.

Lemma for_each_returns fs l st :
  (forall d id, In d l -> extract_subscription_id (name d) = Some id ->
                unparseable fs d /\ without_siblings fs d id) ->
  exists st', for_each l (process_file fs) st = Returned tt st'.
Proof.
  revert st. induction l as [|d l IH]; intros st H.
  - exists st. reflexivity.
  - cbn [for_each]. unfold bind.
    destruct (process_file_returns fs d st) as (st1 & ->).
    { intros id. apply H. now left. }
    apply IH. intros d' id Hd'. apply H. now right.
Qed.

Lemma nothing_recorded_without_costs fs d id m :
  unparseable fs d -> without_siblings fs d id -> nothing_recorded fs id m d.
Proof.
  intros Hu Hs. unfold without_siblings, find_related_json_files in Hs.
  injection Hs as Hn Hd. split.
  - intros f c Hf. destruct m; congruence.
  - intros _ c Hc. apply usable_fallback_returned in Hc.
    destruct Hu as (s & s' & Hp). apply parse_diff_text_file_returned in Hp.
    rewrite <- Hp in Hc. destruct m; discriminate.
Qed.

(** C10.  Take a run whose input directory exists.  [main] returns through
    its no-subscription exit exactly when no discovered file name contains
    an identifier.  And when the discovered documents that have an
    identifier are unparseable and have no sibling, the run still exits with
    status 0 and writes the report: each of these identifiers has a record,
    with both totals [0.0], which the report lists and the subscription
    count includes. *)
Theorem record_without_costs_is_reported fs home :
  path_exists fs (finops_dir home) = true ->
  ((exists st, main fs home initial_state = Returned 1 st)
   <-> (forall d, In d (find_diff_files fs (finops_dir home)) ->
                  extract_subscription_id (name d) = None))
  /\ ((forall d id, In d (find_diff_files fs (finops_dir home)) ->
                    extract_subscription_id (name d) = Some id ->
                    unparseable fs d /\ without_siblings fs d id) ->
      forall d id, In d (find_diff_files fs (finops_dir home)) ->
                   extract_subscription_id (name d) = Some id ->
      exists st rep r,
        run fs home = (0, st)
        /\ written st = [(report_name, rep)]
        /\ assoc id (subscription_data st) = Some r
        /\ total (november r) = 0%float /\ total (december r) = 0%float
        /\ In (id, r) (rep_breakdown rep)
        /\ subscription_count (rep_aggregates rep) = length (subscription_data st)
        /\ (0 < subscription_count (rep_aggregates rep))%nat).
Proof.
  intros Hroot.
  set (base := finops_dir home) in *.
  set (st0 := log (Scanning_directory base) (log Banner initial_state)).
  split; [split|].
  - intros (st & Hmain) d Hd.
    rewrite main_eq in Hmain. cbv zeta in Hmain. fold base st0 in Hmain.
    rewrite Hroot in Hmain. cbn [negb] in Hmain.
    destruct (process_all_files fs base st0) as [[] st1|e st1] eqn:Hscan; [|discriminate].
    destruct (subscription_data st1) as [|x l] eqn:Hdata.
    + destruct (extract_subscription_id (name d)) as [id|] eqn:Hid; [|reflexivity].
      exfalso.
      pose proof (process_all_files_record _ _ id _ _ Hscan) as Hr.
      rewrite Hdata in Hr. cbn [assoc] in Hr.
      destruct (record_after_created fs id _ d (assoc id (subscription_data st0)) Hd Hid)
        as [r Hs].
      congruence.
    + destruct (generate_report base report_name st1) as [? st2|e st2]; discriminate.
  - intros Hnone.
    rewrite main_eq. cbv zeta. fold base st0. rewrite Hroot. cbn [negb].
    unfold process_all_files, bind, print.
    destruct (for_each_skips fs (find_diff_files fs base)
                (log (Found_files (length (find_diff_files fs base))) st0) Hnone)
      as (st1 & -> & Hd).
    cbn [log subscription_data] in Hd. unfold st0 in Hd.
    cbn [log subscription_data initial_state] in Hd. rewrite Hd. eauto.
  - intros Hall d id Hd Hid.
    assert (exists st1, process_all_files fs base st0 = Returned tt st1) as (st1 & Hscan).
    { unfold process_all_files, bind, print. now apply for_each_returns. }
    pose proof (process_all_files_record _ _ id _ _ Hscan) as Hr.
    destruct (record_after_created fs id _ d (assoc id (subscription_data st0)) Hd Hid)
      as [r Hs].
    rewrite Hs in Hr.
    assert (subscription_data st1 <> []) as Hne.
    { intros E. rewrite E in Hr. discriminate. }
    destruct (main_exit_status fs home) as [_ Hmain].
    destruct (Hmain st1 Hroot Hscan) as [_ Hrep].
    destruct (Hrep Hne) as (st & rep & Hrun & Hw & Hdata & Ha & Hb).
    exists st, rep, r. rewrite Hdata.
    assert (forall m, total (period m r) = 0%float) as Hzero.
    { intros m.
      pose proof (record_after_default_period fs id m (find_diff_files fs base)
                    (assoc id (subscription_data st0))) as Hp.
      fold base in Hs. rewrite Hs in Hp. cbn [from_option Datatypes.id] in Hp.
      rewrite Hp; [reflexivity | | now destruct m].
      intros d' Hd' Hid'. destruct (Hall d' id Hd' Hid').
      now apply nothing_recorded_without_costs. }
    repeat split; try assumption.
    + apply (Hzero November).
    + apply (Hzero December).
    + rewrite Hb. apply (Permutation_in _ (Permutation_sym (sorted_by_december_Permutation _))).
      now apply assoc_In.
    + rewrite Ha. reflexivity.
    + rewrite Ha. cbn [calculate_aggregates subscription_count].
      destruct (subscription_data st1); [congruence | cbn; lia].
Qed.

Lemma record_without_costs_is_reported_witness :
  (exists st, main fs_without_identifier scenario_home initial_state = Returned 1 st)
  /\ exists st rep r,
       run fs_garbled scenario_home = (0, st)
       /\ written st = [(report_name, rep)]
       /\ assoc scenario_id (subscription_data st) = Some r
       /\ total (november r) = 0%float /\ total (december r) = 0%float
       /\ In (scenario_id, r) (rep_breakdown rep)
       /\ subscription_count (rep_aggregates rep) = length (subscription_data st)
       /\ (0 < subscription_count (rep_aggregates rep))%nat.
Proof.
  split.
  - apply (record_without_costs_is_reported fs_without_identifier scenario_home eq_refl).
    intros d Hd. vm_compute in Hd. destruct Hd as [<-|[]]. vm_compute. reflexivity.
  - apply (record_without_costs_is_reported fs_garbled scenario_home eq_refl)
      with (d := scenario_diff).
    + intros d id Hd Hid. vm_compute in Hd. destruct Hd as [<-|[]].
      vm_compute in Hid. injection Hid as <-. split.
      * exists initial_state, initial_state. vm_compute. reflexivity.
      * vm_compute. reflexivity.
    + vm_compute. left. reflexivity.
    + vm_compute. reflexivity.
Defined.

(** ** The matcher *)

Lemma strip_prefix_spec t s s' : strip_prefix t s = Some s' <-> s = t ++ s'.
Proof.
  revert s. induction t as [|a t IH]; intros s; cbn [strip_prefix app].
  - split; congruence.
  - destruct s as [|b s]; [split; discriminate|].
    destruct (Ascii.eqb_spec a b) as [->|Hne].
    + rewrite IH. split; congruence.
    + split; [discriminate | congruence].
Qed.

Lemma strip_prefix_app t s : strip_prefix t (t ++ s) = Some s.
Proof. now apply strip_prefix_spec. Qed.

Lemma contains_spec t s :
  contains t s = true <-> exists pre post, s = pre ++ t ++ post.
Proof.
  induction s as [|c s IH]; cbn [contains].
  - destruct (strip_prefix t []) as [s'|] eqn:E.
    + apply strip_prefix_spec in E. split; [|reflexivity].
      intros _. exists [], s'. exact E.
    + split; [discriminate|]. intros (pre & post & H).
      destruct pre; [|discriminate]. cbn in H.
      apply strip_prefix_spec in H. congruence.
  - destruct (strip_prefix t (c :: s)) as [s'|] eqn:E.
    + apply strip_prefix_spec in E. split; [|reflexivity].
      intros _. exists [], s'. exact E.
    + rewrite IH. split.
      * intros (pre & post & ->). now exists (c :: pre), post.
      * intros (pre & post & H). destruct pre as [|c' pre].
        -- cbn in H. apply strip_prefix_spec in H. congruence.
        -- injection H as _ ->. eauto.
Qed.

Section MatcherLemmas.
Context {R : Type}.
Implicit Types (k : chars -> option R) (p : ascii -> bool).

Lemma greedy_sound p s k res :
  greedy p s k = Some res ->
  exists u s', s = u ++ s' /\ all p u /\ k s' = Some res.
Proof.
  induction s as [|c s IH]; cbn [greedy].
  - intros H. exists [], []. repeat split; [constructor | exact H].
  - destruct (p c) eqn:Hc.
    + destruct (greedy p s k) as [r|] eqn:E.
      * intros [= ->]. destruct (IH eq_refl) as (u & s' & -> & Hu & Hk).
        exists (c :: u), s'. repeat split; [now constructor | exact Hk].
      * intros H. exists [], (c :: s). repeat split; [constructor | exact H].
    + intros H. exists [], (c :: s). repeat split; [constructor | exact H].
Qed.

Lemma greedy_complete p u s' k :
  all p u -> is_Some (k s') -> is_Some (greedy p (u ++ s') k).
Proof.
  intros Hu Hk. induction Hu as [|c u Hc Hu IH]; cbn [app].
  - destruct s' as [|c s']; cbn [greedy]; [exact Hk|].
    destruct (p c); [|exact Hk]. destruct (greedy p s' k); eauto.
  - cbn [greedy]. rewrite Hc. destruct IH as [r ->]. eauto.
Qed.

(** When the rest of the match cannot start with a character of the
    class, the repetition takes the whole run and never gives back. *)
Lemma greedy_commit p u s' k :
  all p u ->
  (forall c t, p c = true -> k (c :: t) = None) ->
  match s' with [] => True | c :: _ => p c = false end ->
  greedy p (u ++ s') k = k s'.
Proof.
  intros Hu Hk Hs. induction Hu as [|c u Hc Hu IH]; cbn [app].
  - destruct s' as [|c s']; [reflexivity|]. cbn [greedy]. now rewrite Hs.
  - cbn [greedy]. rewrite Hc, IH.
    destruct (k s'); [reflexivity|]. now apply Hk.
Qed.

Lemma exactly_sound n p s k res :
  exactly n p s k = Some res ->
  exists u s', s = u ++ s' /\ length u = n /\ all p u /\ k s' = Some res.
Proof.
  revert s. induction n as [|n IH]; intros s; cbn [exactly].
  - intros H. exists [], s. repeat split; [constructor | exact H].
  - destruct s as [|c s]; [discriminate|]. destruct (p c) eqn:Hc; [|discriminate].
    intros H. destruct (IH _ H) as (u & s' & -> & Hl & Hu & Hk).
    exists (c :: u), s'. repeat split; [cbn; lia | now constructor | exact Hk].
Qed.

Lemma exactly_app n p u s' k :
  length u = n -> all p u -> exactly n p (u ++ s') k = k s'.
Proof.
  intros <- Hu. induction Hu as [|c u Hc Hu IH]; [reflexivity|].
  cbn [length app exactly]. now rewrite Hc.
Qed.

Lemma match_atom_sound a s k res :
  match_atom a s k = Some res ->
  exists u s', s = u ++ s' /\ atom_lang a u /\ k s' = Some res.
Proof.
  destruct a as [t|p|p|n p]; cbn [match_atom atom_lang].
  - destruct (strip_prefix t s) as [s'|] eqn:E; [|discriminate].
    apply strip_prefix_spec in E. eauto.
  - apply greedy_sound.
  - destruct s as [|c s]; [discriminate|]. destruct (p c) eqn:Hc; [|discriminate].
    intros H. apply greedy_sound in H as (u & s' & -> & Hu & Hk).
    exists (c :: u), s'. repeat split; [discriminate | now constructor | exact Hk].
  - intros H. apply exactly_sound in H as (u & s' & -> & Hl & Hu & Hk). eauto 6.
Qed.

Lemma match_atom_complete a u s' k :
  atom_lang a u -> is_Some (k s') -> is_Some (match_atom a (u ++ s') k).
Proof.
  destruct a as [t|p|p|n p]; cbn [match_atom atom_lang].
  - intros -> Hk. now rewrite strip_prefix_app.
  - apply greedy_complete.
  - intros [Hne Hu] Hk. destruct Hu as [|c u Hc Hu]; [congruence|].
    cbn [app]. rewrite Hc. now apply greedy_complete.
  - intros [Hl Hu] Hk. now rewrite exactly_app.
Qed.

Lemma match_atoms_sound l s k res :
  match_atoms l s k = Some res ->
  exists u s', s = u ++ s' /\ atoms_lang l u /\ k s' = Some res.
Proof.
  revert s k. induction l as [|a l IH]; intros s k; cbn [match_atoms atoms_lang].
  - intros H. exists [], s. auto.
  - intros H. apply match_atom_sound in H as (u1 & s1 & -> & Ha & H).
    apply IH in H as (u2 & s2 & -> & Hl & Hk).
    exists (u1 ++ u2), s2. rewrite <- app_assoc. eauto 8.
Qed.

Lemma match_atoms_complete l u s' k :
  atoms_lang l u -> is_Some (k s') -> is_Some (match_atoms l (u ++ s') k).
Proof.
  revert u k. induction l as [|a l IH]; intros u k; cbn [match_atoms atoms_lang].
  - now intros ->.
  - intros (u1 & u2 & -> & Ha & Hl) Hk. rewrite <- app_assoc.
    apply match_atom_complete; [exact Ha|]. now apply IH.
Qed.
End MatcherLemmas.

Lemma match_seq_sound {R} (r : regex) s caps (k : chars -> list chars -> option R) res :
  match_seq r s caps k = Some res ->
  exists u s' c, s = u ++ s' /\ seq_lang r u c /\ k s' (caps ++ c) = Some res.
Proof.
  revert s caps. induction r as [|[a|body] r IH]; intros s caps;
    cbn [match_seq seq_lang].
  - intros H. exists [], s, []. rewrite app_nil_r. auto.
  - intros H. apply match_atom_sound in H as (u1 & s1 & -> & Ha & H).
    apply IH in H as (u2 & s2 & c & -> & Hr & Hk).
    exists (u1 ++ u2), s2, c. rewrite <- app_assoc. eauto 8.
  - intros H. apply match_atoms_sound in H as (u1 & s1 & -> & Hb & H).
    apply IH in H as (u2 & s2 & c & -> & Hr & Hk).
    exists (u1 ++ u2), s2, (u1 :: c). rewrite <- !app_assoc in *.
    split; [reflexivity|]. split; [eauto 8|].
    rewrite length_app, Nat.add_sub, take_app_length in Hk. exact Hk.
Qed.

Lemma match_seq_complete {R} (r : regex) u s' caps c
    (k : chars -> list chars -> option R) :
  seq_lang r u c -> is_Some (k s' (caps ++ c)) ->
  is_Some (match_seq r (u ++ s') caps k).
Proof.
  revert u caps c. induction r as [|[a|body] r IH]; intros u caps c;
    cbn [match_seq seq_lang].
  - intros [-> ->]. now rewrite app_nil_r.
  - intros (u1 & u2 & -> & Ha & Hr) Hk. rewrite <- app_assoc.
    apply match_atom_complete; [exact Ha|]. now apply (IH _ _ c).
  - intros (u1 & u2 & c' & -> & Hb & Hr & ->) Hk. rewrite <- app_assoc.
    apply match_atoms_complete; [exact Hb|].
    rewrite length_app, Nat.add_sub, take_app_length.
    apply (IH _ _ c'); [exact Hr|]. now rewrite <- app_assoc.
Qed.

Lemma match_here_sound r s caps :
  match_here r s = Some caps -> exists u s', s = u ++ s' /\ seq_lang r u caps.
Proof.
  intros H. apply match_seq_sound in H as (u & s' & c & -> & Hr & [= <-]). eauto.
Qed.

Lemma match_here_complete r u s' caps :
  seq_lang r u caps -> is_Some (match_here r (u ++ s')).
Proof. intros H. apply (match_seq_complete r u s' [] caps); eauto. Qed.

(** [search] returns the groups of the match at the leftmost position
    where a match starts. *)
Lemma search_Some r s caps :
  search r s = Some caps ->
  exists pre rest,
    s = pre ++ rest /\ match_here r rest = Some caps
    /\ forall pre' rest', s = pre' ++ rest' -> (length pre' < length pre)%nat ->
                          match_here r rest' = None.
Proof.
  induction s as [|c s IH]; cbn [search].
  - destruct (match_here r []) as [caps'|] eqn:E; [|discriminate].
    intros [= ->]. exists [], []. repeat split; [exact E|].
    intros pre' rest' _ Hl. cbn in Hl. lia.
  - destruct (match_here r (c :: s)) as [caps'|] eqn:E.
    + intros [= ->]. exists [], (c :: s). repeat split; [exact E|].
      intros pre' rest' _ Hl. cbn in Hl. lia.
    + intros H. destruct (IH H) as (pre & rest & -> & Hm & Hmin).
      exists (c :: pre), rest. repeat split; [exact Hm|].
      intros pre' rest' Heq Hl. destruct pre' as [|c' pre'].
      * cbn in Heq. now subst rest'.
      * injection Heq as _ Heq. apply (Hmin pre' rest' Heq). cbn in Hl. lia.
Qed.

Lemma search_None r s :
  search r s = None -> forall pre rest, s = pre ++ rest -> match_here r rest = None.
Proof.
  induction s as [|c s IH]; cbn [search].
  - destruct (match_here r []) eqn:E; [discriminate|].
    intros _ pre rest H. symmetry in H. apply app_eq_nil in H as [_ ->]. exact E.
  - destruct (match_here r (c :: s)) eqn:E; [discriminate|].
    intros H pre rest Heq. destruct pre as [|c' pre].
    + cbn in Heq. now subst rest.
    + injection Heq as _ Heq. now apply (IH H pre).
Qed.

Lemma search_is_Some r s pre rest :
  s = pre ++ rest -> is_Some (match_here r rest) -> is_Some (search r s).
Proof.
  intros Heq Hm. destruct (search r s) eqn:E; [eauto|].
  rewrite (search_None _ _ E _ _ Heq) in Hm. exact Hm.
Qed.

(** ** Discovery ([find_diff_files]) *)

(** *** The order on paths *)

Section LexicographicOrder.
Context {A : Type} (cmp : A -> A -> comparison).
Hypothesis cmp_opp : forall x y, cmp y x = CompOpp (cmp x y).
Hypothesis cmp_eq : forall x y, cmp x y = Eq -> x = y.
Hypothesis cmp_lt_trans : forall x y z, cmp x y = Lt -> cmp y z = Lt -> cmp x z = Lt.

Lemma lex_compare_opp l1 l2 :
  lex_compare cmp l2 l1 = CompOpp (lex_compare cmp l1 l2).
Proof using cmp_opp.
  revert l2. induction l1 as [|x l1 IH]; intros [|y l2]; try reflexivity.
  cbn [lex_compare]. rewrite (cmp_opp x y).
  destruct (cmp x y); cbn [CompOpp]; [apply IH | reflexivity | reflexivity].
Qed.

Lemma lex_compare_eq l1 l2 : lex_compare cmp l1 l2 = Eq -> l1 = l2.
Proof using cmp_eq.
  revert l2. induction l1 as [|x l1 IH]; intros [|y l2]; try discriminate;
    [reflexivity|].
  cbn [lex_compare]. destruct (cmp x y) eqn:E; try discriminate.
  intros H. apply cmp_eq in E as ->. f_equal. now apply IH.
Qed.

Lemma lex_compare_refl l : lex_compare cmp l l = Eq.
Proof using cmp_opp.
  induction l as [|x l IH]; [reflexivity|].
  cbn [lex_compare]. pose proof (cmp_opp x x) as H.
  destruct (cmp x x); cbn in H; try discriminate. exact IH.
Qed.

Lemma lex_compare_lt_trans l1 l2 l3 :
  lex_compare cmp l1 l2 = Lt -> lex_compare cmp l2 l3 = Lt ->
  lex_compare cmp l1 l3 = Lt.
Proof using cmp_eq cmp_lt_trans.
  revert l2 l3. induction l1 as [|x l1 IH]; intros [|y l2] [|z l3];
    try discriminate; try reflexivity.
  cbn [lex_compare].
  destruct (cmp x y) eqn:Exy; try discriminate;
    destruct (cmp y z) eqn:Eyz; try discriminate.
  - apply cmp_eq in Exy as ->. rewrite Eyz. apply IH.
  - apply cmp_eq in Exy as ->. now rewrite Eyz.
  - apply cmp_eq in Eyz as ->. now rewrite Exy.
  - now rewrite (cmp_lt_trans _ _ _ Exy Eyz).
Qed.
End LexicographicOrder.

Lemma char_compare_opp a b : char_compare b a = CompOpp (char_compare a b).
Proof. unfold char_compare. apply N.compare_antisym. Qed.

Lemma char_compare_eq a b : char_compare a b = Eq -> a = b.
Proof.
  unfold char_compare, code. intros H. apply N.compare_eq in H.
  rewrite <- (ascii_N_embedding a), <- (ascii_N_embedding b). now rewrite H.
Qed.

Lemma char_compare_lt_trans a b c :
  char_compare a b = Lt -> char_compare b c = Lt -> char_compare a c = Lt.
Proof. unfold char_compare. rewrite !N.compare_lt_iff. lia. Qed.

Lemma str_inj s t : str s = str t -> s = t.
Proof.
  unfold str. intros H.
  rewrite <- (string_of_list_ascii_of_string s), <- (string_of_list_ascii_of_string t).
  now rewrite H.
Qed.

Lemma str_compare_opp s t : str_compare t s = CompOpp (str_compare s t).
Proof. apply lex_compare_opp, char_compare_opp. Qed.

Lemma str_compare_eq s t : str_compare s t = Eq -> s = t.
Proof. intros H. apply str_inj. revert H. apply lex_compare_eq, char_compare_eq. Qed.

Lemma str_compare_lt_trans s t u :
  str_compare s t = Lt -> str_compare t u = Lt -> str_compare s u = Lt.
Proof.
  apply lex_compare_lt_trans; [apply char_compare_eq | apply char_compare_lt_trans].
Qed.

Lemma path_compare_opp p q : path_compare q p = CompOpp (path_compare p q).
Proof. apply lex_compare_opp, str_compare_opp. Qed.

Global Instance path_le_total : Total path_le.
Proof.
  intros p q. unfold path_le. rewrite (path_compare_opp p q).
  destruct (path_compare p q); cbn; [left | left | right]; congruence.
Qed.

Global Instance path_le_antisym : AntiSymm (=) path_le.
Proof.
  intros p q. unfold path_le. rewrite (path_compare_opp p q).
  destruct (path_compare p q) eqn:E; cbn; try congruence.
  intros _ _. revert E. apply lex_compare_eq, str_compare_eq.
Qed.

Global Instance path_le_trans : Transitive path_le.
Proof.
  intros p q r. unfold path_le.
  destruct (path_compare p q) eqn:Epq; try congruence; intros _.
  - apply lex_compare_eq in Epq as ->; [tauto | apply str_compare_eq].
  - destruct (path_compare q r) eqn:Eqr; try congruence; intros _.
    + apply lex_compare_eq in Eqr as ->; [|apply str_compare_eq]. congruence.
    + unfold path_compare in *.
      rewrite (lex_compare_lt_trans str_compare str_compare_eq str_compare_lt_trans
                 _ _ _ Epq Eqr). discriminate.
Qed.

(** *** The walk *)

Lemma node_induction (P : node -> Prop) :
  (forall entries, Forall (fun e => P (snd e)) entries -> P (Dir entries)) ->
  (forall c, P (File c)) -> P Locked -> P Dangling ->
  forall n, P n.
Proof.
  intros HD HF HL HG. fix IH 1.
  intros [entries|c| |]; [|apply HF|apply HL|apply HG].
  apply HD. induction entries as [|e entries IHe]; constructor; [apply IH | exact IHe].
Qed.

Lemma reaches_snoc n rel nm target :
  reaches n (rel ++ [nm]) target
  <-> exists entries, reaches n rel (Dir entries) /\ In (nm, target) entries.
Proof.
  split.
  - revert n. induction rel as [|x rel IH]; intros n H.
    + cbn in H. inversion H as [|entries nm' child rest tgt Hin Hr]; subst.
      inversion Hr; subst. exists entries. split; [constructor | exact Hin].
    + cbn in H. inversion H as [|entries nm' child rest tgt Hin Hr]; subst.
      destruct (IH _ Hr) as (entries' & Hr' & Hin').
      exists entries'. split; [|exact Hin']. econstructor; eauto.
  - intros (entries & Hr & Hin). revert n Hr.
    induction rel as [|x rel IH]; intros n Hr.
    + inversion Hr; subst. cbn. econstructor; [exact Hin | constructor].
    + inversion Hr as [|entries' nm' child rest tgt Hin' Hr']; subst.
      cbn. econstructor; [exact Hin' | now apply IH].
Qed.

Lemma os_walk_spec here n root dirs files :
  In (root, dirs, files) (os_walk here n)
  <-> exists rel entries,
        reaches n rel (Dir entries)
        /\ root = here ++ rel
        /\ dirs = map fst (List.filter (fun e => is_dir (snd e)) entries)
        /\ files = map fst (List.filter (fun e => negb (is_dir (snd e))) entries).
Proof.
  split.
  - revert here. induction n as [entries IH| | |] using node_induction;
      intros here H; try (now destruct H).
    cbn [os_walk] in H. destruct H as [H|H].
    + injection H as <- <- <-. exists [], entries.
      rewrite app_nil_r. repeat split. constructor.
    + apply in_flat_map in H as ([nm child] & Hin & Hw). cbn [fst snd] in Hw.
      rewrite Forall_forall in IH.
      destruct (IH (nm, child) ltac:(now apply list_elem_of_In) _ Hw)
        as (rel & entries' & Hr & -> & -> & ->).
      exists (nm :: rel), entries'. rewrite <- app_assoc. repeat split.
      econstructor; eauto.
  - intros (rel & entries & Hr & -> & -> & ->). revert here.
    remember (Dir entries) as target eqn:Ht.
    induction Hr as [n|entries' nm child rest target Hin Hr IH]; intros here.
    + subst n. rewrite app_nil_r. cbn [os_walk]. now left.
    + cbn [os_walk]. right. apply in_flat_map. exists (nm, child).
      split; [exact Hin|]. cbn [fst snd].
      replace (here ++ nm :: rest) with ((here ++ [nm]) ++ rest)
        by now rewrite <- app_assoc.
      now apply IH.
Qed.

Lemma file_entry_spec (entries : list (string * node)) file :
  In file (map fst (List.filter (fun e => negb (is_dir (snd e))) entries))
  <-> exists child, In (file, child) entries /\ is_dir child = false.
Proof.
  rewrite in_map_iff. split.
  - intros ([nm child] & <- & H). apply filter_In in H as [Hin Hd].
    exists child. split; [exact Hin|]. cbn in Hd. now destruct (is_dir child).
  - intros (child & Hin & Hd). exists (file, child). split; [reflexivity|].
    apply filter_In. split; [exact Hin|]. cbn. now rewrite Hd.
Qed.

Lemma name_snoc (p : path) nm : name (p ++ [nm]) = nm.
Proof. unfold name. apply last_last. Qed.

(** The test ['diff' in file.lower()] finds the marker in any letter
    case. *)
Lemma has_marker_spec file_name :
  has_marker file_name = true <-> carries_marker file_name.
Proof.
  unfold has_marker, carries_marker. rewrite contains_spec. split.
  - intros (pre & post & H).
    apply map_eq_app in H as (pre0 & rest & -> & <- & H).
    apply map_eq_app in H as (u & post0 & -> & Hu & <-).
    exists pre0, u, post0. now split.
  - intros (pre & u & post & -> & Hu).
    exists (lower pre), (lower post). unfold lower in *.
    now rewrite !map_app, Hu.
Qed.

(** The files the walk collects, before they are sorted. *)
Lemma collected_spec fs base p :
  In p (flat_map
          (fun w =>
             let '(root, _, files) := w in
             map (fun file => root ++ [file])
                 (List.filter (fun file => contains diff_marker (lower (str file))) files))
          (walk_from fs base))
  <-> file_below fs base p /\ carries_marker (name p).
Proof.
  rewrite <- has_marker_spec.
  rewrite in_flat_map. unfold walk_from, file_below. split.
  - intros ([[root dirs] files] & Hw & Hp).
    destruct (resolve fs base) as [top| |] eqn:Htop; try now destruct Hw.
    apply os_walk_spec in Hw as (rel & entries & Hr & -> & _ & ->).
    apply in_map_iff in Hp as (file & <- & Hf).
    apply filter_In in Hf as [Hf Hm].
    apply file_entry_spec in Hf as (child & Hin & Hd).
    split.
    + exists top, rel, file, child. repeat split; try assumption.
      * apply reaches_snoc. eauto.
      * now rewrite <- app_assoc.
    + rewrite name_snoc. exact Hm.
  - intros [(top & rel & nm & target & Htop & Hr & Hd & ->) Hm].
    rewrite Htop. apply reaches_snoc in Hr as (entries & Hr & Hin).
    eexists (base ++ rel, _, _). split.
    + apply os_walk_spec. exists rel, entries. repeat split. exact Hr.
    + apply in_map_iff. exists nm. split; [now rewrite <- app_assoc|].
      apply filter_In. split.
      * apply file_entry_spec. eauto.
      * rewrite app_assoc, name_snoc in Hm. exact Hm.
Qed.

(** *** Each file once *)

Lemma find_diff_files_collect fs base :
  find_diff_files fs base
  = sorted_paths match resolve fs base with
                 | Here top => collect base top
                 | _ => []
                 end.
Proof.
  unfold find_diff_files, walk_from, collect.
  destruct (resolve fs base); reflexivity.
Qed.

Lemma flat_map_flat_map {A B C} (f : B -> list C) (g : A -> list B) l :
  flat_map f (flat_map g l) = flat_map (fun x => flat_map f (g x)) l.
Proof.
  induction l as [|x l IH]; [reflexivity|].
  cbn [flat_map]. now rewrite flat_map_app, IH.
Qed.

Lemma collect_dir here entries :
  collect here (Dir entries)
  = map (fun file => here ++ [file])
        (List.filter has_marker
           (map fst (List.filter (fun e => negb (is_dir (snd e))) entries)))
    ++ flat_map (fun e => collect (here ++ [fst e]) (snd e)) entries.
Proof.
  unfold collect at 1. cbn [os_walk flat_map]. f_equal.
  apply flat_map_flat_map.
Qed.

Lemma collect_shape here n p :
  In p (collect here n) -> exists rel file, p = here ++ rel ++ [file].
Proof.
  unfold collect. rewrite in_flat_map.
  intros ([[root dirs] files] & Hw & Hp).
  apply os_walk_spec in Hw as (rel & entries & _ & -> & _ & _).
  apply in_map_iff in Hp as (file & <- & _).
  exists rel, file. now rewrite <- app_assoc.
Qed.

Lemma NoDup_filter_names (p : string * node -> bool) (entries : list (string * node)) :
  NoDup (map fst entries) -> NoDup (map fst (List.filter p entries)).
Proof.
  induction entries as [|e entries IH]; [intros _; constructor|].
  cbn [map List.filter]. rewrite NoDup_cons. intros [Hn Hd].
  destruct (p e); [|now apply IH].
  cbn [map]. apply NoDup_cons. split; [|now apply IH].
  intros Hin. apply Hn.
  apply list_elem_of_In, in_map_iff in Hin as (e' & He & Hin).
  apply filter_In in Hin as [Hin _].
  apply list_elem_of_In, in_map_iff. eauto.
Qed.

Lemma NoDup_filter_list {A} (p : A -> bool) (l : list A) :
  NoDup l -> NoDup (List.filter p l).
Proof.
  induction l as [|x l IH]; [intros _; constructor|].
  rewrite NoDup_cons. intros [Hn Hd]. cbn [List.filter].
  destruct (p x); [|now apply IH].
  apply NoDup_cons. split; [|now apply IH].
  intros Hin. apply Hn. apply list_elem_of_In, filter_In in Hin as [Hin _].
  now apply list_elem_of_In.
Qed.

Lemma NoDup_collect n :
  well_formed n -> forall here, NoDup (collect here n).
Proof.
  induction n as [entries IH| | |] using node_induction;
    intros Hwf here; try constructor.
  inversion Hwf as [entries' Hnames Hsub| | |]; subst entries'.
  rewrite collect_dir. apply NoDup_app. split; [|split].
  - apply NoDup_fmap_2.
    + intros f1 f2 H. apply app_inv_head in H. now injection H.
    + apply NoDup_filter_list. now apply NoDup_filter_names.
  - intros p Hp Hq.
    apply list_elem_of_In, in_map_iff in Hp as (file & <- & _).
    apply list_elem_of_In, in_flat_map in Hq as (e & _ & Hq).
    apply collect_shape in Hq as (rel & file' & Hq).
    rewrite <- app_assoc in Hq. apply app_inv_head in Hq.
    cbn in Hq. injection Hq as _ Hq. now destruct rel.
  - clear Hwf. induction entries as [|e entries IHe]; [constructor|].
    cbn [flat_map]. cbn [map] in Hnames. apply NoDup_cons in Hnames as [Hn Hd].
    apply Forall_cons in IH as [IH1 IH2]. apply Forall_cons in Hsub as [Hs1 Hs2].
    apply NoDup_app. split; [|split].
    + now apply IH1.
    + intros p Hp Hq. apply Hn.
      apply list_elem_of_In, collect_shape in Hp as (rel & file & ->).
      apply list_elem_of_In, in_flat_map in Hq as (e' & He' & Hq).
      apply collect_shape in Hq as (rel' & file' & Hq).
      rewrite <- !app_assoc in Hq. apply app_inv_head in Hq.
      cbn in Hq. injection Hq as -> _.
      apply list_elem_of_In, in_map_iff. eauto.
    + now apply IHe.
Qed.

Lemma well_formed_resolve fs base top :
  well_formed fs -> resolve fs base = Here top -> well_formed top.
Proof.
  revert fs. induction base as [|nm base IH]; intros fs Hwf.
  - cbn. now intros [= <-].
  - cbn [resolve]. destruct fs as [entries| | |]; try discriminate.
    destruct (assoc nm entries) as [child|] eqn:E; [|discriminate].
    apply IH. inversion Hwf as [entries' _ Hsub| | |]; subst entries'.
    rewrite Forall_forall in Hsub.
    apply (Hsub (nm, child)), list_elem_of_In, assoc_In, E.
Qed.

Lemma NoDup_find_diff_files fs base :
  well_formed fs -> NoDup (find_diff_files fs base).
Proof.
  intros Hwf. rewrite find_diff_files_collect. unfold sorted_paths.
  rewrite merge_sort_Permutation.
  destruct (resolve fs base) as [top| |] eqn:E; try constructor.
  apply NoDup_collect. eapply well_formed_resolve; eauto.
Qed.

(** C9.  Discovery returns the files below the root, at any depth, whose
    name contains [diff] in any letter case, and no other path; the list is
    sorted in the order of paths; in a tree where no directory lists a name
    twice it holds each of these files once, so that it is the same list
    for every tree with the same files below the root, whatever the order
    in which the directories list them, and the same on a second run. *)
Theorem find_diff_files_spec fs base :
  (forall p, In p (find_diff_files fs base)
             <-> file_below fs base p /\ carries_marker (name p))
  /\ StronglySorted path_le (find_diff_files fs base)
  /\ (well_formed fs -> NoDup (find_diff_files fs base))
  /\ (forall fs',
        well_formed fs -> well_formed fs' ->
        (forall p, file_below fs' base p <-> file_below fs base p) ->
        find_diff_files fs' base = find_diff_files fs base).
Proof.
  assert (forall fs0 p, In p (find_diff_files fs0 base)
             <-> file_below fs0 base p /\ carries_marker (name p)) as Hmem.
  { intros fs0 p. rewrite <- collected_spec. unfold find_diff_files, sorted_paths.
    rewrite <- !list_elem_of_In. now rewrite merge_sort_Permutation. }
  assert (forall fs0, StronglySorted path_le (find_diff_files fs0 base)) as Hsorted.
  { intros fs0. unfold find_diff_files, sorted_paths.
    apply StronglySorted_merge_sort; apply _. }
  split; [apply Hmem|]. split; [apply Hsorted|].
  split; [apply NoDup_find_diff_files|].
  intros fs' Hwf Hwf' Hsame.
  apply (StronglySorted_unique path_le); [apply Hsorted | apply Hsorted |].
  apply NoDup_Permutation; try now apply NoDup_find_diff_files.
  intros p. rewrite !list_elem_of_In, !Hmem, Hsame. reflexivity.
Qed.

Lemma reaches_same_entries e1 e2 nm rest target :
  (forall x, In x e1 <-> In x e2) ->
  reaches (Dir e1) (nm :: rest) target <-> reaches (Dir e2) (nm :: rest) target.
Proof.
  intros H. split; intros Hr;
    inversion Hr as [|entries nm' child rest' tgt Hin Hr']; subst;
    econstructor; eauto; now apply H.
Qed.

Lemma file_below_same_listing e1 e2 p :
  (forall x, In x e1 <-> In x e2) ->
  file_below (under_home e1) scenario_base p
  <-> file_below (under_home e2) scenario_base p.
Proof.
  intros H. unfold file_below.
  change (resolve (under_home e1) scenario_base) with (Here (Dir e1)).
  change (resolve (under_home e2) scenario_base) with (Here (Dir e2)).
  split; intros (top & rel & nm & target & [= <-] & Hr & Hd & ->);
    eexists _, rel, nm, target; (split; [reflexivity|]); (split; [|now split]).
  - destruct rel; cbn in *; now apply (reaches_same_entries e1 e2).
  - destruct rel; cbn in *; now apply (reaches_same_entries e1 e2).
Qed.

Lemma well_formed_under_home entries :
  NoDup (map fst entries) ->
  Forall (fun e => well_formed (snd e)) entries ->
  well_formed (under_home entries).
Proof.
  intros Hn Hs. unfold under_home.
  repeat (constructor; [apply NoDup_singleton|]; constructor; [|constructor]);
    cbn [snd].
  now constructor.
Qed.

Lemma find_diff_files_spec_witness :
  find_diff_files fs_listed_backwards scenario_base
  = find_diff_files fs_listed scenario_base
  /\ NoDup (find_diff_files fs_listed scenario_base).
Proof.
  destruct (find_diff_files_spec fs_listed scenario_base) as (_ & _ & Hnodup & Hsame).
  assert (well_formed fs_listed) as Hwf.
  { apply well_formed_under_home.
    - apply (bool_decide_unpack _). vm_compute. exact I.
    - repeat constructor. }
  split; [|exact (Hnodup Hwf)].
  apply Hsame; [exact Hwf | |].
  - apply well_formed_under_home.
    + apply (bool_decide_unpack _). vm_compute. exact I.
    + repeat constructor.
  - intros p. apply file_below_same_listing. intros x. symmetry. apply in_rev.
Defined.

(** ** The identity extractor ([extract_subscription_id]) *)

Lemma is_hex_lower_char c : is_hex (lower_char c) = is_hex_any_case c.
Proof. destruct c as [[] [] [] [] [] [] [] []]; vm_compute; reflexivity. Qed.

Lemma lower_char_hyphen c : lower_char c = "-"%char -> c = "-"%char.
Proof. destruct c as [[] [] [] [] [] [] [] []]; vm_compute; congruence. Qed.

Lemma lower_app u v : lower (u ++ v) = lower u ++ lower v.
Proof. apply map_app. Qed.

Lemma length_lower u : length (lower u) = length u.
Proof. apply length_map. Qed.

Lemma lower_hyphen : lower hyphen = hyphen.
Proof. reflexivity. Qed.

Lemma lower_eq_hyphen u : lower u = hyphen -> u = hyphen.
Proof.
  destruct u as [|c [|c' u]]; try discriminate.
  cbn. intros [= H]. now rewrite (lower_char_hyphen c H).
Qed.

Lemma all_hex_lower u : all is_hex (lower u) <-> all is_hex_any_case u.
Proof.
  unfold all, lower. rewrite Forall_map.
  split; intros H; (eapply Forall_impl; [exact H|]); intros c; cbn;
    now rewrite is_hex_lower_char.
Qed.

Lemma lower_hex_block n u :
  (length (lower u) = n /\ all is_hex (lower u)) <-> hex_block n u.
Proof. unfold hex_block. now rewrite length_lower, all_hex_lower. Qed.

(** The texts the body of the pattern matches, once lower-cased, are the
    UUID-shaped ones. *)
Lemma uuid_atoms_lower u : atoms_lang uuid_atoms (lower u) <-> uuid_shaped u.
Proof.
  unfold uuid_shaped, uuid_atoms. cbn [atoms_lang atom_lang]. fold hyphen. split.
  - intros (x1 & r1 & E1 & H1 & x2 & r2 & -> & -> & x3 & r3 & -> & H3
            & x4 & r4 & -> & -> & x5 & r5 & -> & H5 & x6 & r6 & -> & ->
            & x7 & r7 & -> & H7 & x8 & r8 & -> & -> & x9 & r9 & -> & H9 & ->).
    rewrite app_nil_r in E1.
    apply map_eq_app in E1 as (a & t1 & -> & <- & E).
    apply map_eq_app in E as (h1 & t2 & -> & Eh1 & E).
    apply map_eq_app in E as (b & t3 & -> & <- & E).
    apply map_eq_app in E as (h2 & t4 & -> & Eh2 & E).
    apply map_eq_app in E as (c & t5 & -> & <- & E).
    apply map_eq_app in E as (h3 & t6 & -> & Eh3 & E).
    apply map_eq_app in E as (d & t7 & -> & <- & E).
    apply map_eq_app in E as (h4 & e & -> & Eh4 & <-).
    apply lower_eq_hyphen in Eh1 as ->. apply lower_eq_hyphen in Eh2 as ->.
    apply lower_eq_hyphen in Eh3 as ->. apply lower_eq_hyphen in Eh4 as ->.
    exists a, b, c, d, e. split; [reflexivity|].
    do 4 (split; [apply lower_hex_block; assumption|]).
    apply lower_hex_block; assumption.
  - intros (a & b & c & d & e & -> & Ha & Hb & Hc & Hd & He).
    rewrite !lower_app, !lower_hyphen.
    apply lower_hex_block in Ha, Hb, Hc, Hd, He.
    exists (lower a), (hyphen ++ lower b ++ hyphen ++ lower c ++ hyphen ++ lower d
                         ++ hyphen ++ lower e).
    split; [reflexivity|]. split; [exact Ha|].
    eexists hyphen, _. split; [reflexivity|]. split; [reflexivity|].
    eexists (lower b), _. split; [reflexivity|]. split; [exact Hb|].
    eexists hyphen, _. split; [reflexivity|]. split; [reflexivity|].
    eexists (lower c), _. split; [reflexivity|]. split; [exact Hc|].
    eexists hyphen, _. split; [reflexivity|]. split; [reflexivity|].
    eexists (lower d), _. split; [reflexivity|]. split; [exact Hd|].
    eexists hyphen, _. split; [reflexivity|]. split; [reflexivity|].
    exists (lower e), []. rewrite app_nil_r. auto.
Qed.

Lemma uuid_shaped_length u : uuid_shaped u -> length u = 36%nat.
Proof.
  intros (a & b & c & d & e & -> & [Ha _] & [Hb _] & [Hc _] & [Hd _] & [He _]).
  rewrite !length_app, Ha, Hb, Hc, Hd, He. reflexivity.
Qed.

Lemma uuid_pattern_lang v caps :
  seq_lang uuid_pattern v caps <-> atoms_lang uuid_atoms v /\ caps = [v].
Proof.
  unfold uuid_pattern. cbn [seq_lang]. split.
  - intros (u1 & u2 & c' & -> & H & [-> ->] & ->). now rewrite app_nil_r.
  - intros [H ->]. exists v, [], []. now rewrite app_nil_r.
Qed.

(** Where a UUID-shaped block starts, the pattern matches the lower-cased
    text and captures the lower-cased block. *)
Lemma match_here_uuid u post :
  uuid_shaped u ->
  match_here uuid_pattern (lower (u ++ post)) = Some [lower u].
Proof.
  intros Hu. rewrite lower_app.
  destruct (match_here_complete uuid_pattern (lower u) (lower post) [lower u])
    as [caps Hm].
  { apply uuid_pattern_lang. now rewrite uuid_atoms_lower. }
  rewrite Hm. f_equal.
  apply match_here_sound in Hm as (v & s' & Heq & Hv).
  apply uuid_pattern_lang in Hv as [Hv ->]. f_equal.
  assert (length v = length (lower u)) as Hl.
  { rewrite length_lower, (uuid_shaped_length u Hu).
    destruct (map_eq_app lower_char (u ++ post) v s') as (v0 & s0 & _ & <- & _).
    { now rewrite <- Heq, <- lower_app. }
    fold (lower v0). rewrite length_lower. apply uuid_shaped_length.
    now apply uuid_atoms_lower. }
  apply (f_equal (take (length v))) in Heq.
  rewrite take_app_length in Heq. rewrite Hl, take_app_length in Heq. congruence.
Qed.

(** Where the pattern matches the lower-cased text, a UUID-shaped block
    starts in the text. *)
Lemma match_here_uuid_inv s caps :
  match_here uuid_pattern (lower s) = Some caps ->
  exists u post, s = u ++ post /\ uuid_shaped u.
Proof.
  intros Hm. apply match_here_sound in Hm as (v & s' & Heq & Hv).
  apply uuid_pattern_lang in Hv as [Hv _].
  apply map_eq_app in Heq as (u & post & -> & <- & _).
  exists u, post. split; [reflexivity|]. now apply uuid_atoms_lower.
Qed.

Lemma lower_split s pre rest :
  lower s = pre ++ rest ->
  exists pre0 rest0, s = pre0 ++ rest0 /\ lower pre0 = pre /\ lower rest0 = rest.
Proof. apply map_eq_app. Qed.

(** C6.  For a file name that contains a UUID-shaped block (32 hexadecimal
    digits in groups of 8, 4, 4, 4 and 12 with hyphens, in any letter case)
    [extract_subscription_id] returns the first such block, lower-cased;
    for a file name without one it returns [None].  It is a function of the
    file name alone. *)
Theorem extract_subscription_id_spec (filename : string) :
  (forall i u,
      occurs_at u (str filename) i -> uuid_shaped u ->
      (forall j v, occurs_at v (str filename) j -> uuid_shaped v -> (i <= j)%nat) ->
      extract_subscription_id filename = Some (of_chars (lower u)))
  /\ ((forall i u, occurs_at u (str filename) i -> ~ uuid_shaped u) ->
      extract_subscription_id filename = None).
Proof.
  unfold extract_subscription_id. split.
  - intros i u (pre & post & Hs & Hi) Hu Hmin.
    pose proof (match_here_uuid u post Hu) as Hm.
    destruct (search uuid_pattern (lower (str filename))) as [caps|] eqn:E.
    2:{ rewrite (search_None _ _ E (lower pre) (lower (u ++ post))) in Hm;
          [discriminate | now rewrite Hs, lower_app]. }
    apply search_Some in E as (pre0 & rest0 & Heq & Hm0 & Hleft).
    apply lower_split in Heq as (pre1 & rest1 & Heq & <- & <-).
    destruct (match_here_uuid_inv _ _ Hm0) as (v & post1 & -> & Hv).
    assert (length pre1 = length pre) as Hlen.
    { assert (i <= length pre1)%nat as Hle.
      { apply (Hmin _ v); [|exact Hv]. now exists pre1, post1. }
      destruct (Nat.lt_ge_cases (length (lower pre)) (length (lower pre1)))
        as [Hlt|Hge]; [|rewrite !length_lower in Hge; lia].
      rewrite (Hleft (lower pre) (lower (u ++ post))) in Hm;
        [discriminate | now rewrite Hs, lower_app | exact Hlt]. }
    assert (pre1 = pre) as ->.
    { rewrite Heq in Hs. apply (f_equal (take (length pre))) in Hs.
      rewrite take_app_length in Hs. rewrite <- Hlen, take_app_length in Hs.
      exact Hs. }
    rewrite Heq in Hs. apply app_inv_head in Hs. rewrite Hs in Hm0.
    rewrite Hm in Hm0. now injection Hm0 as <-.
  - intros Hnone.
    destruct (search uuid_pattern (lower (str filename))) as [caps|] eqn:E;
      [|reflexivity].
    exfalso. apply search_Some in E as (pre0 & rest0 & Heq & Hm0 & _).
    apply lower_split in Heq as (pre1 & rest1 & Heq & <- & <-).
    destruct (match_here_uuid_inv _ _ Hm0) as (v & post1 & -> & Hv).
    apply (Hnone (length pre1) v); [|exact Hv]. now exists pre1, post1.
Qed.

Lemma extract_subscription_id_spec_witness :
  extract_subscription_id "1111AAAA-2222-bbbb-3333-ccccDDDD4444-diff.txt" = Some scenario_id
  /\ extract_subscription_id "costs-diff.txt" = None.
Proof.
  split.
  - destruct (extract_subscription_id_spec "1111AAAA-2222-bbbb-3333-ccccDDDD4444-diff.txt")
      as [Hfirst _].
    rewrite (Hfirst 0%nat (str "1111AAAA-2222-bbbb-3333-ccccDDDD4444")).
    + reflexivity.
    + exists [], (str "-diff.txt"). split; reflexivity.
    + exists (str "1111AAAA"), (str "2222"), (str "bbbb"), (str "3333"),
        (str "ccccDDDD4444").
      split; [reflexivity|].
      repeat split; repeat constructor.
    + intros j v _ _. lia.
  - destruct (extract_subscription_id_spec "costs-diff.txt") as [_ Hnone].
    apply Hnone. intros i u (pre & post & Heq & _) Hu.
    apply uuid_shaped_length in Hu. apply (f_equal length) in Heq.
    rewrite !length_app, Hu in Heq. cbn in Heq. lia.
Defined.

(** ** The comparison extractor ([parse_diff_text_file]) *)

Ltac peel_all :=
  repeat match goal with
         | H : exists _, _ |- _ => destruct H as (? & H)
         | H : _ /\ _ |- _ => destruct H as (? & H)
         end.

(** The texts the pattern matches are the rows, and its two groups are the
    two figures. *)
Lemma row_pattern_lang a dec :
  (forall e, atom_lang a e <-> dec e) ->
  forall u caps,
    seq_lang (row_pattern a) u caps
    <-> exists f1 f2, caps = [f1; f2] /\ total_costs_row dec u f1 f2.
Proof.
  intros Ha u caps. unfold row_pattern, total_costs_row, figure.
  cbn [seq_lang atoms_lang atom_lang]. split.
  - intros H. peel_all. subst. rewrite !app_nil_r.
    eexists _, _. split; [reflexivity|]. do 7 eexists.
    split; [reflexivity|].
    split; [eexists _, _; split; [reflexivity|]; repeat split;
            try assumption; now apply Ha|].
    split; [eexists _, _; split; [reflexivity|]; repeat split;
            try assumption; now apply Ha|].
    repeat split; assumption.
  - intros (f1 & f2 & -> & w1 & w2 & w3 & w4 & w5 & w6 & w7 & -> & Hf1 & Hf2
            & H1 & H2 & H3 & H4 & H5 & H6 & H7).
    destruct Hf1 as (d1 & e1 & -> & Hd1 & Hd1' & He1).
    destruct Hf2 as (d2 & e2 & -> & Hd2 & Hd2' & He2).
    assert (forall d e, d <> [] -> all is_digit_or_comma d -> dec e ->
              exists u1 u2, d ++ str "." ++ e = u1 ++ u2
                /\ (u1 <> [] /\ all is_digit_or_comma u1)
                /\ exists u3 u4, u2 = u3 ++ u4 /\ u3 = str "."
                   /\ exists u5 u6, u4 = u5 ++ u6 /\ atom_lang a u5 /\ u6 = [])
      as Hfig.
    { intros d e Hd Hd' He. exists d, (str "." ++ e). repeat split; try assumption.
      exists (str "."), e. repeat split.
      exists e, []. rewrite app_nil_r. repeat split. now apply Ha. }
    eexists (str "|"), _. split; [reflexivity|]. split; [reflexivity|].
    eexists w1, _. split; [reflexivity|]. split; [assumption|].
    eexists (str "TOTAL COSTS"), _. split; [reflexivity|]. split; [reflexivity|].
    eexists w2, _. split; [reflexivity|]. split; [assumption|].
    eexists (str "|"), _. split; [reflexivity|]. split; [reflexivity|].
    eexists w3, _. split; [reflexivity|]. split; [assumption|].
    eexists (d1 ++ str "." ++ e1), _, [d2 ++ str "." ++ e2].
    split; [reflexivity|]. split; [now apply Hfig|]. split; [|reflexivity].
    eexists w4, _. split; [reflexivity|]. split; [assumption|].
    eexists (str "EUR"), _. split; [reflexivity|]. split; [reflexivity|].
    eexists w5, _. split; [reflexivity|]. split; [assumption|].
    eexists (str "|"), _. split; [reflexivity|]. split; [reflexivity|].
    eexists w6, _. split; [reflexivity|]. split; [assumption|].
    eexists (d2 ++ str "." ++ e2), _, [].
    split; [reflexivity|]. split; [now apply Hfig|]. split; [|reflexivity].
    eexists w7, _. split; [reflexivity|]. split; [assumption|].
    exists (str "EUR"), []. repeat split.
Qed.

Lemma total_costs_pattern_lang u caps :
  seq_lang total_costs_pattern u caps
  <-> exists f1 f2, caps = [f1; f2] /\ total_costs_row some_decimals u f1 f2.
Proof. apply (row_pattern_lang (Many1 is_digit)). reflexivity. Qed.

Lemma two_decimal_pattern_lang u caps :
  seq_lang (row_pattern (Exactly 2 is_digit)) u caps
  <-> exists f1 f2, caps = [f1; f2] /\ total_costs_row two_decimals u f1 f2.
Proof. apply (row_pattern_lang (Exactly 2 is_digit)). reflexivity. Qed.

(** *** One row at an offset *)

Lemma run_unique p x x' r r' :
  all p x -> all p x' -> stops p r -> stops p r' ->
  x ++ r = x' ++ r' -> x = x' /\ r = r'.
Proof.
  revert x'. induction x as [|c x IH]; intros x' Hx Hx' Hr Hr' H.
  - destruct x' as [|c' x']; [now split|].
    cbn in H. subst r. apply Forall_cons in Hx' as [Hc' _]. cbn in Hr. congruence.
  - apply Forall_cons in Hx as [Hc Hx]. destruct x' as [|c' x'].
    + cbn in H. subst r'. cbn in Hr'. congruence.
    + apply Forall_cons in Hx' as [Hc' Hx']. cbn in H. injection H as -> H.
      destruct (IH x' Hx Hx' Hr Hr' H) as [-> ->]. now split.
Qed.

Lemma stops_after_run p q x c r :
  (forall a, q a = true -> p a = false) ->
  all q x -> p c = false -> stops p (x ++ c :: r).
Proof. intros Hpq Hx Hc. destruct Hx; cbn; auto. Qed.

Lemma stops_before_run p q x r :
  (forall a, q a = true -> p a = false) ->
  x <> [] -> all q x -> stops p (x ++ r).
Proof. intros Hpq Hne Hx. destruct Hx; [congruence|]. cbn. auto. Qed.

Lemma space_not_digit c : is_space c = true -> is_digit c = false.
Proof. destruct c as [[] [] [] [] [] [] [] []]; vm_compute; congruence. Qed.

Lemma digit_or_comma_not_space c : is_digit_or_comma c = true -> is_space c = false.
Proof. destruct c as [[] [] [] [] [] [] [] []]; vm_compute; congruence. Qed.

Ltac peel_chars H := repeat (injection H as H).
Ltac peel_spaces H :=
  apply (run_unique is_space) in H as [-> H];
  [ | assumption | assumption
    | first [ reflexivity
            | apply (stops_before_run _ is_digit_or_comma);
              [apply digit_or_comma_not_space | assumption | assumption] ]
    | first [ reflexivity
            | apply (stops_before_run _ is_digit_or_comma);
              [apply digit_or_comma_not_space | assumption | assumption] ] ].
Ltac peel_figure H :=
  apply (run_unique is_digit_or_comma) in H as [-> H];
  [ | assumption | assumption | reflexivity | reflexivity ];
  peel_chars H;
  apply (run_unique is_digit) in H as [-> H];
  [ | assumption | assumption
    | apply (stops_after_run _ is_space);
      [apply space_not_digit | assumption | reflexivity]
    | apply (stops_after_run _ is_space);
      [apply space_not_digit | assumption | reflexivity] ].

Lemma row_unique u f1 f2 post u' f1' f2' post' :
  total_costs_row some_decimals u f1 f2 ->
  total_costs_row some_decimals u' f1' f2' ->
  u ++ post = u' ++ post' ->
  f1 = f1' /\ f2 = f2'.
Proof.
  intros (w1 & w2 & w3 & w4 & w5 & w6 & w7 & -> & (d1 & e1 & -> & Hd1 & Hd1' & He1 & He1')
          & (d2 & e2 & -> & Hd2 & Hd2' & He2 & He2') & H1 & H2 & H3 & H4 & H5 & H6 & H7).
  intros (v1 & v2 & v3 & v4 & v5 & v6 & v7 & -> & (a1 & b1 & -> & Ha1 & Ha1' & Hb1 & Hb1')
          & (a2 & b2 & -> & Ha2 & Ha2' & Hb2 & Hb2') & G1 & G2 & G3 & G4 & G5 & G6 & G7).
  intros H. rewrite <- !app_assoc in H. cbn in H.
  injection H as H. peel_spaces H.
  peel_chars H. peel_spaces H. injection H as H. peel_spaces H.
  peel_figure H.
  peel_spaces H. peel_chars H. peel_spaces H. injection H as H. peel_spaces H.
  peel_figure H.
  split; reflexivity.
Qed.

(** *** The value of a figure *)

Lemma numeral_char_facts c :
  is_numeral_char c = true ->
  Ascii.eqb c "_" = false /\ is_float_space c = false
  /\ take_sign [c] = (false, [c])
  /\ lower_char c <> "i"%char /\ lower_char c <> "n"%char.
Proof.
  destruct c as [[] [] [] [] [] [] [] []]; vm_compute; intros H;
    try discriminate H; repeat split; discriminate.
Qed.

Lemma take_sign_numeral c r :
  is_numeral_char c = true -> take_sign (c :: r) = (false, c :: r).
Proof.
  intros H. apply numeral_char_facts in H as (_ & _ & H & _).
  destruct c as [[] [] [] [] [] [] [] []]; try reflexivity; vm_compute in H; discriminate.
Qed.

Lemma span_run p x r : all p x -> stops p r -> span p (x ++ r) = (x, r).
Proof.
  intros Hx Hr. induction Hx as [|c y Hc Hy IH]; cbn [app span].
  - destruct r as [|c r]; [reflexivity|]. cbn in Hr. cbn [span]. now rewrite Hr.
  - now rewrite Hc, IH.
Qed.

Lemma span_stops p r : stops p r -> span p r = ([], r).
Proof. intros H. apply (span_run p []); [constructor | exact H]. Qed.

Lemma drop_underscores_plain prev s :
  Forall (fun c => Ascii.eqb c "_" = false) s -> prev <> Some "_"%char ->
  drop_underscores prev s = Some s.
Proof.
  intros Hs. revert prev. induction Hs as [|c s Hc Hs IH]; intros prev Hp.
  - cbn. now rewrite bool_decide_eq_false_2.
  - cbn [drop_underscores]. rewrite Hc.
    rewrite (bool_decide_eq_false_2 _ Hp). cbn [andb].
    rewrite IH; [reflexivity|]. intros [= ->]. discriminate.
Qed.

Lemma strip_plain s :
  stops is_float_space s -> stops is_float_space (rev s) -> strip s = s.
Proof.
  intros H1 H2. unfold strip. rewrite (span_stops _ _ H1). cbn [snd].
  rewrite (span_stops _ _ H2). cbn [snd]. apply rev_involutive.
Qed.

Lemma eqb_chars_head c s c' t : c <> c' -> eqb_chars (c :: s) (c' :: t) = false.
Proof. intros H. apply bool_decide_eq_false_2. congruence. Qed.

Lemma parse_inf_nan_numeral c r :
  is_numeral_char c = true -> parse_inf_nan (c :: r) = None.
Proof.
  intros H. unfold parse_inf_nan. rewrite (take_sign_numeral c r H).
  apply numeral_char_facts in H as (_ & _ & _ & Hi & Hn).
  cbn [lower map str list_ascii_of_string].
  now rewrite !eqb_chars_head.
Qed.

Lemma digit_not_space c : is_digit c = true -> is_float_space c = false.
Proof. destruct c as [[] [] [] [] [] [] [] []]; vm_compute; congruence. Qed.

Lemma float_of_numeral d e :
  all is_digit d -> e <> [] -> all is_digit e ->
  is_Some (float_of_str (d ++ "."%char :: e)).
Proof.
  intros Hd Hne He.
  assert (all is_numeral_char (d ++ "."%char :: e)) as Hall.
  { apply Forall_app. split; [|constructor; [reflexivity|]];
      (eapply Forall_impl; [eassumption|]); intros c Hc; unfold is_numeral_char;
      cbn in Hc; now rewrite Hc. }
  assert (exists c r, d ++ "."%char :: e = c :: r /\ is_numeral_char c = true)
    as (c & r & Et & Hc).
  { destruct d as [|c d]; cbn [app] in *; apply Forall_cons in Hall as [Hc _]; eauto. }
  unfold float_of_str. rewrite drop_underscores_plain; [|clear Et|discriminate].
  2:{ eapply Forall_impl; [exact Hall|]. intros a Ha.
      now apply numeral_char_facts in Ha as (Ha & _). }
  rewrite strip_plain.
  - rewrite Et, (parse_inf_nan_numeral c r Hc).
    unfold parse_decimal. rewrite (take_sign_numeral c r Hc), <- Et.
    rewrite (span_run is_digit d ("."%char :: e) Hd eq_refl).
    pose proof (span_run is_digit e [] He I) as Hs. rewrite app_nil_r in Hs.
    rewrite Hs. destruct (d ++ e) as [|a l] eqn:Ede.
    + apply app_eq_nil in Ede as [_ ->]. congruence.
    + cbn [take_exponent]. eauto.
  - rewrite Et. cbn. now apply numeral_char_facts in Hc as (_ & Hc & _).
  - rewrite rev_app_distr. cbn [rev]. rewrite <- !app_assoc.
    apply (stops_before_run _ is_digit); [apply digit_not_space | |].
    + intros E. apply (f_equal (@rev ascii)) in E. rewrite rev_involutive in E.
      now apply Hne.
    + now apply Forall_rev.
Qed.

Lemma remove_commas_figure d e :
  all is_digit_or_comma d -> all is_digit e ->
  remove_commas (d ++ str "." ++ e) = remove_commas d ++ "."%char :: e
  /\ all is_digit (remove_commas d).
Proof.
  intros Hd He. unfold all in *. unfold remove_commas.
  rewrite !List.filter_app. split.
  - f_equal. cbn [str list_ascii_of_string List.filter app].
    change (negb (Ascii.eqb "." ",")) with true. cbn [app]. f_equal.
    apply forallb_filter_id, forallb_forall. intros c Hc.
    rewrite Forall_forall in He. specialize (He c ltac:(now apply list_elem_of_In)).
    cbn in He. destruct c as [[] [] [] [] [] [] [] []]; vm_compute in He |- *; congruence.
  - apply Forall_forall. intros c Hc. apply list_elem_of_In, filter_In in Hc as [Hc Hn].
    rewrite Forall_forall in Hd. specialize (Hd c ltac:(now apply list_elem_of_In)).
    cbn in Hd. unfold is_digit_or_comma in Hd. cbn.
    destruct (Ascii.eqb c ","); [discriminate|]. now rewrite orb_false_r in Hd.
Qed.

(** [float(...)] accepts every figure once the commas are removed. *)
Lemma figure_value_ok f :
  figure some_decimals f -> exists a, figure_value f = ok a.
Proof.
  intros (d & e & -> & _ & Hd & Hne & He). unfold figure_value.
  destruct (remove_commas_figure d e Hd He) as [-> Hd'].
  destruct (float_of_numeral (remove_commas d) e Hd' Hne He) as [a ->]. eauto.
Qed.


(** *** The first row *)

Lemma two_decimals_some e : two_decimals e -> some_decimals e.
Proof. intros [Hl He]. split; [|exact He]. now destruct e. Qed.

Lemma two_decimal_row_is_row u f1 f2 :
  total_costs_row two_decimals u f1 f2 -> total_costs_row some_decimals u f1 f2.
Proof.
  intros (w1 & w2 & w3 & w4 & w5 & w6 & w7 & Hu & (d1 & e1 & Hf1 & Hd1 & Hd1' & He1)
          & (d2 & e2 & Hf2 & Hd2 & Hd2' & He2) & H).
  exists w1, w2, w3, w4, w5, w6, w7. split; [exact Hu|].
  split; [exists d1, e1; auto using two_decimals_some|].
  split; [exists d2, e2; auto using two_decimals_some|]. exact H.
Qed.

Lemma row_figures u f1 f2 :
  total_costs_row some_decimals u f1 f2 ->
  figure some_decimals f1 /\ figure some_decimals f2.
Proof. intros (w1 & w2 & w3 & w4 & w5 & w6 & w7 & _ & Hf1 & Hf2 & _). now split. Qed.

(** Where a row starts, the pattern matches and captures its figures. *)
Lemma match_here_row u f1 f2 post :
  total_costs_row some_decimals u f1 f2 ->
  match_here total_costs_pattern (u ++ post) = Some [f1; f2].
Proof.
  intros Hrow.
  destruct (match_here_complete total_costs_pattern u post [f1; f2]) as [caps Hm].
  { apply total_costs_pattern_lang. eauto. }
  rewrite Hm. f_equal.
  apply match_here_sound in Hm as (v & post' & Heq & Hv).
  apply total_costs_pattern_lang in Hv as (g1 & g2 & -> & Hv).
  destruct (row_unique _ _ _ _ _ _ _ _ Hrow Hv Heq) as [-> ->]. reflexivity.
Qed.

Lemma match_here_row_inv s caps :
  match_here total_costs_pattern s = Some caps ->
  exists v post g1 g2, s = v ++ post /\ total_costs_row some_decimals v g1 g2.
Proof.
  intros Hm. apply match_here_sound in Hm as (v & post & -> & Hv).
  apply total_costs_pattern_lang in Hv as (g1 & g2 & _ & Hv). eauto 6.
Qed.

(** [re.search] finds the figures of the first row of the content. *)
Lemma search_first_row s i u f1 f2 :
  occurs_at u s i ->
  total_costs_row some_decimals u f1 f2 ->
  (forall j v g1 g2, occurs_at v s j ->
                     total_costs_row some_decimals v g1 g2 -> (i <= j)%nat) ->
  search total_costs_pattern s = Some [f1; f2].
Proof.
  intros (pre & post & Hs & Hi) Hrow Hmin.
  pose proof (match_here_row u f1 f2 post Hrow) as Hm.
  destruct (search total_costs_pattern s) as [caps|] eqn:E.
  2:{ rewrite (search_None _ _ E pre (u ++ post) Hs) in Hm. discriminate. }
  apply search_Some in E as (pre0 & rest0 & Heq & Hm0 & Hleft).
  destruct (match_here_row_inv _ _ Hm0) as (v & post0 & g1 & g2 & -> & Hv).
  assert (length pre0 = length pre) as Hlen.
  { assert (i <= length pre0)%nat as Hle.
    { apply (Hmin _ v g1 g2); [|exact Hv]. now exists pre0, post0. }
    destruct (Nat.lt_ge_cases (length pre) (length pre0)) as [Hlt|Hge]; [|lia].
    rewrite (Hleft pre (u ++ post) Hs Hlt) in Hm. discriminate. }
  assert (pre0 = pre) as ->.
  { rewrite Heq in Hs. apply (f_equal (take (length pre))) in Hs.
    rewrite take_app_length in Hs. rewrite <- Hlen, take_app_length in Hs.
    exact Hs. }
  rewrite Heq in Hs. apply app_inv_head in Hs. rewrite Hs in Hm0.
  rewrite Hm in Hm0. now injection Hm0 as <-.
Qed.

Lemma search_no_row s :
  (forall i u f1 f2, occurs_at u s i -> ~ total_costs_row some_decimals u f1 f2) ->
  search total_costs_pattern s = None.
Proof.
  intros Hnone. destruct (search total_costs_pattern s) as [caps|] eqn:E; [|reflexivity].
  exfalso. apply search_Some in E as (pre0 & rest0 & Heq & Hm0 & _).
  destruct (match_here_row_inv _ _ Hm0) as (v & post0 & g1 & g2 & -> & Hv).
  apply (Hnone (length pre0) v g1 g2); [|exact Hv]. now exists pre0, post0.
Qed.

(** C5, amended.  A figure is a run of digits and commas, a point and one
    or more digits.  When the content of the comparison document holds a
    [TOTAL COSTS] row with two such figures, each followed by [EUR],
    [parse_diff_text_file] returns the two figures of the first such row,
    commas removed and read as floats; a row whose figures have exactly two
    decimals is such a row.  When no such row occurs it returns the pair of
    [None]; so it does, after a warning, when the file does not exist or is
    not valid UTF-8. *)
Theorem parse_diff_text_file_first_row fs p st :
  (forall content i u f1 f2,
      read_text fs p = ok content ->
      occurs_at u (str content) i ->
      total_costs_row some_decimals u f1 f2 ->
      (forall j v g1 g2, occurs_at v (str content) j ->
                         total_costs_row some_decimals v g1 g2 -> (i <= j)%nat) ->
      exists a b,
        float_of_str (remove_commas f1) = Some a
        /\ float_of_str (remove_commas f2) = Some b
        /\ parse_diff_text_file fs p st = Returned (Some a, Some b) st)
  /\ (forall u f1 f2,
        total_costs_row two_decimals u f1 f2 -> total_costs_row some_decimals u f1 f2)
  /\ (forall content,
        read_text fs p = ok content ->
        (forall i u f1 f2, occurs_at u (str content) i ->
                           ~ total_costs_row some_decimals u f1 f2) ->
        parse_diff_text_file fs p st = Returned (None, None) st)
  /\ (open_read fs p = fail FileNotFoundError ->
      parse_diff_text_file fs p st
      = Returned (None, None) (log (Warning_could_not_parse p FileNotFoundError) st))
  /\ (open_read fs p = ok Binary ->
      parse_diff_text_file fs p st
      = Returned (None, None) (log (Warning_could_not_parse p UnicodeDecodeError) st)).
Proof.
  rewrite parse_diff_text_file_eq. unfold diff_costs.
  split; [|split; [|split; [|split]]].
  - intros content i u f1 f2 -> Hocc Hrow Hmin. unfold ok. cbn [result_bind].
    unfold read_totals. rewrite (search_first_row _ _ _ _ _ Hocc Hrow Hmin).
    destruct (row_figures _ _ _ Hrow) as [Hf1 Hf2].
    destruct (figure_value_ok f1 Hf1) as [a Ha].
    destruct (figure_value_ok f2 Hf2) as [b Hb].
    rewrite Ha, Hb. unfold ok. cbn [result_bind]. exists a, b.
    unfold figure_value in Ha, Hb.
    destruct (float_of_str (remove_commas f1)); [|discriminate].
    destruct (float_of_str (remove_commas f2)); [|discriminate].
    injection Ha as ->. injection Hb as ->. auto.
  - apply two_decimal_row_is_row.
  - intros content -> Hnone. unfold ok. cbn [result_bind].
    unfold read_totals. now rewrite (search_no_row _ Hnone).
  - unfold read_text. intros ->. reflexivity.
  - unfold read_text. intros ->. reflexivity.
Qed.

Lemma no_row_when_search_fails s :
  search total_costs_pattern s = None ->
  forall i u f1 f2, occurs_at u s i -> ~ total_costs_row some_decimals u f1 f2.
Proof.
  intros Hs i u f1 f2 (pre & post & Heq & _) Hrow.
  pose proof (match_here_row u f1 f2 post Hrow) as Hm.
  rewrite (search_None _ _ Hs pre (u ++ post) Heq) in Hm. discriminate.
Qed.

Lemma no_match_before_spec r s n pre rest :
  no_match_before r s n = true -> s = pre ++ rest -> (length pre < n)%nat ->
  match_here r rest = None.
Proof.
  unfold no_match_before. rewrite forallb_forall. intros H -> Hlt.
  specialize (H (length pre)). rewrite drop_app_length in H.
  eapply bool_decide_eq_true_1. apply H. apply in_seq. lia.
Qed.

Lemma scenario_row_shape decimals :
  decimals (str "00") ->
  total_costs_row decimals scenario_row (str "1,000.00") (str "800.00").
Proof.
  intros Hdec.
  exists (str " "), (str " "), (str " "), (str " "), (str " "), (str " "), (str " ").
  split; [reflexivity|].
  split; [exists (str "1,000"), (str "00"); repeat split;
          [discriminate | repeat constructor | exact Hdec]|].
  split; [exists (str "800"), (str "00"); repeat split;
          [discriminate | repeat constructor | exact Hdec]|].
  repeat split; repeat constructor.
Qed.

Lemma parse_diff_text_file_first_row_witness :
  parse_diff_text_file fs_fallback_only scenario_diff initial_state
  = Returned (Some 1000%float, Some 800%float) initial_state
  /\ parse_diff_text_file fs_garbled scenario_diff initial_state
     = Returned (None, None) initial_state.
Proof.
  split.
  - destruct (parse_diff_text_file_first_row fs_fallback_only scenario_diff initial_state)
      as (Hfirst & _).
    destruct (Hfirst "| TOTAL COSTS | 1,000.00 EUR | 800.00 EUR |"%string 0%nat
                scenario_row (str "1,000.00") (str "800.00"))
      as (a & b & Ha & Hb & Hp).
    + vm_compute. reflexivity.
    + exists [], (str " |"). split; reflexivity.
    + apply scenario_row_shape. split; [discriminate | repeat constructor].
    + intros j v g1 g2 _ _. lia.
    + vm_compute in Ha, Hb. injection Ha as <-. injection Hb as <-. exact Hp.
  - destruct (parse_diff_text_file_first_row fs_garbled scenario_diff initial_state)
      as (_ & _ & Hnone & _).
    apply (Hnone "no table here"%string); [vm_compute; reflexivity|].
    apply no_row_when_search_fails. vm_compute. reflexivity.
Defined.

Lemma float_1000_not_1_5 : 1000%float <> 1.5%float.
Proof.
  intros H. apply (f_equal (fun x => PrimFloat.ltb x 2)) in H.
  vm_compute in H. discriminate.
Qed.

(** C5, as stated, fails: when a row with figures of one decimal stands
    before the first row with figures of two decimals, the pair of the
    earlier row is returned. *)
Lemma first_row_law_as_stated_fails : ~ first_row_law_as_stated.
Proof.
  intros H.
  destruct (H fs_two_rows scenario_diff initial_state two_rows 36%nat
              scenario_row (str "1,000.00") (str "800.00"))
    as (a & b & Ha & _ & Hp).
  - vm_compute. reflexivity.
  - exists (str (one_decimal_row +:+ newline)), (str " |"). split; reflexivity.
  - apply scenario_row_shape. split; repeat constructor.
  - intros j v g1 g2 (pre & post & Heq & Hj) Hrow.
    destruct (Nat.lt_ge_cases j 36) as [Hlt|Hge]; [exfalso | exact Hge].
    destruct (match_here_complete (row_pattern (Exactly 2 is_digit)) v post [g1; g2])
      as [caps Hm].
    { apply two_decimal_pattern_lang. eauto. }
    rewrite (no_match_before_spec _ (str two_rows) 36 pre (v ++ post)) in Hm;
      [discriminate | vm_compute; reflexivity | exact Heq | lia].
  - vm_compute in Ha. injection Ha as <-.
    apply (f_equal (fun o => match o with
                             | Returned (Some x, _) _ => x
                             | _ => 0%float
                             end)) in Hp.
    vm_compute in Hp. symmetry in Hp.
    exact (float_1000_not_1_5 Hp).
Qed.

(** * Further properties *)

(** ** Sibling lookup ([find_related_json_files]) *)

Lemma find_first {A} (p : A -> bool) (l : list A) :
  match List.find p l with
  | Some x =>
      exists l1 l2, l = l1 ++ x :: l2 /\ p x = true
                    /\ forall y, In y l1 -> p y = false
  | None => forall y, In y l -> p y = false
  end.
Proof.
  induction l as [|a l IH]; cbn [List.find]; [intros y []|].
  destruct (p a) eqn:Ha.
  - exists [], l. repeat split; [exact Ha | intros y []].
  - destruct (List.find p l) as [x|].
    + destruct IH as (l1 & l2 & -> & Hx & Hl1).
      exists (a :: l1), l2. repeat split; [exact Hx|].
      intros y [<-|Hy]; auto.
    + intros y [<-|Hy]; auto.
Qed.

(** For each month the lookup returns the first candidate that exists, in
    the order of the prefixes: the path it returns exists, stands in the
    directory of the comparison document, is named after one of the
    prefixes and the identifier, and every candidate of an earlier prefix is
    missing.  It returns nothing exactly when no candidate exists. *)
Lemma find_related_json_file_first fs m d sub_id :
  match find_related_json_file fs m d sub_id with
  | Some f =>
      exists before prefix after,
        prefixes m = before ++ prefix :: after
        /\ f = candidate d sub_id prefix
        /\ path_exists fs f = true
        /\ forall q, In q before -> path_exists fs (candidate d sub_id q) = false
  | None =>
      forall q, In q (prefixes m) -> path_exists fs (candidate d sub_id q) = false
  end.
Proof.
  unfold find_related_json_file.
  change (fun prefix => parent d ++ [json_name prefix sub_id]) with (candidate d sub_id).
  pose proof (find_first (path_exists fs) (map (candidate d sub_id) (prefixes m))) as H.
  destruct (List.find _ _) as [f|].
  - destruct H as (l1 & l2 & Heq & Hf & Hl1).
    apply map_eq_app in Heq as (before & rest & Hp & <- & Heq).
    apply map_eq_cons in Heq as (prefix & after & -> & <- & <-).
    exists before, prefix, after. repeat split; [exact Hp | exact Hf|].
    intros q Hq. apply Hl1, in_map, Hq.
  - intros q Hq. apply H, in_map, Hq.
Qed.

(** The lookup by name.  The November result of
    [find_related_json_files] is the first existing one of
    [november-<id>.json], [nov-<id>.json], [september-<id>.json] and
    [sept-<id>.json] in the directory of the comparison document, in this
    order, and the December result the first existing one of
    [december-<id>.json], [dec-<id>.json], [october-<id>.json] and
    [oct-<id>.json]; a result is [None] exactly when none of the four files
    exists.  The files are looked for next to the document, not in a
    directory of the month. *)
Theorem find_related_json_files_first_existing fs d sub_id :
  first_existing fs d sub_id ["november"; "nov"; "september"; "sept"]%string
    (fst (find_related_json_files fs d sub_id))
  /\ first_existing fs d sub_id ["december"; "dec"; "october"; "oct"]%string
       (snd (find_related_json_files fs d sub_id)).
Proof.
  unfold find_related_json_files. cbn [fst snd]. split.
  - exact (find_related_json_file_first fs November d sub_id).
  - exact (find_related_json_file_first fs December d sub_id).
Qed.

(** Both results of [find_related_json_files] are siblings of the
    comparison document, and the two months never share a file. *)
Lemma candidate_parent d sub_id prefix : parent (candidate d sub_id prefix) = parent d.
Proof. unfold candidate, parent. apply removelast_last. Qed.

(** ** The structured extractor, once more *)

Lemma read_total_dict doc :
  read_total (JDict doc)
  = match assoc "totals" doc with
    | None => ok None
    | Some totals =>
        match py_in "totalCostInTimeframe" totals with
        | inl e => inl e
        | inr false => ok None
        | inr true =>
            match py_getitem totals "totalCostInTimeframe" with
            | inl e => inl e
            | inr cost =>
                match py_float cost with
                | inl e => inl e
                | inr c => ok (Some c)
                end
            end
        end
    end.
Proof.
  unfold read_total. cbn [py_in py_getitem result_bind ok fail].
  destruct (assoc "totals" doc) as [totals|]; cbn; [|reflexivity].
  destruct (py_in "totalCostInTimeframe" totals) as [e|[|]]; cbn; reflexivity.
Qed.

(** [parse_json_cost_file] returns a number only for a readable file whose
    JSON value is a dict with a dict under [totals] that has the key
    [totalCostInTimeframe], and the number is [float] of the value under
    that key; it then prints nothing.  A list or a string in the place of
    either dict never yields a number. *)
Theorem parse_json_cost_file_number fs f st c st' :
  parse_json_cost_file fs f st = Returned (Some c) st'
  <-> st' = st
      /\ exists text doc totals cost,
           resolve fs f = Here (File (Utf8 text (Some (JDict doc))))
           /\ assoc "totals" doc = Some (JDict totals)
           /\ assoc "totalCostInTimeframe" totals = Some cost
           /\ py_float cost = ok c.
Proof.
  rewrite parse_json_cost_file_eq. unfold json_cost, json_load, open_read. split.
  - destruct (resolve fs f) as [[entries|[|text [doc|]]| |]| |];
      cbn [result_bind fail ok caught_by existsb]; try discriminate.
    destruct doc as [| | | |s|l|doc].
    1-4: cbn; discriminate.
    + cbn [read_total py_in result_bind ok]. destruct (contains _ _); cbn; discriminate.
    + cbn [read_total py_in result_bind ok]. destruct (existsb _ l); cbn; discriminate.
    + rewrite read_total_dict.
      destruct (assoc "totals" doc) as [totals|] eqn:Ht; [|discriminate].
      destruct totals as [| | | |s|l|totals]; try (cbn; discriminate).
      * cbn [py_in ok]. destruct (contains _ _); cbn; discriminate.
      * cbn [py_in ok]. destruct (existsb _ l); cbn; discriminate.
      * cbn [py_in py_getitem ok].
        destruct (assoc "totalCostInTimeframe" totals) as [cost|] eqn:Hc;
          [|cbn; discriminate].
        cbn. destruct (py_float cost) as [e|c'] eqn:Hf.
        -- destruct (_ || _); discriminate.
        -- intros [= -> ->]. split; [reflexivity|]. eauto 8.
  - intros (-> & text & doc & totals & cost & -> & Ht & Hc & Hf).
    cbn [result_bind ok]. rewrite read_total_dict, Ht. cbn [py_in py_getitem ok].
    rewrite Hc. cbn. now rewrite Hf.
Qed.

(** A total given as a string: blanks around the numeral are accepted, the
    separators 28 to 31 are not, and the [ValueError] of [float] is not
    among the exceptions the extractor catches. *)
Lemma string_total_with_blanks st :
  parse_json_cost_file fs_total_with_blanks scenario_november st
  = Returned (Some 7.25%float) st.
Proof. reflexivity. Qed.

Lemma string_total_with_separators st :
  parse_json_cost_file fs_total_with_separators scenario_november st
  = Raised ValueError st.
Proof. reflexivity. Qed.

(** ** The comparison extractor, once more *)

(** Reading the content never fails: what the pattern captures always
    converts to a float, so the result is a pair of two numbers or the pair
    of [None]. *)
Lemma read_totals_ok content :
  (exists a b, read_totals content = ok (Some a, Some b))
  \/ read_totals content = ok (None, None).
Proof.
  unfold read_totals.
  destruct (search total_costs_pattern (str content)) as [caps|] eqn:E; [|now right].
  apply search_Some in E as (pre & rest & _ & Hm & _).
  apply match_here_sound in Hm as (v & post & _ & Hv).
  apply total_costs_pattern_lang in Hv as (g1 & g2 & -> & Hrow).
  destruct (row_figures _ _ _ Hrow) as [Hf1 Hf2].
  destruct (figure_value_ok g1 Hf1) as [a Ha].
  destruct (figure_value_ok g2 Hf2) as [b Hb].
  left. exists a, b. now rewrite Ha, Hb.
Qed.

(** [parse_diff_text_file] has four outcomes and no other: it returns two
    numbers; it returns the pair of [None] silently; it returns the pair of
    [None] after a warning, for a missing file or bytes that are not UTF-8;
    or the open fails with [IsADirectoryError], [NotADirectoryError] or
    [PermissionError], which it lets through.  It never returns one number
    without the other, and the float conversion never raises. *)
Theorem parse_diff_text_file_outcomes fs p st :
  (exists a b, parse_diff_text_file fs p st = Returned (Some a, Some b) st)
  \/ parse_diff_text_file fs p st = Returned (None, None) st
  \/ (exists e, (e = FileNotFoundError \/ e = UnicodeDecodeError)
                /\ parse_diff_text_file fs p st
                   = Returned (None, None) (log (Warning_could_not_parse p e) st))
  \/ (exists e, (e = IsADirectoryError \/ e = NotADirectoryError \/ e = PermissionError)
                /\ parse_diff_text_file fs p st = Raised e st).
Proof.
  rewrite parse_diff_text_file_eq. unfold diff_costs, read_text, open_read.
  destruct (resolve fs p) as [[entries|[|text doc]| |]| |]; cbn.
  - right. right. right. exists IsADirectoryError. auto.
  - right. right. left. exists UnicodeDecodeError. auto.
  - destruct (read_totals_ok text) as [(a & b & ->) | ->]; eauto.
  - right. right. right. exists PermissionError. auto.
  - right. right. left. exists FileNotFoundError. auto.
  - right. right. left. exists FileNotFoundError. auto.
  - right. right. right. exists NotADirectoryError. auto.
Qed.

(** ** The identity extractor, once more *)

Lemma lower_char_hex c : is_hex c = true -> lower_char c = c.
Proof. destruct c as [[] [] [] [] [] [] [] []]; vm_compute; congruence. Qed.

Lemma lower_hex u : all is_hex u -> lower u = u.
Proof.
  intros H. induction H as [|c u Hc Hu IH]; [reflexivity|].
  cbn [lower map]. fold (lower u). now rewrite IH, lower_char_hex.
Qed.

Lemma uuid_atoms_lower_case v : atoms_lang uuid_atoms v -> lower v = v.
Proof.
  unfold uuid_atoms. cbn [atoms_lang atom_lang].
  intros (x1 & r1 & -> & [_ H1] & x2 & r2 & -> & -> & x3 & r3 & -> & [_ H3]
          & x4 & r4 & -> & -> & x5 & r5 & -> & [_ H5] & x6 & r6 & -> & ->
          & x7 & r7 & -> & [_ H7] & x8 & r8 & -> & -> & x9 & r9 & -> & [_ H9] & ->).
  rewrite !lower_app.
  rewrite (lower_hex x1 H1), (lower_hex x3 H3), (lower_hex x5 H5),
    (lower_hex x7 H7), (lower_hex x9 H9).
  reflexivity.
Qed.

Lemma search_here r s caps : match_here r s = Some caps -> search r s = Some caps.
Proof. intros H. destruct s; cbn [search]; now rewrite H. Qed.

Lemma str_of_chars v : str (of_chars v) = v.
Proof. apply list_ascii_of_string_of_list_ascii. Qed.

(** What [extract_subscription_id] returns is in normal form: 36
    characters in the UUID shape, unchanged by lower-casing, found in the
    lower-cased file name; and extracting from the identifier itself gives
    the identifier back. *)
Theorem extract_subscription_id_normal_form filename sub_id :
  extract_subscription_id filename = Some sub_id ->
  length (str sub_id) = 36%nat
  /\ uuid_shaped (str sub_id)
  /\ lower (str sub_id) = str sub_id
  /\ (exists pre post, lower (str filename) = pre ++ str sub_id ++ post)
  /\ extract_subscription_id sub_id = Some sub_id.
Proof.
  unfold extract_subscription_id.
  destruct (search uuid_pattern (lower (str filename))) as [[|g caps]|] eqn:E;
    try discriminate.
  intros [= <-]. rewrite str_of_chars.
  apply search_Some in E as (pre & rest & Heq & Hm & _).
  apply match_here_sound in Hm as (v & post & -> & Hv).
  apply uuid_pattern_lang in Hv as [Hv [= -> ->]].
  pose proof (uuid_atoms_lower_case v Hv) as Hlow.
  assert (uuid_shaped v) as Hshape by (apply uuid_atoms_lower; now rewrite Hlow).
  split; [now apply uuid_shaped_length|]. split; [exact Hshape|].
  split; [exact Hlow|]. split; [eauto|].
  pose proof (match_here_uuid v [] Hshape) as Hm.
  rewrite app_nil_r, Hlow in Hm. rewrite Hlow, (search_here _ _ _ Hm). reflexivity.
Qed.

Lemma extract_subscription_id_normal_form_witness :
  length (str scenario_id) = 36%nat
  /\ uuid_shaped (str scenario_id)
  /\ lower (str scenario_id) = str scenario_id
  /\ (exists pre post,
        lower (str "Nov-vs-Dec-1111AAAA-2222-BBBB-3333-CCCCDDDD4444-DIFF.TXT")
        = pre ++ str scenario_id ++ post)
  /\ extract_subscription_id scenario_id = Some scenario_id.
Proof.
  apply (extract_subscription_id_normal_form
           "Nov-vs-Dec-1111AAAA-2222-BBBB-3333-CCCCDDDD4444-DIFF.TXT").
  vm_compute. reflexivity.
Defined.

(** ** The records after a scan *)

Lemma diff_file_period_step fs m d id fb r :
  diff_file (period_step fs m d id fb r) = diff_file r.
Proof.
  unfold period_step.
  destruct (find_related_json_file fs m d id) as [f|].
  - destruct (returned_cost fs f); [|reflexivity]. now destruct m.
  - destruct fb; [|reflexivity]. now destruct m.
Qed.

(** At the end of a completed scan the record of a subscription names its
    comparison document: the path of the last discovered document whose
    name carries the identifier. *)
Theorem diff_file_is_last_document fs base st st' sub_id l1 d l2 :
  last_document_of fs base sub_id l1 d l2 ->
  process_all_files fs base st = Returned tt st' ->
  exists r, assoc sub_id (subscription_data st') = Some r
            /\ diff_file r = Some (path_str d).
Proof.
  intros Hlast Hrun.
  eexists. split; [exact (last_document_record _ _ _ _ _ _ _ _ Hlast Hrun)|].
  unfold record_step. now rewrite !diff_file_period_step.
Qed.

Lemma diff_file_is_last_document_witness :
  exists r, assoc scenario_id (subscription_data (scanned fs_two_directories)) = Some r
            /\ diff_file r = Some (path_str second_directory_diff).
Proof.
  apply (diff_file_is_last_document fs_two_directories scenario_base initial_state
           (scanned fs_two_directories) scenario_id
           [first_directory_diff] second_directory_diff []).
  - split; [vm_compute; reflexivity|]. split; [vm_compute; reflexivity|].
    intros d' [].
  - vm_compute. reflexivity.
Defined.

Lemma currency_period_data_step fs m d id fb p :
  currency (period_data_step fs m d id fb p) = currency p.
Proof.
  unfold period_data_step.
  destruct (find_related_json_file fs m d id) as [f|].
  - now destruct (returned_cost fs f).
  - now destruct fb.
Qed.

Lemma record_after_currency fs id m l start :
  currency (period m (default default_subscription start)) = "EUR"%string ->
  currency (period m (default default_subscription (record_after fs id l start)))
  = "EUR"%string.
Proof.
  revert start. induction l as [|d l IH]; intros start Hstart; [exact Hstart|].
  unfold record_after. cbn [fold_left]. apply IH.
  case_bool_decide; [|exact Hstart].
  cbn [from_option Datatypes.id].
  now rewrite period_record_step, currency_period_data_step.
Qed.

(** The currency of a record is never touched: after a completed scan that
    started from the empty mapping both periods of every record carry
    [EUR]. *)
Theorem currency_is_constant fs base st st' sub_id r m :
  subscription_data st = [] ->
  process_all_files fs base st = Returned tt st' ->
  assoc sub_id (subscription_data st') = Some r ->
  currency (period m r) = "EUR"%string.
Proof.
  intros Hempty Hrun Hr.
  rewrite (process_all_files_record _ _ sub_id _ _ Hrun), Hempty in Hr.
  pose proof (record_after_currency fs sub_id m (find_diff_files fs base)
                (assoc sub_id [])) as H.
  rewrite Hr in H. apply H. now destruct m.
Qed.

Lemma currency_is_constant_witness :
  exists r, assoc scenario_id (subscription_data (scanned fs_with_november)) = Some r
            /\ currency (period November r) = "EUR"%string.
Proof.
  eexists. split; [vm_compute; reflexivity|].
  apply (currency_is_constant fs_with_november scenario_base initial_state
           (scanned fs_with_november) scenario_id _ November);
    vm_compute; reflexivity.
Defined.

(** *** A source path stays *)

Lemma file_period_data_step fs m d id fb p :
  is_Some (file p) -> is_Some (file (period_data_step fs m d id fb p)).
Proof.
  intros H. unfold period_data_step.
  destruct (find_related_json_file fs m d id) as [f|].
  - destruct (returned_cost fs f); [cbn; eauto | exact H].
  - destruct fb; [exact H | exact H].
Qed.

Lemma record_after_file fs id m l r0 :
  is_Some (file (period m r0)) ->
  exists r, record_after fs id l (Some r0) = Some r /\ is_Some (file (period m r)).
Proof.
  revert r0. induction l as [|d l IH]; intros r0 H0; [now exists r0|].
  unfold record_after. cbn [fold_left]. case_bool_decide; [|now apply IH].
  cbn [from_option Datatypes.id]. apply IH.
  rewrite period_record_step. now apply file_period_data_step.
Qed.

(** No pass of the loop removes a source path.  Once a period of a record
    names a structured document it names one after any further stretch of
    the loop that completes, also when a later comparison document of the
    same subscription, having no sibling, replaces the total by its
    fallback figure. *)
Theorem source_path_stays fs l st st' sub_id r0 m :
  for_each l (process_file fs) st = Returned tt st' ->
  assoc sub_id (subscription_data st) = Some r0 ->
  is_Some (file (period m r0)) ->
  exists r, assoc sub_id (subscription_data st') = Some r
            /\ is_Some (file (period m r)).
Proof.
  intros Hrun Hr0 Hfile.
  rewrite (for_each_record _ sub_id _ _ _ Hrun), Hr0.
  now apply record_after_file.
Qed.

(** In the second directory the comparison document stands alone: the
    November total becomes its figure 1000.0 while the path still names the
    export of the first directory, whose total was 950.5. *)
Lemma source_path_stays_witness :
  exists r,
    assoc scenario_id (subscription_data (scanned fs_two_directories)) = Some r
    /\ is_Some (file (period November r))
    /\ total (period November r) = 1000%float
    /\ file (period November r)
       = Some (path_str (scenario_base ++ ["a"%string; scenario_november_name])).
Proof.
  destruct (source_path_stays fs_two_directories [second_directory_diff]
              (final_state (process_file fs_two_directories first_directory_diff
                              initial_state))
              (final_state (for_each [first_directory_diff; second_directory_diff]
                              (process_file fs_two_directories) initial_state))
              scenario_id
              (record_step fs_two_directories first_directory_diff scenario_id
                 default_subscription)
              November)
    as (r & Hr & Hf).
  - vm_compute. reflexivity.
  - vm_compute. reflexivity.
  - vm_compute. eauto.
  - exists r. split; [|split; [exact Hf|]].
    + vm_compute in Hr |- *. exact Hr.
    + vm_compute in Hr. injection Hr as <-. split; vm_compute; reflexivity.
Defined.

(** ** The report and the exit status *)

(** Called on an empty mapping [generate_report] raises
    [ZeroDivisionError] at the first average: it writes no file and prints
    nothing.  [main] never calls it so. *)
Theorem generate_report_needs_a_record base out st :
  subscription_data st = [] ->
  generate_report base out st = Raised ZeroDivisionError st.
Proof.
  intros H. unfold generate_report, bind, get_data. rewrite H. reflexivity.
Qed.

Lemma generate_report_needs_a_record_witness :
  generate_report scenario_base report_name initial_state
  = Raised ZeroDivisionError initial_state.
Proof. apply generate_report_needs_a_record. reflexivity. Defined.


(** ** The order of the records *)

Lemma existsb_key_assoc {A} (id : string) (d : list (string * A)) :
  existsb (String.eqb id) (map fst d) = bool_decide (is_Some (assoc id d)).
Proof.
  induction d as [|[k v] d IH]; [reflexivity|].
  cbn [map fst existsb assoc]. rewrite String.eqb_sym.
  destruct (String.eqb k id); cbn [orb].
  - symmetry. apply bool_decide_eq_true_2. eauto.
  - exact IH.
Qed.

Lemma keys_alter_entry f id d : map fst (alter_entry f id d) = map fst d.
Proof.
  unfold alter_entry. rewrite map_map. apply map_ext.
  intros [k v]. cbn. now destruct (String.eqb k id).
Qed.

Lemma keys_update f id d : map fst (update f id d) = add_key (map fst d) id.
Proof.
  unfold update, touch, add_key. rewrite keys_alter_entry, existsb_key_assoc.
  destruct (assoc id d) as [r|].
  - now rewrite bool_decide_eq_true_2 by eauto.
  - rewrite bool_decide_eq_false_2 by (intros [? ?]; discriminate).
    now rewrite map_app.
Qed.

Lemma add_key_twice ks id : add_key (add_key ks id) id = add_key ks id.
Proof.
  unfold add_key at 2. destruct (existsb (String.eqb id) ks) eqn:E.
  - unfold add_key. now rewrite E.
  - unfold add_key. rewrite existsb_app, E. cbn. now rewrite String.eqb_refl.
Qed.

Lemma record_period_keys fs m id jf fb st st' :
  record_period fs m id jf fb st = Returned tt st' ->
  add_key (keys st) id = keys st ->
  keys st' = keys st.
Proof.
  unfold record_period, keys. intros H Hk.
  destruct jf as [f|].
  - unfold bind in H. rewrite parse_json_cost_file_eq in H.
    destruct (json_cost fs f) as [e|[c|]].
    + destruct (caught_by _ e); [|discriminate].
      unfold ret in H. now injection H as <-.
    + unfold modify_data, print in H. injection H as <-.
      cbn [log with_data subscription_data].
      now rewrite !keys_update, Hk, Hk.
    + unfold ret in H. now injection H as <-.
  - destruct fb as [c|].
    + unfold bind, modify_data, print in H. injection H as <-.
      cbn [log with_data subscription_data]. now rewrite keys_update.
    + unfold ret in H. now injection H as <-.
Qed.

Lemma process_file_keys fs d st st' :
  process_file fs d st = Returned tt st' ->
  keys st'
  = match extract_subscription_id (name d) with
    | Some id => add_key (keys st) id
    | None => keys st
    end.
Proof.
  unfold process_file.
  destruct (extract_subscription_id (name d)) as [id|].
  2:{ unfold print. now intros [= <-]. }
  unfold bind at 1 2 3 4. unfold print at 1 2. unfold modify_data at 1.
  destruct (parse_diff_text_file fs d _) as [costs st1|e st1] eqn:Hp; [|discriminate].
  apply parse_diff_text_file_data in Hp.
  cbn [log with_data subscription_data] in Hp.
  assert (keys st1 = add_key (keys st) id) as Hk1.
  { unfold keys. now rewrite Hp, keys_update. }
  unfold bind at 1.
  destruct (record_period fs November _ _ _ st1) as [[] st2|e st2] eqn:Hn; [|discriminate].
  unfold bind at 1.
  destruct (record_period fs December _ _ _ st2) as [[] st3|e st3] eqn:Hd; [|discriminate].
  unfold print. intros [= <-].
  change (keys (log Blank_line st3)) with (keys st3).
  apply record_period_keys in Hn; [|now rewrite Hk1, add_key_twice].
  apply record_period_keys in Hd; [|now rewrite Hn, Hk1, add_key_twice].
  now rewrite Hd, Hn.
Qed.

Lemma for_each_keys fs l st st' :
  for_each l (process_file fs) st = Returned tt st' ->
  keys st' = first_seen (keys st) (identifiers l).
Proof.
  revert st. induction l as [|d l IH]; intros st.
  - unfold for_each, ret. now intros [= <-].
  - cbn [for_each]. unfold bind.
    destruct (process_file fs d st) as [[] st1|e st1] eqn:Hd; [|discriminate].
    intros H. rewrite (IH _ H), (process_file_keys _ _ _ _ Hd).
    unfold identifiers. cbn [omap list_omap].
    destruct (extract_subscription_id (name d)); reflexivity.
Qed.

Lemma add_key_NoDup ks id : NoDup ks -> NoDup (add_key ks id).
Proof.
  intros H. unfold add_key. destruct (existsb (String.eqb id) ks) eqn:E; [exact H|].
  apply NoDup_app. split; [exact H|]. split; [|apply NoDup_singleton].
  intros x Hx Hid. apply list_elem_of_singleton in Hid as ->.
  assert (existsb (String.eqb id) ks = true) as E'; [|congruence].
  apply existsb_exists. exists id. split; [now apply list_elem_of_In|].
  apply String.eqb_refl.
Qed.

Lemma add_key_elem ks id x : In x (add_key ks id) <-> In x ks \/ x = id.
Proof.
  unfold add_key. destruct (existsb (String.eqb id) ks) eqn:E.
  - split; [auto|]. intros [H| ->]; [exact H|].
    apply existsb_exists in E as (y & Hy & Heq).
    apply String.eqb_eq in Heq as ->. exact Hy.
  - rewrite in_app_iff. cbn. intuition auto.
Qed.

Lemma first_seen_spec ks ids :
  NoDup ks ->
  NoDup (first_seen ks ids)
  /\ forall x, In x (first_seen ks ids) <-> In x ks \/ In x ids.
Proof.
  revert ks. induction ids as [|id ids IH]; intros ks Hks.
  - cbn. split; [exact Hks|]. intuition auto.
  - cbn [first_seen fold_left]. destruct (IH (add_key ks id) (add_key_NoDup _ _ Hks))
      as [Hn Hin].
    split; [exact Hn|]. intros x. unfold first_seen in Hin. rewrite Hin, add_key_elem.
    cbn. intuition auto.
Qed.

(** After a completed scan that started from the empty mapping the records
    stand in the order in which their identifiers were first seen among the
    discovered documents (the order the report falls back on for equal
    totals): one record per identifier, and a record for an identifier
    exactly when a discovered name carries it. *)
Theorem records_in_order_of_discovery fs base st st' :
  subscription_data st = [] ->
  process_all_files fs base st = Returned tt st' ->
  map fst (subscription_data st') = first_seen [] (identifiers (find_diff_files fs base))
  /\ NoDup (map fst (subscription_data st'))
  /\ forall sub_id,
       In sub_id (map fst (subscription_data st'))
       <-> exists d, In d (find_diff_files fs base)
                     /\ extract_subscription_id (name d) = Some sub_id.
Proof.
  intros Hempty Hrun. unfold process_all_files, bind, print in Hrun.
  apply for_each_keys in Hrun. unfold keys in Hrun.
  cbn [log subscription_data] in Hrun. rewrite Hempty in Hrun. cbn [map] in Hrun.
  rewrite Hrun. split; [reflexivity|].
  destruct (first_seen_spec [] (identifiers (find_diff_files fs base)))
    as [Hn Hin]; [constructor|].
  split; [exact Hn|]. intros id. rewrite Hin. unfold identifiers.
  split.
  - intros [[]|H]. apply list_elem_of_In, list_elem_of_omap in H as (d & Hd & Hid).
    exists d. now rewrite <- list_elem_of_In.
  - intros (d & Hd & Hid). right. apply list_elem_of_In, list_elem_of_omap.
    exists d. now rewrite list_elem_of_In.
Qed.

Lemma records_in_order_of_discovery_witness :
  map fst (subscription_data (scanned fs_two_directories)) = [scenario_id]
  /\ NoDup (map fst (subscription_data (scanned fs_two_directories))).
Proof.
  destruct (records_in_order_of_discovery fs_two_directories scenario_base
              initial_state (scanned fs_two_directories)) as (Hk & Hn & _).
  - reflexivity.
  - vm_compute. reflexivity.
  - split; [|exact Hn]. rewrite Hk. vm_compute. reflexivity.
Defined.

(** ** Comparing totals *)

Lemma SFcompare_opp x y :
  SFcompare y x = option_map CompOpp (SFcompare x y).
Proof.
  destruct x as [[]|[]| |[] m e], y as [[]|[]| |[] m' e']; try reflexivity;
    cbn [SFcompare option_map]; f_equal;
    rewrite (Z.compare_antisym e e'); destruct (e ?= e')%Z; cbn [CompOpp];
    try reflexivity;
    pose proof (Pos.compare_cont_antisym m m' Eq) as H; cbn [CompOpp] in H;
    rewrite <- H; now rewrite ?CompOpp_involutive.
Qed.

Lemma SFcompare_refl x : x <> S754_nan -> SFcompare x x = Some Eq.
Proof.
  destruct x as [[]|[]| |[] m e]; try reflexivity; try congruence; intros _;
    cbn [SFcompare]; rewrite Z.compare_refl;
    change (Pos.compare_cont Eq m m) with (m ?= m)%positive;
    now rewrite Pos.compare_refl.
Qed.

Lemma SFcompare_Some x y :
  x <> S754_nan -> y <> S754_nan -> exists c, SFcompare x y = Some c.
Proof.
  destruct x as [[]|[]| |[] m e], y as [[]|[]| |[] m' e']; intros Hx Hy;
    try congruence; cbn [SFcompare]; eauto.
Qed.

Lemma is_nan_Prim2SF x : is_nan x = false <-> Prim2SF x <> S754_nan.
Proof.
  unfold is_nan. rewrite FloatAxioms.eqb_spec. unfold SFeqb. split.
  - intros H E. rewrite E in H. cbn in H. discriminate.
  - intros H. now rewrite SFcompare_refl.
Qed.

(** Two floats that are not NaN compare in exactly one of the three
    ways; a NaN compares in none. *)
Lemma float_trichotomy x y :
  is_nan x = false -> is_nan y = false ->
  ((x <? y) = true /\ (y <? x) = false /\ (y =? x) = false)%float
  \/ ((x <? y) = false /\ (y <? x) = true /\ (y =? x) = false)%float
  \/ ((x <? y) = false /\ (y <? x) = false /\ (y =? x) = true)%float.
Proof.
  rewrite !is_nan_Prim2SF, !FloatAxioms.ltb_spec, FloatAxioms.eqb_spec. unfold SFltb, SFeqb.
  intros Hx Hy. rewrite (SFcompare_opp (Prim2SF x) (Prim2SF y)).
  destruct (SFcompare_Some _ _ Hx Hy) as [[] ->]; cbn; auto.
Qed.

Lemma is_nan_true x : is_nan x = true -> Prim2SF x = S754_nan.
Proof.
  intros H. destruct (Prim2SF x) eqn:E; try reflexivity;
    assert (is_nan x = false) by (apply is_nan_Prim2SF; rewrite E; discriminate);
    congruence.
Qed.

Lemma float_nan_incomparable x y :
  is_nan x = true \/ is_nan y = true ->
  ((x <? y) = false /\ (y <? x) = false /\ (y =? x) = false)%float.
Proof.
  rewrite !FloatAxioms.ltb_spec, FloatAxioms.eqb_spec. unfold SFltb, SFeqb.
  intros [H|H]; apply is_nan_true in H; rewrite H.
  - destruct (Prim2SF y); auto.
  - destruct (Prim2SF x); auto.
Qed.

Lemma SFltb_asym x y : SFltb x y = true -> SFltb y x = false.
Proof.
  unfold SFltb. rewrite (SFcompare_opp x y).
  destruct (SFcompare x y) as [[]|]; cbn; congruence.
Qed.

Ltac order_cases :=
  repeat match goal with
         | |- context [(?a ?= ?b)%Z] => destruct (Z.compare_spec a b)
         | H : context [(?a ?= ?b)%Z] |- _ => destruct (Z.compare_spec a b)
         | |- context [Pos.compare_cont Eq ?a ?b] =>
             change (Pos.compare_cont Eq a b) with (a ?= b)%positive;
             destruct (Pos.compare_spec a b)
         | H : context [Pos.compare_cont Eq ?a ?b] |- _ =>
             change (Pos.compare_cont Eq a b) with (a ?= b)%positive in H;
             destruct (Pos.compare_spec a b)
         end.

(** Without a NaN, "not below" is transitive. *)
Lemma SFltb_false_trans x y z :
  y <> S754_nan ->
  SFltb x y = false -> SFltb y z = false -> SFltb x z = false.
Proof.
  unfold SFltb.
  destruct x as [[]|[]| |[] m e], y as [[]|[]| |[] m' e'], z as [[]|[]| |[] m2 e2];
    intros Hy; try congruence; cbn [SFcompare CompOpp];
    try reflexivity; try discriminate;
    intros H1 H2; order_cases; cbn [CompOpp] in *;
    try reflexivity; try discriminate; subst; lia.
Qed.

Lemma ltb_false_trans x y z :
  is_nan y = false ->
  (x <? y)%float = false -> (y <? z)%float = false -> (x <? z)%float = false.
Proof.
  rewrite !FloatAxioms.ltb_spec, is_nan_Prim2SF. apply SFltb_false_trans.
Qed.

(** ** The statistics of the report *)

Lemma generate_report_writes base out st :
  subscription_data st <> [] ->
  exists rep st',
    generate_report base out st = Returned out st'
    /\ written st' = written st ++ [(out, rep)]
    /\ rep_breakdown rep = sorted_by_december (subscription_data st)
    /\ rep_increases rep = count_where increased (subscription_data st)
    /\ rep_decreases rep = count_where decreased (subscription_data st)
    /\ rep_unchanged rep = count_where unchanged (subscription_data st).
Proof.
  intros Hne. unfold generate_report, bind, get_data.
  cbn [calculate_aggregates subscription_count].
  destruct (subscription_data st) as [|x l] eqn:Hd; [congruence|].
  cbn [length div_by_count lift].
  eexists _, _. split; [reflexivity|].
  cbn [log with_file written subscription_data rep_breakdown rep_increases
       rep_decreases rep_unchanged].
  repeat split.
Qed.

Lemma count_where_cons p x d :
  count_where p (x :: d) = ((if p (snd x) then 1 else 0) + count_where p d)%nat.
Proof. unfold count_where. cbn [List.filter]. now destruct (p (snd x)). Qed.

Lemma one_comparison r :
  ((if increased r then 1 else 0) + (if decreased r then 1 else 0)
   + (if unchanged r then 1 else 0) + (if incomparable r then 1 else 0) = 1)%nat.
Proof.
  unfold increased, decreased, unchanged, incomparable.
  destruct (is_nan (total (november r))) eqn:Hn.
  - destruct (float_nan_incomparable (total (november r)) (total (december r)))
      as (-> & -> & ->); [now left|reflexivity].
  - destruct (is_nan (total (december r))) eqn:Hd.
    + destruct (float_nan_incomparable (total (november r)) (total (december r)))
        as (-> & -> & ->); [now right|reflexivity].
    + destruct (float_trichotomy _ _ Hn Hd)
        as [(-> & -> & ->)|[(-> & -> & ->)|(-> & -> & ->)]]; reflexivity.
Qed.

Lemma counts_partition d :
  (count_where increased d + count_where decreased d + count_where unchanged d
   + count_where incomparable d = length d)%nat.
Proof.
  induction d as [|x d IH]; [reflexivity|].
  rewrite !count_where_cons. cbn [length].
  pose proof (one_comparison (snd x)). lia.
Qed.

(** The three counts of the summary statistics are disjoint, and together
    they count every record whose two totals are numbers: a record with a
    NaN total is counted by none of the three lines, every other record by
    exactly one. *)
Theorem statistics_count_each_record_once base out st :
  subscription_data st <> [] ->
  exists rep st',
    generate_report base out st = Returned out st'
    /\ written st' = written st ++ [(out, rep)]
    /\ (rep_increases rep + rep_decreases rep + rep_unchanged rep
        + count_where incomparable (subscription_data st)
        = length (subscription_data st))%nat.
Proof.
  intros Hne.
  destruct (generate_report_writes base out st Hne)
    as (rep & st' & Hg & Hw & _ & Hi & Hd & Hu).
  exists rep, st'. repeat split; try assumption.
  rewrite Hi, Hd, Hu. apply counts_partition.
Qed.

(** The November export of the one subscription holds the literal [NaN]:
    the report counts one subscription, and none of the three lines of the
    statistics counts it. *)
Lemma statistics_count_each_record_once_witness :
  exists rep st',
    generate_report scenario_base report_name (scanned fs_november_nan)
    = Returned report_name st'
    /\ written st' = [(report_name, rep)]
    /\ length (subscription_data (scanned fs_november_nan)) = 1%nat
    /\ (rep_increases rep + rep_decreases rep + rep_unchanged rep + 1 = 1)%nat.
Proof.
  destruct (statistics_count_each_record_once scenario_base report_name
              (scanned fs_november_nan)) as (rep & st' & Hg & Hw & Hc).
  - vm_compute. discriminate.
  - exists rep, st'. split; [exact Hg|]. split; [exact Hw|].
    split; [vm_compute; reflexivity|]. exact Hc.
Defined.

(** ** The order of the breakdown *)

Lemma insert_by_december_head x l y l' :
  insert_by_december x l = y :: l' ->
  y = x \/ exists l0, l = y :: l0.
Proof.
  destruct l as [|z l]; cbn [insert_by_december].
  - intros [= <- <-]. now left.
  - destruct (_ <? _)%float; intros [= <- <-]; eauto.
Qed.

Lemma insert_by_december_sorted x l :
  Forall (fun e => is_nan (december_total e) = false) l ->
  StronglySorted not_below l ->
  StronglySorted not_below (insert_by_december x l).
Proof.
  intros Hnan Hs. induction Hs as [|y l Hs IH Hy]; cbn [insert_by_december].
  - repeat constructor.
  - apply Forall_cons in Hnan as [Hny Hnan].
    fold (december_total x). fold (december_total y).
    destruct (december_total x <? december_total y)%float eqn:Hlt.
    + constructor; [now apply IH|].
      eapply Permutation_Forall;
        [symmetry; apply insert_by_december_Permutation|].
      constructor; [|exact Hy].
      unfold not_below. rewrite FloatAxioms.ltb_spec.
      apply SFltb_asym. now rewrite <- FloatAxioms.ltb_spec.
    + constructor; [now constructor|].
      constructor; [exact Hlt|].
      eapply Forall_impl; [exact Hy|]. intros z Hz. unfold not_below in *.
      now apply (ltb_false_trans _ (december_total y)).
Qed.

Lemma sorted_by_december_sorted d :
  Forall (fun e => is_nan (december_total e) = false) d ->
  StronglySorted not_below (sorted_by_december d).
Proof.
  induction d as [|x d IH]; intros H; [constructor|].
  apply Forall_cons in H as [Hx H].
  unfold sorted_by_december. cbn [foldr]. apply insert_by_december_sorted.
  - eapply Permutation_Forall;
      [symmetry; apply sorted_by_december_Permutation|exact H].
  - now apply IH.
Qed.

Lemma SFeqb_not_below x y v :
  SFltb x y = true -> SFeqb x v = true -> SFeqb y v = true -> False.
Proof.
  unfold SFltb, SFeqb.
  destruct x as [[]|[]| |[] m e], y as [[]|[]| |[] m' e'], v as [[]|[]| |[] m2 e2];
    cbn [SFcompare CompOpp]; try discriminate;
    intros H1 H2 H3; order_cases; cbn [CompOpp] in *;
    try discriminate; subst; lia.
Qed.

Lemma with_december_total_insert v x l :
  with_december_total v (insert_by_december x l) = with_december_total v (x :: l).
Proof.
  induction l as [|y l IH]; [reflexivity|].
  cbn [insert_by_december]. fold (december_total x). fold (december_total y).
  destruct (december_total x <? december_total y)%float eqn:Hlt; [|reflexivity].
  unfold with_december_total in *. cbn [List.filter] in *. rewrite IH.
  destruct (december_total x =? v)%float eqn:Hx,
           (december_total y =? v)%float eqn:Hy; try reflexivity.
  exfalso. rewrite FloatAxioms.ltb_spec in Hlt. rewrite FloatAxioms.eqb_spec in Hx, Hy.
  exact (SFeqb_not_below _ _ _ Hlt Hx Hy).
Qed.

Lemma sorted_by_december_stable v d :
  with_december_total v (sorted_by_december d) = with_december_total v d.
Proof.
  induction d as [|x d IH]; [reflexivity|].
  unfold sorted_by_december. cbn [foldr]. rewrite with_december_total_insert.
  unfold with_december_total in *. cbn [List.filter].
  fold (sorted_by_december d). now rewrite IH.
Qed.

(** When no December total is a NaN, the breakdown of the report lists
    the records by falling December total: no entry stands anywhere before
    one with a larger December total. *)
Theorem breakdown_is_descending base out st :
  subscription_data st <> [] ->
  Forall (fun e => is_nan (december_total e) = false) (subscription_data st) ->
  exists rep st',
    generate_report base out st = Returned out st'
    /\ written st' = written st ++ [(out, rep)]
    /\ StronglySorted not_below (rep_breakdown rep).
Proof.
  intros Hne Hnan.
  destruct (generate_report_writes base out st Hne)
    as (rep & st' & Hg & Hw & Hb & _).
  exists rep, st'. repeat split; try assumption.
  rewrite Hb. now apply sorted_by_december_sorted.
Qed.

(** With the documents of two subscriptions in one directory the record
    discovered second, whose December total is the larger one, heads the
    breakdown. *)
Lemma breakdown_is_descending_witness :
  exists rep st',
    generate_report scenario_base report_name (scanned fs_two_subscriptions)
    = Returned report_name st'
    /\ written st' = [(report_name, rep)]
    /\ map fst (subscription_data (scanned fs_two_subscriptions))
       = [scenario_id; second_id]
    /\ map fst (rep_breakdown rep) = [second_id; scenario_id]
    /\ StronglySorted not_below (rep_breakdown rep).
Proof.
  destruct (breakdown_is_descending scenario_base report_name
              (scanned fs_two_subscriptions)) as (rep & st' & Hg & Hw & Hs).
  - vm_compute. discriminate.
  - vm_compute. repeat constructor.
  - exists rep, st'. split; [exact Hg|]. split; [exact Hw|].
    split; [vm_compute; reflexivity|]. split; [|exact Hs].
    revert Hg Hw. vm_compute. intros [= <-] [= <-]. reflexivity.
Defined.

(** When no December total is a NaN, the breakdown holds the records of
    the mapping, each once, and records with equal December totals stand
    in it in the order of the mapping, the order in which their
    subscriptions were first discovered. *)
Theorem breakdown_keeps_ties_in_order base out st :
  subscription_data st <> [] ->
  Forall (fun e => is_nan (december_total e) = false) (subscription_data st) ->
  exists rep st',
    generate_report base out st = Returned out st'
    /\ written st' = written st ++ [(out, rep)]
    /\ rep_breakdown rep ≡ₚ subscription_data st
    /\ forall v, with_december_total v (rep_breakdown rep)
                 = with_december_total v (subscription_data st).
Proof.
  intros Hne _.
  destruct (generate_report_writes base out st Hne)
    as (rep & st' & Hg & Hw & Hb & _).
  exists rep, st'. repeat split; try assumption; rewrite Hb.
  - apply sorted_by_december_Permutation.
  - intros v. apply sorted_by_december_stable.
Qed.

(** Two subscriptions with the same December total: the breakdown lists
    them as they were discovered. *)
Lemma breakdown_keeps_ties_in_order_witness :
  exists rep st',
    generate_report scenario_base report_name (scanned fs_equal_totals)
    = Returned report_name st'
    /\ written st' = [(report_name, rep)]
    /\ map fst (subscription_data (scanned fs_equal_totals))
       = [scenario_id; second_id]
    /\ map fst (with_december_total 800 (rep_breakdown rep))
       = [scenario_id; second_id].
Proof.
  destruct (breakdown_keeps_ties_in_order scenario_base report_name
              (scanned fs_equal_totals)) as (rep & st' & Hg & Hw & _ & Ht).
  - vm_compute. discriminate.
  - vm_compute. repeat constructor.
  - exists rep, st'. split; [exact Hg|]. split; [exact Hw|].
    split; [vm_compute; reflexivity|]. rewrite Ht. vm_compute. reflexivity.
Defined.

(** ** What ends a scan *)





